(** * Nanocolor: a shallow embedding of [nanocolor.py]

    The Python module computes with binary64 floats.  This development
    reads every [float] as a real number and every arithmetic operator as
    the exact operation on [R]; decimal literals denote the decimal
    fraction written in the source.  Rounding, infinities and NaN are
    outside the model.  What the model keeps is everything that decides
    control flow and failure in the source: the comparisons, the guards,
    the exceptions raised by division by zero, by [math.log] and
    [math.pow] outside their domain, by [math.pow] and [math.exp] when
    their result leaves the range of the finite floats, and by
    [M33f.invert] on a matrix whose determinant is too small. *)

From Stdlib Require Import Reals Lra Lia List String Bool.
From Stdlib Require Import ZArith DecimalString Ascii.
Import ListNotations.
Open Scope R_scope.

(** ** Exceptions and the result monad *)

(** The exceptions the module can raise.  [SingularMatrix] is the
    [ValueError] raised by [M33f.invert]; [MathDomainError] is the
    [ValueError] raised by [math.log] and [math.pow]; [BadLength] is the
    [ValueError] raised by the [M33f] constructor; [OverflowError] is
    raised by [math.pow] and [math.exp]. *)
Inductive exn : Type :=
| SingularMatrix
| MathDomainError
| ZeroDivisionError
| BadLength
| OverflowError.

Inductive result (A : Type) : Type :=
| Ok (a : A)
| Raise (e : exn).
Arguments Ok {A} a.
Arguments Raise {A} e.

Definition bind {A B : Type} (r : result A) (k : A -> result B) : result B :=
  match r with
  | Ok a => k a
  | Raise e => Raise e
  end.

Notation "x <- e ;; k" := (bind e (fun x => k))
  (at level 61, e at next level, right associativity).

Definition succeeds {A : Type} (r : result A) : Prop :=
  exists a, r = Ok a.

(** Python's [a / b] on floats. *)
Definition fdiv (a b : R) : result R :=
  if Req_dec_T b 0 then Raise ZeroDivisionError else Ok (a / b).

(** [math.log]. *)
Definition math_log (x : R) : result R :=
  if Rlt_dec 0 x then Ok (ln x) else Raise MathDomainError.

(** The range of the binary64 floats.  [float_max] is the largest
    finite one, [(2 - 2^-52) * 2^1023]; [float_tiny] is [2^-1075], half
    the smallest positive one, at or below which a positive result
    rounds to [0.0]. *)
Definition float_max : R := IZR (2 ^ 1024 - 2 ^ 971).

Definition float_tiny : R := / IZR (2 ^ 1075).

Arguments float_max : simpl never.
Arguments float_tiny : simpl never.

(** A real in the range of the finite floats. *)
Definition is_finite (x : R) : Prop := Rabs x <= float_max.

Definition is_finite_dec (x : R) : {is_finite x} + {~ is_finite x} :=
  Rle_dec (Rabs x) float_max.

(** [math.exp]: a result too small for a float is [0.0]; a result
    beyond the largest finite float, from a finite argument, is an
    [OverflowError]. *)
Definition math_exp (x : R) : result R :=
  if Rle_dec (exp x) float_tiny then Ok 0
  else if is_finite_dec x then
    if is_finite_dec (exp x) then Ok (exp x) else Raise OverflowError
  else Ok (exp x).

(** The value of [math.pow x y] where it is defined: [exp (y * ln x)]
    on a positive base; [0 ** y] is 0 for positive [y], 1 for [y = 0]
    and a domain error for negative [y]; a negative base is defined
    only for an integral exponent. *)
Definition pow_value (x y : R) : result R :=
  if Rlt_dec 0 x then Ok (Rpower x y)
  else if Req_dec_T x 0 then
    if Rlt_dec y 0 then Raise MathDomainError
    else if Req_dec_T y 0 then Ok 1 else Ok 0
  else
    if Req_dec_T (frac_part y) 0 then Ok (powerRZ x (Int_part y))
    else Raise MathDomainError.

(** [math.pow x y]: the value above, and an [OverflowError] when both
    arguments are finite and the value is beyond the largest finite
    float. *)
Definition math_pow (x y : R) : result R :=
  v <- pow_value x y ;;
  if is_finite_dec x then
    if is_finite_dec y then
      if is_finite_dec v then Ok v else Raise OverflowError
    else Ok v
  else Ok v.

(** ** Value types *)

Record Chromaticity : Type := mkChromaticity { cx : R; cy : R }.

Record XYZ : Type := mkXYZ { X_x : R; X_y : R; X_z : R }.

Record Yxy : Type := mkYxy { Y_Y : R; Y_x : R; Y_y : R }.

Record RGB : Type := mkRGB { r : R; g : R; b : R }.

(** ** M33f: a row-major 3x3 matrix

    The source keeps the nine entries in a list [m] indexed 0..8; the
    constructor refuses any other length, so the entries are fields
    here. *)
Record M33f : Type := mkM33f {
  m0 : R; m1 : R; m2 : R;
  m3 : R; m4 : R; m5 : R;
  m6 : R; m7 : R; m8 : R
}.

Definition M33f_zero : M33f := mkM33f 0 0 0 0 0 0 0 0 0.

Definition M33f_identity : M33f := mkM33f 1 0 0 0 1 0 0 0 1.

(** [M33f.__init__]. *)
Definition M33f_init (m : option (list R)) : result M33f :=
  match m with
  | None => Ok M33f_zero
  | Some [a0; a1; a2; a3; a4; a5; a6; a7; a8] =>
      Ok (mkM33f a0 a1 a2 a3 a4 a5 a6 a7 a8)
  | Some _ => Raise BadLength
  end.

(** [M33f.multiply]. *)
Definition multiply (s o : M33f) : M33f :=
  mkM33f
    (m0 s * m0 o + m1 s * m3 o + m2 s * m6 o)
    (m0 s * m1 o + m1 s * m4 o + m2 s * m7 o)
    (m0 s * m2 o + m1 s * m5 o + m2 s * m8 o)
    (m3 s * m0 o + m4 s * m3 o + m5 s * m6 o)
    (m3 s * m1 o + m4 s * m4 o + m5 s * m7 o)
    (m3 s * m2 o + m4 s * m5 o + m5 s * m8 o)
    (m6 s * m0 o + m7 s * m3 o + m8 s * m6 o)
    (m6 s * m1 o + m7 s * m4 o + m8 s * m7 o)
    (m6 s * m2 o + m7 s * m5 o + m8 s * m8 o).

(** The determinant as [M33f.invert] computes it.  The source names the
    indices [M0..M8 = 0,3,6,1,4,7,2,5,8], so [self.m[M1]] is [m3],
    [self.m[M3]] is [m1], and so on. *)
Definition det (s : M33f) : R :=
  m0 s * (m4 s * m8 s - m7 s * m5 s)
  - m3 s * (m1 s * m8 s - m7 s * m2 s)
  + m6 s * (m1 s * m5 s - m4 s * m2 s).

(** The nine entries [M33f.invert] stores when the determinant passes
    the test, with [invdet = 1.0 / det]. *)
Definition adjugate_over_det (s : M33f) (invdet : R) : M33f :=
  mkM33f
    ((m4 s * m8 s - m7 s * m5 s) * invdet)    (* inv.m[M0] -> index 0 *)
    ((m7 s * m2 s - m1 s * m8 s) * invdet)    (* inv.m[M3] -> index 1 *)
    ((m1 s * m5 s - m4 s * m2 s) * invdet)    (* inv.m[M6] -> index 2 *)
    ((m6 s * m5 s - m3 s * m8 s) * invdet)    (* inv.m[M1] -> index 3 *)
    ((m0 s * m8 s - m6 s * m2 s) * invdet)    (* inv.m[M4] -> index 4 *)
    ((m3 s * m2 s - m0 s * m5 s) * invdet)    (* inv.m[M7] -> index 5 *)
    ((m3 s * m7 s - m6 s * m4 s) * invdet)    (* inv.m[M2] -> index 6 *)
    ((m6 s * m1 s - m0 s * m7 s) * invdet)    (* inv.m[M5] -> index 7 *)
    ((m0 s * m4 s - m3 s * m1 s) * invdet).   (* inv.m[M8] -> index 8 *)

(** [M33f.invert]. *)
Definition invert (s : M33f) : result M33f :=
  if Rlt_dec (Rabs (det s)) 1e-10 then Raise SingularMatrix
  else
    invdet <- fdiv 1 (det s) ;;
    Ok (adjugate_over_det s invdet).

(** [M33f.transform_rgb]. *)
Definition transform_rgb (s : M33f) (c : RGB) : RGB :=
  mkRGB (m0 s * r c + m1 s * g c + m2 s * b c)
        (m3 s * r c + m4 s * g c + m5 s * b c)
        (m6 s * r c + m7 s * g c + m8 s * b c).

(** ** Descriptors and color spaces *)

Record ColorSpaceDescriptor : Type := mkColorSpaceDescriptor {
  name : string;
  red_primary : Chromaticity;
  green_primary : Chromaticity;
  blue_primary : Chromaticity;
  white_point : Chromaticity;
  gamma : R;
  linear_bias : R
}.

Record ColorSpaceM33Descriptor : Type := mkColorSpaceM33Descriptor {
  m33_name : string;
  m33_rgb_to_xyz : M33f;
  m33_gamma : R;
  m33_linear_bias : R
}.

Record ColorSpace : Type := mkColorSpace {
  descriptor : ColorSpaceDescriptor;
  k0 : R;
  phi : R;
  rgb_to_xyz : M33f
}.

Definition set_transfer (self : ColorSpace) (k p : R) : ColorSpace :=
  mkColorSpace (descriptor self) k p (rgb_to_xyz self).

Definition set_rgb_to_xyz (self : ColorSpace) (m : M33f) : ColorSpace :=
  mkColorSpace (descriptor self) (k0 self) (phi self) m.

(** The first half of [ColorSpace._initialize]: the breakpoint [k0] and
    the slope [phi] of the linear segment. *)
Definition init_transfer (self : ColorSpace) : result ColorSpace :=
  let a := linear_bias (descriptor self) in
  let gamma := gamma (descriptor self) in
  if Req_dec_T gamma 1 then Ok (set_transfer self 1e9 1)
  else if Rle_dec a 0 then Ok (set_transfer self 0 1)
  else
    k <- fdiv a (gamma - 1) ;;
    q <- fdiv (gamma * a) (gamma + gamma * a - 1 - a) ;;
    l <- math_log q ;;
    e <- math_exp (l * gamma) ;;
    n <- fdiv a e ;;
    p <- fdiv n (gamma - 1) ;;
    Ok (set_transfer self k p).

(** The matrix P of the source: the primaries bound as columns, each
    extended with the third coordinate [1 - x - y]. *)
Definition primaries_matrix (d : ColorSpaceDescriptor) : M33f :=
  let red := red_primary d in
  let green := green_primary d in
  let blue := blue_primary d in
  mkM33f (cx red) (cx green) (cx blue)
         (cy red) (cy green) (cy blue)
         (1 - cx red - cy red) (1 - cx green - cy green) (1 - cx blue - cy blue).

(** The SMPTE RP 177-1993 derivation of [ColorSpace._initialize]: the
    statements after the sentinel test. *)
Definition derive_rgb_to_xyz (self : ColorSpace) : result ColorSpace :=
  let d := descriptor self in
  let white0 := cx (white_point d) in
  let white1 := cy (white_point d) in
  let white2 := 1 - cx (white_point d) - cy (white_point d) in
  let p := primaries_matrix d in
  W0 <- fdiv white0 white1 ;;
  W1 <- fdiv white1 white1 ;;
  W2 <- fdiv white2 white1 ;;
  p_inv <- invert p ;;
  let C0 := m0 p_inv * W0 + m1 p_inv * W1 + m2 p_inv * W2 in
  let C1 := m3 p_inv * W0 + m4 p_inv * W1 + m5 p_inv * W2 in
  let C2 := m6 p_inv * W0 + m7 p_inv * W1 + m8 p_inv * W2 in
  Ok (set_rgb_to_xyz self
        (mkM33f (m0 p * C0) (m1 p * C1) (m2 p * C2)
                (m3 p * C0) (m4 p * C1) (m5 p * C2)
                (m6 p * C0) (m7 p * C1) (m8 p * C2))).

(** The second half of [ColorSpace._initialize]: the sentinel test on
    the white point, then the derivation. *)
Definition init_matrix (self : ColorSpace) : result ColorSpace :=
  if Req_dec_T (cx (white_point (descriptor self))) 0 then Ok self
  else derive_rgb_to_xyz self.

(** [ColorSpace._initialize]. *)
Definition _initialize (self : ColorSpace) : result ColorSpace :=
  self' <- init_transfer self ;;
  init_matrix self'.

(** [ColorSpace.__init__]. *)
Definition ColorSpace_init (d : ColorSpaceDescriptor) : result ColorSpace :=
  _initialize (mkColorSpace d 0 0 M33f_zero).

(** [ColorSpace.from_matrix]. *)
Definition from_matrix (d : ColorSpaceM33Descriptor) : result ColorSpace :=
  let dummy_desc :=
    mkColorSpaceDescriptor (m33_name d)
      (mkChromaticity 0 0) (mkChromaticity 0 0) (mkChromaticity 0 0)
      (mkChromaticity 0 0) (m33_gamma d) (m33_linear_bias d) in
  cs <- ColorSpace_init dummy_desc ;;
  Ok (set_rgb_to_xyz cs (m33_rgb_to_xyz d)).

(** [ColorSpace.from_linear]. *)
Definition from_linear (self : ColorSpace) (t : R) : result R :=
  q <- fdiv (k0 self) (phi self) ;;
  if Rlt_dec t q then Ok (t * phi self)
  else
    let a := linear_bias (descriptor self) in
    e <- fdiv 1 (gamma (descriptor self)) ;;
    p <- math_pow t e ;;
    Ok ((1 + a) * p - a).

(** [ColorSpace.to_linear]. *)
Definition to_linear (self : ColorSpace) (t : R) : result R :=
  if Rlt_dec t (k0 self) then fdiv t (phi self)
  else
    let a := linear_bias (descriptor self) in
    q <- fdiv (t + a) (1 + a) ;;
    math_pow q (gamma (descriptor self)).

Definition get_rgb_to_xyz_matrix (self : ColorSpace) : M33f :=
  rgb_to_xyz self.

Definition get_xyz_to_rgb_matrix (self : ColorSpace) : result M33f :=
  invert (rgb_to_xyz self).

Definition create_color_space (d : ColorSpaceDescriptor) : result ColorSpace :=
  ColorSpace_init d.

Definition create_color_space_m33 (d : ColorSpaceM33Descriptor)
  : result ColorSpace :=
  from_matrix d.

(** [transform_color]. *)
Definition transform_color (dst src : ColorSpace) (rgb : RGB) : result RGB :=
  lr <- to_linear src (r rgb) ;;
  lg <- to_linear src (g rgb) ;;
  lb <- to_linear src (b rgb) ;;
  let linear_rgb := mkRGB lr lg lb in
  inv <- get_xyz_to_rgb_matrix dst ;;
  let transformation_matrix := multiply inv (get_rgb_to_xyz_matrix src) in
  let transformed_linear := transform_rgb transformation_matrix linear_rgb in
  er <- from_linear dst (r transformed_linear) ;;
  eg <- from_linear dst (g transformed_linear) ;;
  eb <- from_linear dst (b transformed_linear) ;;
  Ok (mkRGB er eg eb).

(** [xyz_to_yxy]. *)
Definition xyz_to_yxy (xyz : XYZ) : result Yxy :=
  let sum_xyz := X_x xyz + X_y xyz + X_z xyz in
  if Req_dec_T sum_xyz 0 then Ok (mkYxy (X_y xyz) 0 0)
  else
    x <- fdiv (X_x xyz) sum_xyz ;;
    y <- fdiv (X_y xyz) sum_xyz ;;
    Ok (mkYxy (X_y xyz) x y).

(** [yxy_to_xyz]. *)
Definition yxy_to_xyz (yxy : Yxy) : result XYZ :=
  if Req_dec_T (Y_y yxy) 0 then Ok (mkXYZ 0 0 0)
  else
    x <- fdiv (Y_Y yxy * Y_x yxy) (Y_y yxy) ;;
    z <- fdiv (Y_Y yxy * (1 - Y_x yxy - Y_y yxy)) (Y_y yxy) ;;
    Ok (mkXYZ x (Y_Y yxy) z).

(** [kelvin_to_yxy].  Python's [max(a, b)] and [min(a, b)] on two
    floats are [Rmax] and [Rmin]. *)
Definition kelvin_to_yxy (temperature luminosity : R) : result Yxy :=
  let temp := Rmax 1000 (Rmin 15000 temperature) in
  x <- (if Rlt_dec temp 4000 then
          t3 <- fdiv 1e9 (temp * temp * temp) ;;
          t2 <- fdiv 1e6 (temp * temp) ;;
          t1 <- fdiv 1e3 temp ;;
          Ok (-0.2661239 * t3 - 0.2343589 * t2 + 0.8776956 * t1 + 0.179910)
        else
          t3 <- fdiv 1e9 (temp * temp * temp) ;;
          t2 <- fdiv 1e6 (temp * temp) ;;
          t1 <- fdiv 1e3 temp ;;
          Ok (-3.0258469 * t3 + 2.1070379 * t2 + 0.2226347 * t1 + 0.240390)) ;;
  let y :=
    if Rlt_dec temp 2222 then
      -1.1063814 * (x * x * x) - 1.34811020 * (x * x) + 2.18555832 * x - 0.20219683
    else if Rlt_dec temp 4000 then
      -0.9549476 * (x * x * x) - 1.37418593 * (x * x) + 2.09137015 * x - 0.16748867
    else
      3.0817580 * (x * x * x) - 5.87338670 * (x * x) + 3.75112997 * x - 0.37001483 in
  Ok (mkYxy luminosity x y).

(** ** The built-in descriptor table *)

Definition WP_D65 : Chromaticity := mkChromaticity 0.3127 0.3290.
Definition WP_ACES : Chromaticity := mkChromaticity 0.32168 0.33767.

Definition Chr := mkChromaticity.

(** [COLOR_SPACES]: a Python dict literal, kept as an association list
    in the order of the literal, which is the order [items()] yields. *)
Definition COLOR_SPACES : list (string * ColorSpaceDescriptor) :=
  let D := mkColorSpaceDescriptor in
  [ ("acescg"%string,
     D "acescg"%string (Chr 0.713 0.293) (Chr 0.165 0.830)
       (Chr 0.128 0.044) WP_ACES 1.0 0.0);
    ("adobergb"%string,
     D "adobergb"%string (Chr 0.64 0.33) (Chr 0.21 0.71)
       (Chr 0.15 0.06) WP_D65 2.2 0.0);
    ("g18_ap1"%string,
     D "g18_ap1"%string (Chr 0.713 0.293) (Chr 0.165 0.830)
       (Chr 0.128 0.044) WP_ACES 1.8 0.0);
    ("g18_rec709"%string,
     D "g18_rec709"%string (Chr 0.640 0.330) (Chr 0.300 0.600)
       (Chr 0.150 0.060) WP_D65 1.8 0.0);
    ("g22_ap1"%string,
     D "g22_ap1"%string (Chr 0.713 0.293) (Chr 0.165 0.830)
       (Chr 0.128 0.044) WP_ACES 2.2 0.0);
    ("g22_rec709"%string,
     D "g22_rec709"%string (Chr 0.640 0.330) (Chr 0.300 0.600)
       (Chr 0.150 0.060) WP_D65 2.2 0.0);
    ("lin_adobergb"%string,
     D "lin_adobergb"%string (Chr 0.64 0.33) (Chr 0.21 0.71)
       (Chr 0.15 0.06) WP_D65 1.0 0.0);
    ("lin_ap0"%string,
     D "lin_ap0"%string (Chr 0.7347 0.2653) (Chr 0.0000 1.0000)
       (Chr 0.0001 (-0.0770)) WP_ACES 1.0 0.0);
    ("lin_ap1"%string,
     D "lin_ap1"%string (Chr 0.713 0.293) (Chr 0.165 0.830)
       (Chr 0.128 0.044) WP_ACES 1.0 0.0);
    ("lin_displayp3"%string,
     D "lin_displayp3"%string (Chr 0.6800 0.3200) (Chr 0.2650 0.6900)
       (Chr 0.1500 0.0600) WP_D65 1.0 0.0);
    ("lin_rec709"%string,
     D "lin_rec709"%string (Chr 0.640 0.330) (Chr 0.300 0.600)
       (Chr 0.150 0.060) WP_D65 1.0 0.0);
    ("lin_rec2020"%string,
     D "lin_rec2020"%string (Chr 0.708 0.292) (Chr 0.170 0.797)
       (Chr 0.131 0.046) WP_D65 1.0 0.0);
    ("lin_srgb"%string,
     D "lin_srgb"%string (Chr 0.640 0.330) (Chr 0.300 0.600)
       (Chr 0.150 0.060) WP_D65 1.0 0.0);
    ("srgb_displayp3"%string,
     D "srgb_displayp3"%string (Chr 0.6800 0.3200) (Chr 0.2650 0.6900)
       (Chr 0.1500 0.0600) WP_D65 2.4 0.055);
    ("sRGB"%string,
     D "sRGB"%string (Chr 0.640 0.330) (Chr 0.300 0.600)
       (Chr 0.150 0.060) WP_D65 2.4 0.055);
    ("srgb_texture"%string,
     D "srgb_texture"%string (Chr 0.640 0.330) (Chr 0.300 0.600)
       (Chr 0.150 0.060) WP_D65 2.4 0.055);
    ("identity"%string,
     D "identity"%string (Chr 1.0 0.0) (Chr 0.0 1.0)
       (Chr 0.0 0.0) (Chr (1.0 / 3.0) (1.0 / 3.0)) 1.0 0.0);
    ("raw"%string,
     D "raw"%string (Chr 1.0 0.0) (Chr 0.0 1.0)
       (Chr 0.0 0.0) (Chr (1.0 / 3.0) (1.0 / 3.0)) 1.0 0.0) ].

(** [match_linear_color_space]: the nested [chromaticity_close] and the
    scan over [COLOR_SPACES.items()]. *)
Definition chromaticity_close (c1 c2 : Chromaticity) (eps : R) : bool :=
  (if Rlt_dec (Rabs (cx c1 - cx c2)) eps then true else false)
  && (if Rlt_dec (Rabs (cy c1 - cy c2)) eps then true else false).

Definition descriptor_matches (d : ColorSpaceDescriptor)
  (red green blue white : Chromaticity) (epsilon : R) : bool :=
  chromaticity_close (red_primary d) red epsilon
  && chromaticity_close (green_primary d) green epsilon
  && chromaticity_close (blue_primary d) blue epsilon
  && chromaticity_close (white_point d) white epsilon.

Fixpoint match_scan (items : list (string * ColorSpaceDescriptor))
  (red green blue white : Chromaticity) (epsilon : R) : option string :=
  match items with
  | [] => None
  | (nm, d) :: rest =>
      if Req_dec_T (gamma d) 1 then
        if descriptor_matches d red green blue white epsilon then Some nm
        else match_scan rest red green blue white epsilon
      else match_scan rest red green blue white epsilon
  end.

Definition match_linear_color_space
  (red_primary green_primary blue_primary white_point : Chromaticity)
  (epsilon : R) : option string :=
  match_scan COLOR_SPACES red_primary green_primary blue_primary white_point
    epsilon.

(** ** The registry as program state *)

(** A Python dict as an insertion-ordered association list. *)
Fixpoint dict_get {V : Type} (d : list (string * V)) (key : string) : option V :=
  match d with
  | [] => None
  | (k, v) :: rest => if String.eqb k key then Some v else dict_get rest key
  end.

Fixpoint dict_set {V : Type} (d : list (string * V)) (key : string) (v : V)
  : list (string * V) :=
  match d with
  | [] => [(key, v)]
  | (k, w) :: rest =>
      if String.eqb k key then (k, v) :: rest else (k, w) :: dict_set rest key v
  end.

(** The module's only mutable global. *)
Record State : Type := mkState {
  _color_space_library : list (string * ColorSpace)
}.

(** Computations over the program state; an exception leaves the state
    as it was when raised. *)
Definition M (A : Type) : Type := State -> result A * State.

Definition ret {A : Type} (a : A) : M A := fun s => (Ok a, s).

Definition lift {A : Type} (x : result A) : M A := fun s => (x, s).

Definition mbind {A B : Type} (m : M A) (k : A -> M B) : M B :=
  fun s =>
    match m s with
    | (Ok a, s') => k a s'
    | (Raise e, s') => (Raise e, s')
    end.

Definition get_library : M (list (string * ColorSpace)) :=
  fun s => (Ok (_color_space_library s), s).

Definition put_library (l : list (string * ColorSpace)) : M unit :=
  fun _ => (Ok tt, mkState l).

Fixpoint populate (items : list (string * ColorSpaceDescriptor)) : M unit :=
  match items with
  | [] => ret tt
  | (nm, d) :: rest =>
      mbind (lift (ColorSpace_init d)) (fun cs =>
      mbind get_library (fun l =>
      mbind (put_library (dict_set l nm cs)) (fun _ =>
      populate rest)))
  end.

(** [init_color_space_library]. *)
Definition init_color_space_library : M unit :=
  mbind (put_library []) (fun _ => populate COLOR_SPACES).

(** [registered_color_space_names]. *)
Definition registered_color_space_names : M (list string) :=
  mbind get_library (fun l => ret (map fst l)).

(** [get_named_color_space]. *)
Definition get_named_color_space (nm : string) : M (option ColorSpace) :=
  mbind get_library (fun l => ret (dict_get l nm)).

(** ** The module namespace

    [COLOR_SPACES] and [_color_space_library] are the two global dicts
    of the module, and a dict can be written to.  The functions above
    take the table as the literal it is bound to at import and keep the
    registry alone as state.  Here both globals are in the state, every
    function that names a global reads it from the state, and that the
    table stays what the literal made it is something to prove. *)
Record Globals : Type := mkGlobals {
  g_COLOR_SPACES : list (string * ColorSpaceDescriptor);
  g_registry : State
}.

Definition GM (A : Type) : Type := Globals -> result A * Globals.

(** A computation over the registry, run in the namespace. *)
Definition in_namespace {A : Type} (m : M A) : GM A :=
  fun g =>
    let '(x, s) := m (g_registry g) in (x, mkGlobals (g_COLOR_SPACES g) s).

Definition module_init_color_space_library : GM unit :=
  fun g =>
    in_namespace
      (mbind (put_library []) (fun _ => populate (g_COLOR_SPACES g))) g.

Definition module_registered_color_space_names : GM (list string) :=
  in_namespace registered_color_space_names.

Definition module_get_named_color_space (nm : string)
  : GM (option ColorSpace) :=
  in_namespace (get_named_color_space nm).

Definition module_match_linear_color_space
  (red_primary green_primary blue_primary white_point : Chromaticity)
  (epsilon : R) : GM (option string) :=
  fun g =>
    (Ok (match_scan (g_COLOR_SPACES g) red_primary green_primary
           blue_primary white_point epsilon), g).

(** The calls a client can make on the functions that name a global. *)
Inductive call : Type :=
| call_init
| call_names
| call_get (nm : string)
| call_match (red green blue white : Chromaticity) (epsilon : R).

Definition after_call (g : Globals) (c : call) : Globals :=
  match c with
  | call_init => snd (module_init_color_space_library g)
  | call_names => snd (module_registered_color_space_names g)
  | call_get nm => snd (module_get_named_color_space nm g)
  | call_match red green blue white epsilon =>
      snd (module_match_linear_color_space red green blue white epsilon g)
  end.

(** The namespace when the two dict literals have been evaluated, and
    after a sequence of calls from there; the module itself makes the
    first call, to [init_color_space_library], as its last statement. *)
Definition at_import : Globals := mkGlobals COLOR_SPACES (mkState []).

Definition after_calls (calls : list call) : Globals :=
  fold_left after_call calls at_import.

(** ** Notions the properties are stated with *)

(** The Yxy round trip, [yxy_to_xyz(xyz_to_yxy(xyz))]. *)
Definition yxy_round_trip (xyz : XYZ) : result XYZ :=
  yxy <- xyz_to_yxy xyz ;;
  yxy_to_xyz yxy.

Definition XYZ_close (eps : R) (u v : XYZ) : Prop :=
  Rabs (X_x u - X_x v) <= eps
  /\ Rabs (X_y u - X_y v) <= eps
  /\ Rabs (X_z u - X_z v) <= eps.

Definition RGB_close (eps : R) (u v : RGB) : Prop :=
  Rabs (r u - r v) <= eps
  /\ Rabs (g u - g v) <= eps
  /\ Rabs (b u - b v) <= eps.

Definition unit_cube (c : RGB) : Prop :=
  0 <= r c <= 1 /\ 0 <= g c <= 1 /\ 0 <= b c <= 1.

(** An RGB value with no component above 1e100: on these the power in
    [to_linear], with a gamma of at most 3, stays a finite float. *)
Definition RGB_bounded (c : RGB) : Prop :=
  r c <= 1e100 /\ g c <= 1e100 /\ b c <= 1e100.

(** Clamping as the specification words it. *)
Definition clamp (lo hi t : R) : R :=
  if Rlt_dec t lo then lo else if Rlt_dec hi t then hi else t.

(** A cubic polynomial [a3 u^3 + a2 u^2 + a1 u + a0]. *)
Definition cubic (a3 a2 a1 a0 u : R) : R :=
  a3 * (u * u * u) + a2 * (u * u) + a1 * u + a0.

(** The chromaticity [x] of the blackbody locus as a cubic in the
    reciprocal temperature [1000 / T], one for each side of 4000 K. *)
Definition locus_x (temp : R) : R :=
  if Rlt_dec temp 4000
  then cubic (-0.2661239) (-0.2343589) 0.8776956 0.179910 (1000 / temp)
  else cubic (-3.0258469) 2.1070379 0.2226347 0.240390 (1000 / temp).

(** The chromaticity [y] as a cubic in [x], one for each of the three
    temperature ranges. *)
Definition locus_y (temp x : R) : R :=
  if Rlt_dec temp 2222
  then cubic (-1.1063814) (-1.34811020) 2.18555832 (-0.20219683) x
  else if Rlt_dec temp 4000
  then cubic (-0.9549476) (-1.37418593) 2.09137015 (-0.16748867) x
  else cubic 3.0817580 (-5.87338670) 3.75112997 (-0.37001483) x.

(** Per-axis closeness of two chromaticities, as a proposition. *)
Definition within (eps : R) (c1 c2 : Chromaticity) : Prop :=
  Rabs (cx c1 - cx c2) < eps /\ Rabs (cy c1 - cy c2) < eps.

(** A table entry that [match_linear_color_space] may return. *)
Definition linear_candidate (d : ColorSpaceDescriptor)
  (red green blue white : Chromaticity) (eps : R) : Prop :=
  gamma d = 1
  /\ within eps (red_primary d) red
  /\ within eps (green_primary d) green
  /\ within eps (blue_primary d) blue
  /\ within eps (white_point d) white.

(** The white point's XYZ with luminance normalised to 1. *)
Definition white_XYZ (w : Chromaticity) : RGB :=
  mkRGB (cx w / cy w) 1 ((1 - cx w - cy w) / cy w).

(** The coefficients [C = P^-1 W] and the matrix [P diag(C)] that the
    derivation stores when every step succeeds, for primaries matrix [p]
    and white point [w]. *)
Definition white_coefficients (p : M33f) (w : Chromaticity) : R * R * R :=
  let p_inv := adjugate_over_det p (1 / det p) in
  let W0 := cx w / cy w in
  let W1 := cy w / cy w in
  let W2 := (1 - cx w - cy w) / cy w in
  (m0 p_inv * W0 + m1 p_inv * W1 + m2 p_inv * W2,
   m3 p_inv * W0 + m4 p_inv * W1 + m5 p_inv * W2,
   m6 p_inv * W0 + m7 p_inv * W1 + m8 p_inv * W2).

Definition scaled_primaries (p : M33f) (w : Chromaticity) : M33f :=
  let '(C0, C1, C2) := white_coefficients p w in
  mkM33f (m0 p * C0) (m1 p * C1) (m2 p * C2)
         (m3 p * C0) (m4 p * C1) (m5 p * C2)
         (m6 p * C0) (m7 p * C1) (m8 p * C2).

(** The coefficients cleared of their denominators: [adj(P) (Wx, Wy,
    1 - Wx - Wy)], so that [C = numerators / (det P * Wy)]. *)
Definition white_numerators (p : M33f) (w : Chromaticity) : R * R * R :=
  let a := adjugate_over_det p 1 in
  let W0 := cx w in
  let W1 := cy w in
  let W2 := 1 - cx w - cy w in
  (m0 a * W0 + m1 a * W1 + m2 a * W2,
   m3 a * W0 + m4 a * W1 + m5 a * W2,
   m6 a * W0 + m7 a * W1 + m8 a * W2).

(** A descriptor on which the derivation runs, succeeds, and leaves a
    matrix that [invert] accepts. *)
Definition derivation_invertible (d : ColorSpaceDescriptor) : Prop :=
  cx (white_point d) <> 0
  /\ 0 < cy (white_point d)
  /\ ~ Rabs (det (primaries_matrix d)) < 1e-10
  /\ ~ Rabs (det (scaled_primaries (primaries_matrix d) (white_point d))) < 1e-10.

(** The transfer coefficients of a color space fit together: gamma is
    between 1 and 3, the slope is positive, the breakpoint is not
    negative and at most 1e100, and the two segments meet at the
    breakpoint (or the breakpoint is 0). *)
Definition transfer_wf (cs : ColorSpace) : Prop :=
  let a := linear_bias (descriptor cs) in
  1 <= gamma (descriptor cs) <= 3
  /\ 0 <= a
  /\ 0 < phi cs
  /\ 0 <= k0 cs <= 1e100
  /\ (k0 cs = 0
      \/ (0 < (k0 cs + a) / (1 + a)
          /\ k0 cs / phi cs = Rpower ((k0 cs + a) / (1 + a)) (gamma (descriptor cs)))).

(** The descriptors whose transfer parameters the table uses: gamma
    between 1 and 3 with no bias, or gamma between 1.5 and 3 with a bias
    between 0.001 and 1. *)
Definition transfer_parameters_ok (d : ColorSpaceDescriptor) : Prop :=
  1 <= gamma d <= 3
  /\ (linear_bias d = 0 \/ (1e-3 <= linear_bias d <= 1 /\ 1.5 <= gamma d)).

(** ** Descriptors used as test inputs *)

(** The table's entry for sRGB. *)
Definition sRGB_descriptor : ColorSpaceDescriptor :=
  mkColorSpaceDescriptor "sRGB"%string (Chr 0.640 0.330) (Chr 0.300 0.600)
    (Chr 0.150 0.060) WP_D65 2.4 0.055.

(** A matrix-form descriptor carrying the all-zero matrix. *)
Definition flat_m33 : ColorSpaceM33Descriptor :=
  mkColorSpaceM33Descriptor "flat"%string M33f_zero 1 0.

(** Primaries of the identity space with the white point on the line
    through the red and green primaries. *)
Definition collinear_white : ColorSpaceDescriptor :=
  mkColorSpaceDescriptor "collinear"%string
    (Chr 1 0) (Chr 0 1) (Chr 0 0) (Chr 0.5 0.5) 1 0.

(** Primaries of the identity space with a white point whose x is 0 and
    whose y is not. *)
Definition white_on_y_axis : ColorSpaceDescriptor :=
  mkColorSpaceDescriptor "y_axis"%string
    (Chr 1 0) (Chr 0 1) (Chr 0 0) (Chr 0 0.5) 1 0.

(** The sRGB primaries with transfer parameters on which [math.exp]
    overflows, and with ones on which it returns [0.0]. *)
Definition exp_overflow_descriptor : ColorSpaceDescriptor :=
  mkColorSpaceDescriptor "exp_overflow"%string (Chr 0.640 0.330)
    (Chr 0.300 0.600) (Chr 0.150 0.060) WP_D65 (-3) 1e-120.

Definition exp_underflow_descriptor : ColorSpaceDescriptor :=
  mkColorSpaceDescriptor "exp_underflow"%string (Chr 0.640 0.330)
    (Chr 0.300 0.600) (Chr 0.150 0.060) WP_D65 300 0.055.

(** ** What the specification says an inverse is *)

(** Cofactor expansion of the determinant along the first row. *)
Definition cofactor_det (s : M33f) : R :=
  m0 s * (m4 s * m8 s - m5 s * m7 s)
  - m1 s * (m3 s * m8 s - m5 s * m6 s)
  + m2 s * (m3 s * m7 s - m4 s * m6 s).

(** The adjugate: the transpose of the cofactor matrix. *)
Definition adjugate (s : M33f) : M33f :=
  mkM33f (m4 s * m8 s - m5 s * m7 s) (m2 s * m7 s - m1 s * m8 s) (m1 s * m5 s - m2 s * m4 s)
         (m5 s * m6 s - m3 s * m8 s) (m0 s * m8 s - m2 s * m6 s) (m2 s * m3 s - m0 s * m5 s)
         (m3 s * m7 s - m4 s * m6 s) (m1 s * m6 s - m0 s * m7 s) (m0 s * m4 s - m1 s * m3 s).

Definition scale (k : R) (s : M33f) : M33f :=
  mkM33f (k * m0 s) (k * m1 s) (k * m2 s)
         (k * m3 s) (k * m4 s) (k * m5 s)
         (k * m6 s) (k * m7 s) (k * m8 s).

Definition closed_form_inverse (s : M33f) : M33f :=
  scale (/ cofactor_det s) (adjugate s).

(** ** The rest of the engine *)

(** [ColorSpace.get_rgb_to_rgb_matrix]. *)
Definition get_rgb_to_rgb_matrix (self dst : ColorSpace) : result M33f :=
  inv <- get_xyz_to_rgb_matrix dst ;;
  Ok (multiply inv (rgb_to_xyz self)).

(** [ColorSpace.__eq__].  The other operand is any Python object;
    [None] stands for one that is not a [ColorSpace]. *)
Definition ColorSpace_eq (self : ColorSpace) (other : option ColorSpace) : bool :=
  match other with
  | None => false
  | Some o =>
      String.eqb (name (descriptor self)) (name (descriptor o))
      && (if Req_dec_T (gamma (descriptor self)) (gamma (descriptor o))
          then true else false)
      && (if Req_dec_T (linear_bias (descriptor self)) (linear_bias (descriptor o))
          then true else false)
  end.

(** [transform_colors]: the list comprehension, left to right. *)
Fixpoint transform_colors (dst src : ColorSpace) (rgb_list : list RGB)
  : result (list RGB) :=
  match rgb_list with
  | [] => Ok []
  | rgb :: rest =>
      c <- transform_color dst src rgb ;;
      cs <- transform_colors dst src rest ;;
      Ok (c :: cs)
  end.

(** The module-level function [rgb_to_xyz(cs, rgb)]; the plain name is
    taken by the attribute of [ColorSpace]. *)
Definition rgb_to_xyz_of (cs : ColorSpace) (rgb : RGB) : result XYZ :=
  lr <- to_linear cs (r rgb) ;;
  lg <- to_linear cs (g rgb) ;;
  lb <- to_linear cs (b rgb) ;;
  let matrix := get_rgb_to_xyz_matrix cs in
  Ok (mkXYZ (m0 matrix * lr + m1 matrix * lg + m2 matrix * lb)
            (m3 matrix * lr + m4 matrix * lg + m5 matrix * lb)
            (m6 matrix * lr + m7 matrix * lg + m8 matrix * lb)).

(** [xyz_to_rgb]. *)
Definition xyz_to_rgb (cs : ColorSpace) (xyz : XYZ) : result RGB :=
  matrix <- get_xyz_to_rgb_matrix cs ;;
  let linear_r := m0 matrix * X_x xyz + m1 matrix * X_y xyz + m2 matrix * X_z xyz in
  let linear_g := m3 matrix * X_x xyz + m4 matrix * X_y xyz + m5 matrix * X_z xyz in
  let linear_b := m6 matrix * X_x xyz + m7 matrix * X_y xyz + m8 matrix * X_z xyz in
  er <- from_linear cs linear_r ;;
  eg <- from_linear cs linear_g ;;
  eb <- from_linear cs linear_b ;;
  Ok (mkRGB er eg eb).

(** [yxy_to_rgb]. *)
Definition yxy_to_rgb (cs : ColorSpace) (yxy : Yxy) : result RGB :=
  xyz <- yxy_to_xyz yxy ;;
  xyz_to_rgb cs xyz.

(** The state [init_color_space_library] leaves, and a lookup in it. *)
Definition initialised (s0 : State) : State :=
  snd (init_color_space_library s0).

Definition registered (s : State) (nm : string) (cs : ColorSpace) : Prop :=
  fst (get_named_color_space nm s) = Ok (Some cs).

(** The number [_initialize] takes the logarithm of, and the power
    [exp (log q * gamma)] it then divides the bias by. *)
Definition log_argument (ga a : R) : R := ga * a / (ga + ga * a - 1 - a).

Definition transfer_power (ga a : R) : R := Rpower (log_argument ga a) ga.

(** The transfer parameters on which [_initialize] takes the logarithm
    of a number that is not positive. *)
Definition transfer_undefined (ga a : R) : Prop := 0 < a /\ 0 <= ga < 1.

(** Those on which the logarithm is taken of a positive number. *)
Definition log_defined (ga a : R) : Prop := 0 < a /\ (ga < 0 \/ 1 < ga).

(** Those on which [math.exp] overflows, and those on which it returns
    [0.0], which the bias is then divided by. *)
Definition transfer_overflows (ga a : R) : Prop :=
  log_defined ga a
  /\ is_finite (ln (log_argument ga a) * ga)
  /\ float_max < transfer_power ga a.

Definition transfer_underflows (ga a : R) : Prop :=
  log_defined ga a /\ transfer_power ga a <= float_tiny.

Definition transfer_computes (ga a : R) : Prop :=
  ~ transfer_undefined ga a
  /\ ~ transfer_overflows ga a
  /\ ~ transfer_underflows ga a.

(** The three channels through [to_linear] and through [from_linear],
    in the order the source evaluates them. *)
Definition decode (cs : ColorSpace) (c : RGB) : result RGB :=
  lr <- to_linear cs (r c) ;;
  lg <- to_linear cs (g c) ;;
  lb <- to_linear cs (b c) ;;
  Ok (mkRGB lr lg lb).

Definition encode (cs : ColorSpace) (c : RGB) : result RGB :=
  er <- from_linear cs (r c) ;;
  eg <- from_linear cs (g c) ;;
  eb <- from_linear cs (b c) ;;
  Ok (mkRGB er eg eb).

Definition XYZ_of_RGB (c : RGB) : XYZ := mkXYZ (r c) (g c) (b c).
Definition RGB_of_XYZ (v : XYZ) : RGB := mkRGB (X_x v) (X_y v) (X_z v).

(** A color space as the registry holds them: coherent transfer
    coefficients and a matrix that [invert] accepts. *)
Definition well_formed (cs : ColorSpace) : Prop :=
  transfer_wf cs
  /\ (k0 cs = 0 -> linear_bias (descriptor cs) = 0)
  /\ ~ Rabs (det (rgb_to_xyz cs)) < 1e-10.

(** ** colorchips.py *)

Record ColorChip : Type := mkColorChip {
  chip_name : string;
  chip_rgb : RGB;
  chip_description : string
}.

Record ColorChipSet : Type := mkColorChipSet {
  set_name : string;
  color_space : string;
  chips : list ColorChip
}.

(** The chips whose colors have no component above 1e100. *)
Definition chips_bounded (l : list ColorChip) : Prop :=
  Forall (fun chip => RGB_bounded (chip_rgb chip)) l.

(** What the callers of the engine raise: the [ValueError] of a missing
    color space, or whatever the engine raised. *)
Inductive chip_exn : Type :=
| ColorSpaceNotFound
| EngineError (e : exn).

Inductive outcome (A : Type) : Type :=
| Done (a : A)
| Failed (e : chip_exn).
Arguments Done {A} a.
Arguments Failed {A} e.

(** The loop of [ColorChipSet.transform_to]. *)
Fixpoint transform_chips (dst src : ColorSpace) (l : list ColorChip)
  : result (list ColorChip) :=
  match l with
  | [] => Ok []
  | chip :: rest =>
      transformed_rgb <- transform_color dst src (chip_rgb chip) ;;
      transformed <- transform_chips dst src rest ;;
      Ok (mkColorChip (chip_name chip) transformed_rgb (chip_description chip)
          :: transformed)
  end.

(** [ColorChipSet.transform_to].  A [ColorSpace] object is truthy, so
    [not src_space] holds exactly for [None]. *)
Definition transform_to (self : ColorChipSet) (target_space_name : string)
  : State -> outcome ColorChipSet * State :=
  fun s =>
    match get_named_color_space (color_space self) s with
    | (Raise e, s1) => (Failed (EngineError e), s1)
    | (Ok src_space, s1) =>
        match get_named_color_space target_space_name s1 with
        | (Raise e, s2) => (Failed (EngineError e), s2)
        | (Ok dst_space, s2) =>
            match src_space, dst_space with
            | Some src, Some dst =>
                match transform_chips dst src (chips self) with
                | Ok transformed_chips =>
                    (Done (mkColorChipSet (set_name self) target_space_name
                             transformed_chips), s2)
                | Raise e => (Failed (EngineError e), s2)
                end
            | _, _ => (Failed ColorSpaceNotFound, s2)
            end
        end
    end.

(** Python's [int(x)] on a float: truncation toward zero. *)
Definition py_int (x : R) : Z :=
  if Rle_dec 0 x then Int_part x else (- Int_part (- x))%Z.

(** Python's [str(n)] on an int. *)
Definition py_str (n : Z) : string := NilZero.string_of_int (Z.to_int n).

(** [range(n)]. *)
Definition py_range (n : Z) : list Z :=
  map Z.of_nat (seq 0 (Z.to_nat n)).

(** One turn of the loop of [generate_blackbody_series]: the chips so
    far, extended or not. *)
Definition blackbody_step (start_temp end_temp : R) (steps : Z)
  (acc : list ColorChip) (i : Z) (s : State) : result (list ColorChip) :=
  q <- fdiv ((end_temp - start_temp) * IZR i) (IZR (steps - 1)) ;;
  let temp := start_temp + q in
  yxy <- kelvin_to_yxy temp 1 ;;
  xyz <- yxy_to_xyz yxy ;;
  lin_srgb <- fst (get_named_color_space "lin_srgb" s) ;;
  match lin_srgb with
  | Some cs =>
      rgb <- xyz_to_rgb cs xyz ;;
      Ok (acc ++ [mkColorChip
                    ("blackbody_" ++ py_str (py_int temp) ++ "K")
                    rgb
                    ("Blackbody at " ++ py_str (py_int temp) ++ "K")])
  | None => Ok acc
  end.

Fixpoint blackbody_loop (start_temp end_temp : R) (steps : Z)
  (acc : list ColorChip) (indices : list Z) (s : State)
  : result (list ColorChip) :=
  match indices with
  | [] => Ok acc
  | i :: rest =>
      acc' <- blackbody_step start_temp end_temp steps acc i s ;;
      blackbody_loop start_temp end_temp steps acc' rest s
  end.

(** [generate_blackbody_series].  It only reads the registry, through
    [get_named_color_space]. *)
Definition generate_blackbody_series (start_temp end_temp : R) (steps : Z)
  : State -> outcome ColorChipSet * State :=
  fun s =>
    match blackbody_loop start_temp end_temp steps [] (py_range steps) s with
    | Ok l =>
        (Done (mkColorChipSet "Blackbody Temperature Series" "lin_srgb" l), s)
    | Raise e => (Failed (EngineError e), s)
    end.

(** The temperature of step [i] of [generate_blackbody_series] and the
    name its chip gets. *)
Definition blackbody_temp (start_temp end_temp : R) (steps i : Z) : R :=
  start_temp + (end_temp - start_temp) * IZR i / IZR (steps - 1).

Definition blackbody_name (temp : R) : string :=
  ("blackbody_" ++ py_str (py_int temp) ++ "K")%string.

(** ** usd-colorchecker.py *)

(** [USDColorChecker.COLORCHECKER_LAYOUT]. *)
Definition COLORCHECKER_LAYOUT : list (list string) :=
  [ ["dark_skin"; "light_skin"; "blue_sky"; "foliage"; "blue_flower"; "bluish_green"];
    ["orange"; "purplish_blue"; "moderate_red"; "purple"; "yellow_green"; "orange_yellow"];
    ["blue"; "green"; "red"; "yellow"; "magenta"; "cyan"];
    ["white"; "neutral_8"; "neutral_65"; "neutral_5"; "neutral_35"; "black"]
  ]%string.

(** The inner loop of [_find_chip_position], over one row from column
    [col_idx] on. *)
Fixpoint find_in_row (row : list string) (col_idx : nat) (chip_name : string)
  : option nat :=
  match row with
  | [] => None
  | name :: rest =>
      if String.eqb name chip_name then Some col_idx
      else find_in_row rest (S col_idx) chip_name
  end.

(** The outer loop, over the rows from [row_idx] on. *)
Fixpoint find_in_rows (rows : list (list string)) (row_idx : nat)
  (chip_name : string) : option (nat * nat) :=
  match rows with
  | [] => None
  | row :: rest =>
      match find_in_row row 0 chip_name with
      | Some col_idx => Some (row_idx, col_idx)
      | None => find_in_rows rest (S row_idx) chip_name
      end
  end.

(** [USDColorChecker._find_chip_position]. *)
Definition _find_chip_position (chip_name : string) : nat * nat :=
  match find_in_rows COLORCHECKER_LAYOUT 0 chip_name with
  | Some p => p
  | None => (0%nat, 0%nat)
  end.

(** The cell of the layout at a row and a column. *)
Definition layout_cell (row col : nat) : string :=
  nth col (nth row COLORCHECKER_LAYOUT []) ""%string.

(** [str.replace(c, "")] for a one-character [c]. *)
Fixpoint remove_char (c : ascii) (s : string) : string :=
  match s with
  | EmptyString => EmptyString
  | String a rest =>
      if Ascii.eqb a c then remove_char c rest
      else String a (remove_char c rest)
  end.

(** [str.lower()] on a string of ASCII characters. *)
Definition lower_char (a : ascii) : ascii :=
  let n := nat_of_ascii a in
  if (65 <=? n)%nat && (n <=? 90)%nat then ascii_of_nat (n + 32) else a.

Fixpoint lower (s : string) : string :=
  match s with
  | EmptyString => EmptyString
  | String a rest => String (lower_char a) (lower rest)
  end.

(** [clean_color_space_name]. *)
Definition clean_color_space_name (color_space : string) : string :=
  lower (remove_char "." (remove_char "-" (remove_char "_" color_space))).

Fixpoint chars (s : string) : list ascii :=
  match s with
  | EmptyString => []
  | String a rest => a :: chars rest
  end.

Definition is_upper (a : ascii) : bool :=
  (65 <=? nat_of_ascii a)%nat && (nat_of_ascii a <=? 90)%nat.

(** The dict literal [acescg_chips] of [_get_color_chips]. *)
Definition acescg_chips : list (string * RGB) :=
  [ ("dark_skin", mkRGB 0.4325 0.3127 0.2411);
    ("light_skin", mkRGB 0.7787 0.5925 0.4733);
    ("blue_sky", mkRGB 0.3570 0.4035 0.5733);
    ("foliage", mkRGB 0.3369 0.4219 0.2797);
    ("blue_flower", mkRGB 0.5479 0.5434 0.8156);
    ("bluish_green", mkRGB 0.4708 0.7749 0.6411);
    ("orange", mkRGB 0.9309 0.4471 0.1330);
    ("purplish_blue", mkRGB 0.2906 0.3299 0.6549);
    ("moderate_red", mkRGB 0.7285 0.3447 0.4019);
    ("purple", mkRGB 0.3174 0.2210 0.3394);
    ("yellow_green", mkRGB 0.6157 0.8067 0.2482);
    ("orange_yellow", mkRGB 0.9847 0.7369 0.1090);
    ("blue", mkRGB 0.2131 0.2373 0.6580);
    ("green", mkRGB 0.2744 0.5175 0.2297);
    ("red", mkRGB 0.6910 0.1926 0.1395);
    ("yellow", mkRGB 0.9892 0.9011 0.1060);
    ("magenta", mkRGB 0.7380 0.3039 0.6192);
    ("cyan", mkRGB 0.1864 0.6377 0.7554);
    ("white", mkRGB 0.9131 0.9131 0.9131);
    ("neutral_8", mkRGB 0.5894 0.5894 0.5894);
    ("neutral_65", mkRGB 0.3668 0.3668 0.3668);
    ("neutral_5", mkRGB 0.1903 0.1903 0.1903);
    ("neutral_35", mkRGB 0.0898 0.0898 0.0898);
    ("black", mkRGB 0.0313 0.0313 0.0313) ]%string.

(** The loop of [_get_color_chips] filling [transformed_chips]. *)
Fixpoint transform_dict (target_space acescg_space : ColorSpace)
  (items : list (string * RGB)) (transformed_chips : list (string * RGB))
  : result (list (string * RGB)) :=
  match items with
  | [] => Ok transformed_chips
  | (nm, rgb) :: rest =>
      transformed_rgb <- transform_color target_space acescg_space rgb ;;
      transform_dict target_space acescg_space rest
        (dict_set transformed_chips nm transformed_rgb)
  end.

(** [USDColorChecker._get_color_chips], with [self.color_space] as its
    argument. *)
Definition _get_color_chips (color_space : string)
  : State -> outcome (list (string * RGB)) * State :=
  fun s =>
    match init_color_space_library s with
    | (Raise e, s1) => (Failed (EngineError e), s1)
    | (Ok _, s1) =>
        if String.eqb color_space "acescg" then (Done acescg_chips, s1)
        else
          match get_named_color_space "acescg" s1 with
          | (Raise e, s2) => (Failed (EngineError e), s2)
          | (Ok acescg_space, s2) =>
              match get_named_color_space color_space s2 with
              | (Raise e, s3) => (Failed (EngineError e), s3)
              | (Ok target_space, s3) =>
                  match acescg_space, target_space with
                  | Some a, Some t =>
                      match transform_dict t a acescg_chips [] with
                      | Ok d => (Done d, s3)
                      | Raise e => (Failed (EngineError e), s3)
                      end
                  | _, _ => (Failed ColorSpaceNotFound, s3)
                  end
              end
          end
    end.

(** The table's entry for the linear sRGB space. *)
Definition lin_srgb_descriptor : ColorSpaceDescriptor :=
  mkColorSpaceDescriptor "lin_srgb"%string (Chr 0.640 0.330) (Chr 0.300 0.600)
    (Chr 0.150 0.060) WP_D65 1.0 0.0.

(** A chip set of one white chip in linear sRGB. *)
Definition one_white_chip : ColorChipSet :=
  mkColorChipSet "one chip" "lin_srgb"
    [mkColorChip "white" (mkRGB 1 1 1) "100% white"].

(** * Properties *)

(** Decimal literals are [Q2R] of a fraction; [field] wants them as
    quotients of integers. *)
Ltac rfield := unfold Q2R; cbn [QArith_base.Qnum QArith_base.Qden]; field.

(** ** The result monad *)

Lemma fdiv_ok (a c : R) : c <> 0 -> fdiv a c = Ok (a / c).
Proof.
  intros Hc. unfold fdiv. destruct (Req_dec_T c 0) as [E | _]; [contradiction | reflexivity].
Qed.

Lemma fdiv_zero (a : R) : fdiv a 0 = Raise ZeroDivisionError.
Proof.
  unfold fdiv. destruct (Req_dec_T 0 0) as [_ | N]; [reflexivity | now elim N].
Qed.

(** ** The range of the floats *)

Lemma float_max_large : 1e300 <= float_max.
Proof.
  unfold float_max.
  let v := eval vm_compute in (2 ^ 1024 - 2 ^ 971)%Z in
    change (2 ^ 1024 - 2 ^ 971)%Z with v.
  lra.
Qed.

Lemma float_tiny_small : 0 < float_tiny <= 1e-300.
Proof.
  unfold float_tiny.
  let v := eval vm_compute in (2 ^ 1075)%Z in change (2 ^ 1075)%Z with v.
  lra.
Qed.

Lemma is_finite_between (x : R) : - 1e300 <= x <= 1e300 -> is_finite x.
Proof.
  intros H. unfold is_finite. pose proof float_max_large.
  apply Rabs_le. lra.
Qed.

Lemma exp_le (x y : R) : x <= y -> exp x <= exp y.
Proof.
  intros [H | ->]; [left; now apply exp_increasing | right; reflexivity].
Qed.

Lemma Rpower_pos (x y : R) : 0 < Rpower x y.
Proof. unfold Rpower. apply exp_pos. Qed.

Lemma Rpower_cube (x : R) : 0 < x -> Rpower x 3 = x * x * x.
Proof.
  intros Hx. replace 3 with (INR 3) by (simpl; lra).
  rewrite Rpower_pow by exact Hx. simpl. ring.
Qed.

(** A power of a number at most 1 with a non-negative exponent is at
    most 1, and decreases as the exponent grows. *)
Lemma Rpower_small_base (x y z : R) :
  0 < x <= 1 -> 0 <= y <= z -> Rpower x z <= Rpower x y <= 1.
Proof.
  intros [Hx Hx1] [Hy Hz].
  assert (Hl : ln x <= 0).
  { destruct Hx1 as [Hx1 | ->]; [| rewrite ln_1; lra].
    rewrite <- ln_1. left. now apply ln_increasing. }
  unfold Rpower. split.
  - apply exp_le. nra.
  - rewrite <- exp_0. apply exp_le. nra.
Qed.

Lemma Rpower_large_base (x y z : R) :
  1 <= x -> 0 <= y <= z -> 1 <= Rpower x y <= Rpower x z.
Proof.
  intros Hx [Hy Hz].
  assert (Hl : 0 <= ln x).
  { destruct Hx as [Hx | <-]; [| rewrite ln_1; lra].
    rewrite <- ln_1. left. apply ln_increasing; lra. }
  unfold Rpower. split.
  - rewrite <- exp_0. apply exp_le. nra.
  - apply exp_le. nra.
Qed.

(** With an exponent between 0 and 3, a power lies between 1 and the
    cube of its base. *)
Lemma Rpower_cube_bounds (x y : R) :
  0 < x -> 0 <= y <= 3 ->
  Rmin 1 (x * x * x) <= Rpower x y <= Rmax 1 (x * x * x).
Proof.
  intros Hx Hy. rewrite <- (Rpower_cube x Hx).
  destruct (Rle_dec x 1) as [H1 | H1].
  - destruct (Rpower_small_base x y 3) as [Ha Hb]; [lra | lra |].
    rewrite Rmin_right by lra. rewrite Rmax_left by lra. lra.
  - destruct (Rpower_large_base x y 3) as [Ha Hb]; [lra | lra |].
    rewrite Rmin_left by lra. rewrite Rmax_right by lra. lra.
Qed.

Lemma Rpower_finite (x y : R) :
  0 < x <= 1e100 -> 0 <= y <= 3 -> is_finite (Rpower x y).
Proof.
  intros [Hx Hb] Hy. apply is_finite_between.
  pose proof (Rpower_pos x y) as Hp.
  destruct (Rpower_cube_bounds x y Hx Hy) as [_ Hu].
  split; [lra |]. eapply Rle_trans; [exact Hu |].
  apply Rmax_lub; [lra |].
  assert (x * x <= 1e100 * 1e100) by (apply Rmult_le_compat; lra).
  assert (x * x * x <= 1e100 * 1e100 * 1e100) by (apply Rmult_le_compat; nra).
  lra.
Qed.

(** A root: with an exponent between 0 and 1, a power is at most the
    larger of 1 and its base. *)
Lemma Rpower_root_bound (x y : R) :
  0 < x -> 0 <= y <= 1 -> Rpower x y <= Rmax 1 x.
Proof.
  intros Hx Hy. destruct (Rle_dec x 1) as [H1 | H1].
  - destruct (Rpower_small_base x y y) as [_ Hb]; [lra | lra |].
    rewrite Rmax_left by lra. exact Hb.
  - destruct (Rpower_large_base x y 1) as [_ Hb]; [lra | lra |].
    rewrite Rpower_1 in Hb by exact Hx. rewrite Rmax_right by lra. exact Hb.
Qed.

Lemma Rpower_root_finite (x y : R) :
  0 < x -> is_finite x -> 0 <= y <= 1 -> is_finite (Rpower x y).
Proof.
  intros Hx Hf Hy. unfold is_finite in *.
  pose proof (Rpower_pos x y) as Hp. pose proof float_max_large.
  rewrite Rabs_pos_eq in * by lra.
  eapply Rle_trans; [apply (Rpower_root_bound x y Hx Hy) |].
  apply Rmax_lub; lra.
Qed.

(** ** The math library *)

Lemma pow_value_pos (x y : R) : 0 < x -> pow_value x y = Ok (Rpower x y).
Proof.
  intros Hx. unfold pow_value. destruct (Rlt_dec 0 x); [reflexivity | contradiction].
Qed.

Lemma math_pow_finite (x y : R) :
  0 < x -> is_finite (Rpower x y) -> math_pow x y = Ok (Rpower x y).
Proof.
  intros Hx Hf. unfold math_pow. rewrite (pow_value_pos x y Hx). cbn [bind].
  destruct (is_finite_dec x); [| reflexivity].
  destruct (is_finite_dec y); [| reflexivity].
  destruct (is_finite_dec (Rpower x y)); [reflexivity | contradiction].
Qed.

Lemma math_pow_overflow (x y : R) :
  0 < x -> is_finite x -> is_finite y -> ~ is_finite (Rpower x y) ->
  math_pow x y = Raise OverflowError.
Proof.
  intros Hx Fx Fy Hf. unfold math_pow. rewrite (pow_value_pos x y Hx). cbn [bind].
  destruct (is_finite_dec x); [| contradiction].
  destruct (is_finite_dec y); [| contradiction].
  destruct (is_finite_dec (Rpower x y)); [contradiction | reflexivity].
Qed.

(** On a positive base [math.pow] returns the power or overflows. *)
Lemma math_pow_pos_cases (x y : R) :
  0 < x ->
  math_pow x y = Ok (Rpower x y)
  \/ (math_pow x y = Raise OverflowError
      /\ is_finite x /\ is_finite y /\ ~ is_finite (Rpower x y)).
Proof.
  intros Hx. unfold math_pow. rewrite (pow_value_pos x y Hx). cbn [bind].
  destruct (is_finite_dec x); [| now left].
  destruct (is_finite_dec y); [| now left].
  destruct (is_finite_dec (Rpower x y)); [now left | now right].
Qed.

Lemma math_pow_bounded (x y : R) :
  0 < x <= 1e100 -> 0 <= y <= 3 -> math_pow x y = Ok (Rpower x y).
Proof.
  intros Hx Hy. apply math_pow_finite; [lra | now apply Rpower_finite].
Qed.

(** A root never overflows. *)
Lemma math_pow_root (x y : R) :
  0 < x -> 0 <= y <= 1 -> math_pow x y = Ok (Rpower x y).
Proof.
  intros Hx Hy. destruct (math_pow_pos_cases x y Hx) as [E | (_ & Fx & _ & Hn)];
    [exact E |].
  exfalso. apply Hn. now apply Rpower_root_finite.
Qed.

Lemma is_finite_0 : is_finite 0.
Proof. apply is_finite_between. lra. Qed.

Lemma math_pow_zero (y : R) : 0 < y -> math_pow 0 y = Ok 0.
Proof.
  intros Hy. unfold math_pow, pow_value.
  destruct (Rlt_dec 0 0); [lra |].
  destruct (Req_dec_T 0 0); [| contradiction].
  destruct (Rlt_dec y 0); [lra |].
  destruct (Req_dec_T y 0); [lra |]. cbn [bind].
  destruct (is_finite_dec 0); [| reflexivity].
  destruct (is_finite_dec y); [| reflexivity].
  destruct (is_finite_dec 0); [reflexivity |].
  exfalso. auto using is_finite_0.
Qed.

Lemma math_exp_in_range (x : R) :
  float_tiny < exp x <= float_max -> math_exp x = Ok (exp x).
Proof.
  intros [Hl Hu]. unfold math_exp.
  destruct (Rle_dec (exp x) float_tiny); [lra |].
  destruct (is_finite_dec x); [| reflexivity].
  destruct (is_finite_dec (exp x)) as [F | F]; [reflexivity |].
  exfalso. apply F. unfold is_finite.
  rewrite Rabs_pos_eq; [exact Hu | left; apply exp_pos].
Qed.

Lemma math_exp_underflow (x : R) : exp x <= float_tiny -> math_exp x = Ok 0.
Proof.
  intros H. unfold math_exp.
  destruct (Rle_dec (exp x) float_tiny); [reflexivity | contradiction].
Qed.

Lemma math_exp_overflow (x : R) :
  is_finite x -> float_max < exp x -> math_exp x = Raise OverflowError.
Proof.
  intros Fx H. unfold math_exp. pose proof float_tiny_small. pose proof float_max_large.
  destruct (Rle_dec (exp x) float_tiny); [lra |].
  destruct (is_finite_dec x); [| contradiction].
  destruct (is_finite_dec (exp x)) as [F | F]; [| reflexivity].
  exfalso. unfold is_finite in F. rewrite Rabs_pos_eq in F; [lra | left; apply exp_pos].
Qed.

Lemma math_log_pos (x : R) : 0 < x -> math_log x = Ok (ln x).
Proof.
  intros Hx. unfold math_log. destruct (Rlt_dec 0 x); [reflexivity | contradiction].
Qed.

(** ** Matrices *)

Lemma M33f_ext (a c : M33f) :
  m0 a = m0 c -> m1 a = m1 c -> m2 a = m2 c ->
  m3 a = m3 c -> m4 a = m4 c -> m5 a = m5 c ->
  m6 a = m6 c -> m7 a = m7 c -> m8 a = m8 c -> a = c.
Proof.
  destruct a, c; simpl; intros; subst; reflexivity.
Qed.

Lemma not_small_nonzero (x : R) : ~ Rabs x < 1e-10 -> x <> 0.
Proof.
  intros H E. apply H. rewrite E, Rabs_R0. lra.
Qed.

Lemma det_cofactor (s : M33f) : det s = cofactor_det s.
Proof. unfold det, cofactor_det. ring. Qed.

Lemma invert_ok (s : M33f) :
  ~ Rabs (det s) < 1e-10 -> invert s = Ok (adjugate_over_det s (1 / det s)).
Proof.
  intros H. unfold invert. destruct (Rlt_dec _ _) as [A | _]; [contradiction |].
  rewrite fdiv_ok by (now apply not_small_nonzero). reflexivity.
Qed.

Lemma invert_singular (s : M33f) :
  Rabs (det s) < 1e-10 -> invert s = Raise SingularMatrix.
Proof.
  intros H. unfold invert. destruct (Rlt_dec _ _) as [_ | A]; [reflexivity | contradiction].
Qed.

Lemma adjugate_over_det_closed_form (s : M33f) :
  det s <> 0 -> adjugate_over_det s (1 / det s) = closed_form_inverse s.
Proof.
  intros H. unfold closed_form_inverse. rewrite <- det_cofactor.
  apply M33f_ext; simpl; field; exact H.
Qed.

Lemma multiply_inverse_r (s : M33f) :
  det s <> 0 -> multiply s (adjugate_over_det s (1 / det s)) = M33f_identity.
Proof.
  intros H. apply M33f_ext; simpl; unfold det in *; field; exact H.
Qed.

Lemma multiply_inverse_l (s : M33f) :
  det s <> 0 -> multiply (adjugate_over_det s (1 / det s)) s = M33f_identity.
Proof.
  intros H. apply M33f_ext; simpl; unfold det in *; field; exact H.
Qed.

(** C6.  [M33f.invert] raises exactly when [|det| < 1e-10], and the only
    exception it raises is the singular-matrix one; the outcome is a
    function of the matrix alone; when it returns, the result is the
    adjugate divided by the determinant (the determinant the source
    computes being the cofactor expansion), which is a two-sided inverse
    for [multiply]. *)
Theorem invert_fails_iff_small_det (s : M33f) :
  (invert s = Raise SingularMatrix <-> Rabs (det s) < 1e-10)
  /\ (forall e, invert s = Raise e -> e = SingularMatrix)
  /\ (forall s', s' = s -> invert s' = invert s)
  /\ det s = cofactor_det s
  /\ (forall inv, invert s = Ok inv ->
        ~ Rabs (det s) < 1e-10
        /\ inv = closed_form_inverse s
        /\ multiply s inv = M33f_identity
        /\ multiply inv s = M33f_identity).
Proof.
  destruct (Rlt_dec (Rabs (det s)) 1e-10) as [Hs | Hb].
  - rewrite (invert_singular s Hs).
    split; [split; [intros _; exact Hs | reflexivity] |].
    split; [intros e E; now inversion E |].
    split; [intros s' ->; now apply invert_singular |].
    split; [apply det_cofactor | discriminate].
  - pose proof (not_small_nonzero _ Hb) as Hnz.
    rewrite (invert_ok s Hb).
    split; [split; [discriminate | contradiction] |].
    split; [discriminate |].
    split; [intros s' ->; now apply invert_ok |].
    split; [apply det_cofactor |].
    intros inv E. injection E as <-.
    repeat split.
    + exact Hb.
    + now apply adjugate_over_det_closed_form.
    + now apply multiply_inverse_r.
    + now apply multiply_inverse_l.
Qed.

(** ** XYZ and Yxy *)

Lemma Rabs_self_le (x eps : R) : 0 <= eps -> Rabs (x - x) <= eps.
Proof.
  intros H. replace (x - x) with 0 by ring. now rewrite Rabs_R0.
Qed.

Lemma XYZ_close_refl (eps : R) (u : XYZ) : 0 <= eps -> XYZ_close eps u u.
Proof.
  intros H. repeat split; now apply Rabs_self_le.
Qed.

Lemma yxy_round_trip_exact (xyz : XYZ) :
  X_x xyz + X_y xyz + X_z xyz <> 0 ->
  X_y xyz <> 0 ->
  yxy_round_trip xyz = Ok xyz.
Proof.
  destruct xyz as [x y z]; simpl. intros Hs Hy.
  unfold yxy_round_trip, xyz_to_yxy; simpl.
  destruct (Req_dec_T (x + y + z) 0) as [E | _]; [contradiction |].
  rewrite !fdiv_ok by assumption. simpl.
  unfold yxy_to_xyz; simpl.
  assert (Hq : y / (x + y + z) <> 0).
  { intros E. apply Hy. apply (Rmult_eq_reg_r (/ (x + y + z))).
    - unfold Rdiv in E. rewrite E. ring.
    - now apply Rinv_neq_0_compat. }
  destruct (Req_dec_T (y / (x + y + z)) 0) as [E | _]; [contradiction |].
  rewrite !fdiv_ok by assumption. simpl.
  f_equal. f_equal; field; split; assumption.
Qed.

Lemma yxy_round_trip_zero_luminance (xyz : XYZ) :
  X_y xyz = 0 -> yxy_round_trip xyz = Ok (mkXYZ 0 0 0).
Proof.
  destruct xyz as [x y z]; simpl. intros ->.
  unfold yxy_round_trip, xyz_to_yxy; simpl.
  destruct (Req_dec_T (x + 0 + z) 0) as [E | N].
  - simpl. unfold yxy_to_xyz; simpl.
    destruct (Req_dec_T 0 0) as [_ | A]; [reflexivity | now elim A].
  - rewrite !fdiv_ok by assumption. simpl. unfold yxy_to_xyz; simpl.
    destruct (Req_dec_T (0 / (x + 0 + z)) 0) as [_ | A]; [reflexivity |].
    elim A. unfold Rdiv. ring.
Qed.

(** C3, as stated, fails: XYZ (1, 0, 0) has coordinate sum 1, yet the
    round trip returns (0, 0, 0), which is 1 away from the input in the
    first coordinate. *)
Lemma yxy_round_trip_loses_zero_luminance :
  X_x (mkXYZ 1 0 0) + X_y (mkXYZ 1 0 0) + X_z (mkXYZ 1 0 0) <> 0
  /\ yxy_round_trip (mkXYZ 1 0 0) = Ok (mkXYZ 0 0 0)
  /\ ~ XYZ_close (1 / 2) (mkXYZ 0 0 0) (mkXYZ 1 0 0).
Proof.
  split; [simpl; lra |].
  split; [now apply yxy_round_trip_zero_luminance |].
  intros [H _]. simpl in H.
  replace (0 - 1) with (- (1)) in H by ring.
  rewrite Rabs_Ropp, Rabs_R1 in H. lra.
Qed.

(** C3, amended.  For every XYZ whose coordinate sum is non-zero and
    whose Y is non-zero, the round trip returns, and its result is
    within every tolerance of the input. *)
Theorem yxy_round_trip_nonzero_luminance (xyz : XYZ) :
  X_x xyz + X_y xyz + X_z xyz <> 0 ->
  X_y xyz <> 0 ->
  exists out,
    yxy_round_trip xyz = Ok out
    /\ forall eps, 0 <= eps -> XYZ_close eps out xyz.
Proof.
  intros Hs Hy. exists xyz. split.
  - now apply yxy_round_trip_exact.
  - intros eps He. now apply XYZ_close_refl.
Qed.

Lemma yxy_round_trip_nonzero_luminance_witness :
  exists out,
    yxy_round_trip (mkXYZ 0.2 0.5 0.3) = Ok out
    /\ forall eps, 0 <= eps -> XYZ_close eps out (mkXYZ 0.2 0.5 0.3).
Proof.
  apply (yxy_round_trip_nonzero_luminance (mkXYZ 0.2 0.5 0.3)); simpl; lra.
Defined.

(** ** The blackbody locus *)

Lemma clamp_Rmax_Rmin (t : R) : Rmax 1000 (Rmin 15000 t) = clamp 1000 15000 t.
Proof.
  unfold clamp, Rmax, Rmin.
  destruct (Rlt_dec t 1000), (Rlt_dec 15000 t), (Rle_dec 15000 t);
    try destruct (Rle_dec 1000 t); try destruct (Rle_dec 1000 15000); lra.
Qed.

Lemma clamp_range (t : R) : 1000 <= clamp 1000 15000 t <= 15000.
Proof.
  unfold clamp. destruct (Rlt_dec t 1000), (Rlt_dec 15000 t); lra.
Qed.

Lemma clamp_idem (t : R) :
  clamp 1000 15000 (clamp 1000 15000 t) = clamp 1000 15000 t.
Proof.
  unfold clamp at 1. pose proof (clamp_range t) as [Hl Hh].
  destruct (Rlt_dec _ 1000); [lra |]. destruct (Rlt_dec 15000 _); [lra |].
  reflexivity.
Qed.

Lemma clamp_below (t c : R) :
  1000 < c <= 15000 -> (clamp 1000 15000 t < c <-> t < c).
Proof.
  intros Hc. unfold clamp.
  destruct (Rlt_dec t 1000), (Rlt_dec 15000 t); lra.
Qed.

Lemma kelvin_to_yxy_clamped (T L : R) :
  kelvin_to_yxy T L =
  Ok (mkYxy L (locus_x (clamp 1000 15000 T))
            (locus_y (clamp 1000 15000 T) (locus_x (clamp 1000 15000 T)))).
Proof.
  unfold kelvin_to_yxy. rewrite clamp_Rmax_Rmin.
  pose proof (clamp_range T) as [Hl Hh].
  set (temp := clamp 1000 15000 T) in *.
  assert (H1 : temp <> 0) by lra.
  assert (H2 : temp * temp <> 0) by nra.
  assert (H3 : temp * temp * temp <> 0) by nra.
  unfold locus_x, locus_y.
  destruct (Rlt_dec temp 4000) as [A | A]; rewrite !fdiv_ok by assumption; simpl.
  - f_equal. f_equal.
    + unfold cubic. rfield. exact H1.
    + destruct (Rlt_dec temp 2222); unfold cubic; rfield; exact H1.
  - f_equal. f_equal.
    + unfold cubic. rfield. exact H1.
    + destruct (Rlt_dec temp 2222); [lra |].
      unfold cubic; rfield; exact H1.
Qed.

(** C7.  [kelvin_to_yxy] returns for every temperature and luminosity;
    the result is that of the temperature clamped to [1000, 15000]; its
    Y is the luminosity, its x is one of two cubics in [1000 / T]
    chosen by [T < 4000], and its y is one of three cubics in x chosen
    by [T < 2222], [T < 4000] or neither; the choices are the same
    whether read on the clamped temperature or on [T] itself. *)
Theorem kelvin_to_yxy_total (T L : R) :
  let temp := clamp 1000 15000 T in
  kelvin_to_yxy T L = Ok (mkYxy L (locus_x temp) (locus_y temp (locus_x temp)))
  /\ kelvin_to_yxy T L = kelvin_to_yxy temp L
  /\ 1000 <= temp <= 15000
  /\ (temp < 4000 <-> T < 4000)
  /\ (temp < 2222 <-> T < 2222).
Proof.
  intros temp. subst temp.
  split; [apply kelvin_to_yxy_clamped |].
  split; [rewrite (kelvin_to_yxy_clamped (clamp 1000 15000 T) L), clamp_idem;
          apply kelvin_to_yxy_clamped |].
  split; [apply clamp_range |].
  split; apply clamp_below; lra.
Qed.

(** ** Matching a linear color space *)

Lemma chromaticity_close_within (c1 c2 : Chromaticity) (eps : R) :
  chromaticity_close c1 c2 eps = true <-> within eps c1 c2.
Proof.
  unfold chromaticity_close, within.
  destruct (Rlt_dec (Rabs (cx c1 - cx c2)) eps),
           (Rlt_dec (Rabs (cy c1 - cy c2)) eps); simpl;
    split; intros H; try discriminate; try tauto.
Qed.

Lemma descriptor_matches_within (d : ColorSpaceDescriptor)
  (red green blue white : Chromaticity) (eps : R) :
  descriptor_matches d red green blue white eps = true <->
  within eps (red_primary d) red
  /\ within eps (green_primary d) green
  /\ within eps (blue_primary d) blue
  /\ within eps (white_point d) white.
Proof.
  unfold descriptor_matches. rewrite !andb_true_iff, !chromaticity_close_within.
  tauto.
Qed.

Section Scan.
Variables red green blue white : Chromaticity.
Variable eps : R.

Let candidate (d : ColorSpaceDescriptor) : Prop :=
  linear_candidate d red green blue white eps.

Lemma scan_step_hit (nm : string) (d : ColorSpaceDescriptor)
  (rest : list (string * ColorSpaceDescriptor)) :
  candidate d -> match_scan ((nm, d) :: rest) red green blue white eps = Some nm.
Proof.
  intros [Hg Hw]. simpl.
  destruct (Req_dec_T (gamma d) 1) as [_ | N]; [| contradiction].
  apply descriptor_matches_within in Hw. now rewrite Hw.
Qed.

Lemma scan_step_miss (nm : string) (d : ColorSpaceDescriptor)
  (rest : list (string * ColorSpaceDescriptor)) :
  ~ candidate d ->
  match_scan ((nm, d) :: rest) red green blue white eps =
  match_scan rest red green blue white eps.
Proof.
  intros Hn. simpl.
  destruct (Req_dec_T (gamma d) 1) as [Hg | _]; [| reflexivity].
  destruct (descriptor_matches d red green blue white eps) eqn:E; [| reflexivity].
  elim Hn. split; [exact Hg | now apply descriptor_matches_within].
Qed.

Lemma candidate_dec (d : ColorSpaceDescriptor) : candidate d \/ ~ candidate d.
Proof.
  unfold candidate, linear_candidate.
  destruct (Req_dec_T (gamma d) 1) as [Hg | Hg]; [| right; tauto].
  destruct (descriptor_matches d red green blue white eps) eqn:E.
  - left. split; [exact Hg | now apply descriptor_matches_within].
  - right. intros [_ H]. apply descriptor_matches_within in H. congruence.
Qed.

Lemma scan_some (items : list (string * ColorSpaceDescriptor)) (nm : string) :
  match_scan items red green blue white eps = Some nm <->
  exists before d after,
    items = before ++ (nm, d) :: after
    /\ candidate d
    /\ forall e, In e before -> ~ candidate (snd e).
Proof.
  induction items as [| [k d] rest IH].
  - simpl. split; [discriminate |].
    intros (before & d & after & E & _). now destruct before.
  - destruct (candidate_dec d) as [Hc | Hn].
    + rewrite (scan_step_hit k d rest Hc). split.
      * intros E. injection E as ->.
        exists [], d, rest.
        split; [reflexivity |]. split; [exact Hc | intros e []].
      * intros (before & d' & after & E & Hc' & Hb).
        destruct before as [| e before]; simpl in E.
        -- injection E as E1 _ _. now rewrite E1.
        -- injection E as E1 _. elim (Hb e); [now left | now rewrite <- E1].
    + rewrite (scan_step_miss k d rest Hn), IH. split.
      * intros (before & d' & after & -> & Hc' & Hb).
        exists ((k, d) :: before), d', after.
        split; [reflexivity |]. split; [exact Hc' |].
        intros e [<- | He]; [exact Hn | now apply Hb].
      * intros (before & d' & after & E & Hc' & Hb).
        destruct before as [| e before]; simpl in E.
        -- injection E as _ E2 _. rewrite <- E2 in Hc'. contradiction.
        -- injection E as _ E2. exists before, d', after. rewrite E2.
           split; [reflexivity |]. split; [exact Hc' |].
           intros e' He. apply Hb. now right.
Qed.

Lemma scan_none (items : list (string * ColorSpaceDescriptor)) :
  match_scan items red green blue white eps = None <->
  forall e, In e items -> ~ candidate (snd e).
Proof.
  induction items as [| [k d] rest IH].
  - simpl. split; [intros _ e [] | reflexivity].
  - destruct (candidate_dec d) as [Hc | Hn].
    + rewrite (scan_step_hit k d rest Hc). split; [discriminate |].
      intros H. elim (H (k, d)); [left; reflexivity | exact Hc].
    + rewrite (scan_step_miss k d rest Hn), IH. split.
      * intros H e [<- | He]; [exact Hn | now apply H].
      * intros H e He. apply H. now right.
Qed.
End Scan.

(** C8.  [match_linear_color_space] returns a name exactly when that
    name's entry is the first one, in the order of the table, that has
    gamma 1 and whose four chromaticities are each within [epsilon] of
    the supplied ones on both axes; it returns nothing exactly when the
    table has no such entry. *)
Theorem match_linear_color_space_first
  (red green blue white : Chromaticity) (epsilon : R) :
  (forall nm,
      match_linear_color_space red green blue white epsilon = Some nm <->
      exists before d after,
        COLOR_SPACES = before ++ (nm, d) :: after
        /\ linear_candidate d red green blue white epsilon
        /\ forall e, In e before ->
                     ~ linear_candidate (snd e) red green blue white epsilon)
  /\ (match_linear_color_space red green blue white epsilon = None <->
      forall e, In e COLOR_SPACES ->
                ~ linear_candidate (snd e) red green blue white epsilon).
Proof.
  split.
  - intros nm. apply scan_some.
  - apply scan_none.
Qed.

(** ** The registry *)

Lemma in_namespace_table {A : Type} (m : M A) (g : Globals) :
  g_COLOR_SPACES (snd (in_namespace m g)) = g_COLOR_SPACES g.
Proof.
  unfold in_namespace. destruct (m (g_registry g)) as [x s]. reflexivity.
Qed.

Lemma after_call_table (g : Globals) (c : call) :
  g_COLOR_SPACES (after_call g c) = g_COLOR_SPACES g.
Proof.
  destruct c; cbn [after_call];
    first [apply in_namespace_table | reflexivity].
Qed.

Lemma fold_after_call_table (calls : list call) (g : Globals) :
  g_COLOR_SPACES (fold_left after_call calls g) = g_COLOR_SPACES g.
Proof.
  revert g. induction calls as [| c calls IH]; intros g; cbn [fold_left].
  - reflexivity.
  - rewrite IH. apply after_call_table.
Qed.

(** The registry functions of the namespace, run on the literal table,
    are the ones over the registry alone. *)
Lemma module_init_at_literal (s : State) :
  module_init_color_space_library (mkGlobals COLOR_SPACES s)
  = (fst (init_color_space_library s),
     mkGlobals COLOR_SPACES (snd (init_color_space_library s))).
Proof.
  unfold module_init_color_space_library, in_namespace, init_color_space_library.
  cbn [g_COLOR_SPACES g_registry]. now destruct (mbind _ _ s).
Qed.

(** C10.  With the table and the registry both in the program state,
    the result of [match_linear_color_space] is the same for every
    content of the registry, and the call leaves both globals as they
    were.  No call on the module changes the table, so in every state
    reached from import, whatever calls were made, the table is the
    literal and the result is the scan of it. *)
Theorem match_linear_color_space_ignores_registry
  (red green blue white : Chromaticity) (epsilon : R) :
  (forall (table : list (string * ColorSpaceDescriptor)) (s1 s2 : State),
      fst (module_match_linear_color_space red green blue white epsilon
             (mkGlobals table s1))
      = fst (module_match_linear_color_space red green blue white epsilon
               (mkGlobals table s2)))
  /\ (forall g : Globals,
        snd (module_match_linear_color_space red green blue white epsilon g) = g)
  /\ (forall calls : list call,
        g_COLOR_SPACES (after_calls calls) = COLOR_SPACES
        /\ fst (module_match_linear_color_space red green blue white epsilon
                  (after_calls calls))
           = Ok (match_linear_color_space red green blue white epsilon)).
Proof.
  split; [| split].
  - intros table s1 s2. reflexivity.
  - intros g. reflexivity.
  - intros calls.
    assert (E : g_COLOR_SPACES (after_calls calls) = COLOR_SPACES)
      by apply fold_after_call_table.
    split; [exact E |].
    unfold module_match_linear_color_space, match_linear_color_space.
    cbn [fst]. now rewrite E.
Qed.

(** ** Construction of a color space *)

Lemma init_transfer_frame (self cs : ColorSpace) :
  init_transfer self = Ok cs ->
  descriptor cs = descriptor self /\ rgb_to_xyz cs = rgb_to_xyz self.
Proof.
  unfold init_transfer.
  destruct (Req_dec_T _ 1); [intros E; injection E as <-; now split |].
  destruct (Rle_dec _ 0); [intros E; injection E as <-; now split |].
  destruct (fdiv _ _); cbn [bind]; [| discriminate].
  destruct (fdiv _ _); cbn [bind]; [| discriminate].
  destruct (math_log _); cbn [bind]; [| discriminate].
  destruct (math_exp _); cbn [bind]; [| discriminate].
  destruct (fdiv _ _); cbn [bind]; [| discriminate].
  destruct (fdiv _ _); cbn [bind]; [| discriminate].
  intros E; injection E as <-; now split.
Qed.

Lemma init_matrix_skip (self : ColorSpace) :
  cx (white_point (descriptor self)) = 0 -> init_matrix self = Ok self.
Proof.
  intros H. unfold init_matrix.
  destruct (Req_dec_T _ 0); [reflexivity | contradiction].
Qed.

Lemma init_matrix_derive (self : ColorSpace) :
  cx (white_point (descriptor self)) <> 0 ->
  init_matrix self = derive_rgb_to_xyz self.
Proof.
  intros H. unfold init_matrix.
  destruct (Req_dec_T _ 0); [contradiction | reflexivity].
Qed.

Lemma derive_ok (self : ColorSpace) :
  cy (white_point (descriptor self)) <> 0 ->
  ~ Rabs (det (primaries_matrix (descriptor self))) < 1e-10 ->
  derive_rgb_to_xyz self =
  Ok (set_rgb_to_xyz self
        (scaled_primaries (primaries_matrix (descriptor self))
                          (white_point (descriptor self)))).
Proof.
  intros Hy Hd. unfold derive_rgb_to_xyz.
  rewrite !fdiv_ok by assumption. simpl.
  rewrite (invert_ok _ Hd). reflexivity.
Qed.

Lemma derive_zero_white_y (self : ColorSpace) :
  cy (white_point (descriptor self)) = 0 ->
  derive_rgb_to_xyz self = Raise ZeroDivisionError.
Proof.
  intros Hy. unfold derive_rgb_to_xyz. rewrite Hy, fdiv_zero. reflexivity.
Qed.

Lemma derive_singular (self : ColorSpace) :
  cy (white_point (descriptor self)) <> 0 ->
  Rabs (det (primaries_matrix (descriptor self))) < 1e-10 ->
  derive_rgb_to_xyz self = Raise SingularMatrix.
Proof.
  intros Hy Hd. unfold derive_rgb_to_xyz.
  rewrite !fdiv_ok by assumption. simpl.
  rewrite (invert_singular _ Hd). reflexivity.
Qed.

Lemma derive_inv (self cs : ColorSpace) :
  derive_rgb_to_xyz self = Ok cs ->
  cy (white_point (descriptor self)) <> 0
  /\ ~ Rabs (det (primaries_matrix (descriptor self))) < 1e-10
  /\ cs = set_rgb_to_xyz self
            (scaled_primaries (primaries_matrix (descriptor self))
                              (white_point (descriptor self))).
Proof.
  intros E.
  destruct (Req_dec_T (cy (white_point (descriptor self))) 0) as [Hy | Hy].
  - rewrite (derive_zero_white_y _ Hy) in E. discriminate.
  - destruct (Rlt_dec (Rabs (det (primaries_matrix (descriptor self)))) 1e-10)
      as [Hd | Hd].
    + rewrite (derive_singular _ Hy Hd) in E. discriminate.
    + rewrite (derive_ok _ Hy Hd) in E. injection E as <-. now repeat split.
Qed.

Lemma scaled_primaries_white (p : M33f) (w : Chromaticity) :
  det p <> 0 -> cy w <> 0 ->
  transform_rgb (scaled_primaries p w) (mkRGB 1 1 1) = white_XYZ w.
Proof.
  intros Hd Hy. unfold scaled_primaries, white_coefficients, white_XYZ,
    transform_rgb. simpl. unfold det in *.
  f_equal; field; split; assumption.
Qed.

Lemma scaled_primaries_nonzero (p : M33f) (w : Chromaticity) :
  det p <> 0 -> cy w <> 0 -> scaled_primaries p w <> M33f_zero.
Proof.
  intros Hd Hy E. pose proof (scaled_primaries_white p w Hd Hy) as H.
  rewrite E in H. unfold white_XYZ, transform_rgb in H; simpl in H.
  injection H as _ H _. lra.
Qed.

Lemma det_scaled_primaries (p : M33f) (w : Chromaticity) :
  det (scaled_primaries p w) =
  let '(C0, C1, C2) := white_coefficients p w in det p * (C0 * C1 * C2).
Proof.
  unfold scaled_primaries. destruct (white_coefficients p w) as [[C0 C1] C2].
  unfold det; simpl. ring.
Qed.

Lemma ColorSpace_init_unfold (d : ColorSpaceDescriptor) :
  ColorSpace_init d =
  (cs <- init_transfer (mkColorSpace d 0 0 M33f_zero) ;; init_matrix cs).
Proof. reflexivity. Qed.

(** C2.  When the white point has non-zero x and y and the primaries
    matrix passes the determinant test of [invert], construction gets
    past the derivation whenever the transfer coefficients can be
    computed, and every color space it returns has an RGB->XYZ matrix
    that sends RGB (1, 1, 1) to (Wx/Wy, 1, (1 - Wx - Wy)/Wy). *)
Theorem derived_matrix_maps_white (d : ColorSpaceDescriptor) :
  cx (white_point d) <> 0 ->
  cy (white_point d) <> 0 ->
  ~ Rabs (det (primaries_matrix d)) < 1e-10 ->
  (succeeds (init_transfer (mkColorSpace d 0 0 M33f_zero)) ->
   succeeds (ColorSpace_init d))
  /\ forall cs,
       ColorSpace_init d = Ok cs ->
       transform_rgb (rgb_to_xyz cs) (mkRGB 1 1 1) = white_XYZ (white_point d).
Proof.
  intros Hx Hy Hd. rewrite ColorSpace_init_unfold. split.
  - intros [cs0 E0]. rewrite E0; simpl.
    destruct (init_transfer_frame _ _ E0) as [Ed _]; simpl in Ed.
    rewrite init_matrix_derive by (now rewrite Ed).
    rewrite derive_ok by (now rewrite Ed). now eexists.
  - intros cs E.
    destruct (init_transfer _) as [cs0 |] eqn:E0; simpl in E; [| discriminate].
    destruct (init_transfer_frame _ _ E0) as [Ed _]; simpl in Ed.
    rewrite init_matrix_derive in E by (now rewrite Ed).
    apply derive_inv in E. destruct E as (_ & _ & ->). simpl. rewrite Ed.
    apply scaled_primaries_white; [now apply not_small_nonzero | exact Hy].
Qed.

(** ** The derived matrix of the built-in primaries *)

Lemma det_scaled_primaries_cleared (p : M33f) (w : Chromaticity) :
  det p <> 0 -> cy w <> 0 ->
  det (scaled_primaries p w) =
  let '(n0, n1, n2) := white_numerators p w in
  (n0 * n1 * n2) / (det p * det p * (cy w * cy w * cy w)).
Proof.
  intros Hd Hy. unfold scaled_primaries, white_coefficients, white_numerators.
  simpl. unfold det in *. simpl. field. split; assumption.
Qed.

Lemma not_small_of_le (x : R) : 1e-10 <= x -> ~ Rabs x < 1e-10.
Proof.
  intros H A. rewrite Rabs_pos_eq in A; lra.
Qed.

Lemma derivation_invertible_intro (d : ColorSpaceDescriptor) :
  cx (white_point d) <> 0 ->
  0 < cy (white_point d) ->
  1e-10 <= det (primaries_matrix d) ->
  (let '(n0, n1, n2) := white_numerators (primaries_matrix d) (white_point d) in
   1e-10 * (det (primaries_matrix d) * det (primaries_matrix d)
            * (cy (white_point d) * cy (white_point d) * cy (white_point d)))
   <= n0 * n1 * n2) ->
  derivation_invertible d.
Proof.
  intros Hx Hy Hd Hn.
  assert (Hd0 : det (primaries_matrix d) <> 0) by lra.
  assert (Hy0 : cy (white_point d) <> 0) by lra.
  repeat split; try assumption; try (now apply not_small_of_le).
  apply not_small_of_le.
  rewrite (det_scaled_primaries_cleared _ _ Hd0 Hy0).
  destruct (white_numerators _ _) as [[n0 n1] n2].
  set (D := det (primaries_matrix d) * det (primaries_matrix d)
            * (cy (white_point d) * cy (white_point d) * cy (white_point d))) in *.
  assert (HD : 0 < D).
  { unfold D. apply Rmult_lt_0_compat.
    - nra.
    - apply Rmult_lt_0_compat; [apply Rmult_lt_0_compat |]; assumption. }
  apply (Rmult_le_reg_r D); [exact HD |].
  replace (n0 * n1 * n2 / D * D) with (n0 * n1 * n2) by (field; lra).
  exact Hn.
Qed.

Ltac primaries_check :=
  intros d Hr Hg Hb Hw; apply derivation_invertible_intro;
  unfold white_numerators, det, adjugate_over_det, primaries_matrix;
  rewrite ?Hr, ?Hg, ?Hb, ?Hw; unfold WP_D65, WP_ACES, Chr; simpl; lra.

Lemma ap1_invertible (d : ColorSpaceDescriptor) :
  red_primary d = Chr 0.713 0.293 -> green_primary d = Chr 0.165 0.830 ->
  blue_primary d = Chr 0.128 0.044 -> white_point d = WP_ACES ->
  derivation_invertible d.
Proof. revert d. primaries_check. Qed.

Lemma adobergb_invertible (d : ColorSpaceDescriptor) :
  red_primary d = Chr 0.64 0.33 -> green_primary d = Chr 0.21 0.71 ->
  blue_primary d = Chr 0.15 0.06 -> white_point d = WP_D65 ->
  derivation_invertible d.
Proof. revert d. primaries_check. Qed.

Lemma rec709_invertible (d : ColorSpaceDescriptor) :
  red_primary d = Chr 0.640 0.330 -> green_primary d = Chr 0.300 0.600 ->
  blue_primary d = Chr 0.150 0.060 -> white_point d = WP_D65 ->
  derivation_invertible d.
Proof. revert d. primaries_check. Qed.

Lemma ap0_invertible (d : ColorSpaceDescriptor) :
  red_primary d = Chr 0.7347 0.2653 -> green_primary d = Chr 0.0000 1.0000 ->
  blue_primary d = Chr 0.0001 (-0.0770) -> white_point d = WP_ACES ->
  derivation_invertible d.
Proof. revert d. primaries_check. Qed.

Lemma displayp3_invertible (d : ColorSpaceDescriptor) :
  red_primary d = Chr 0.6800 0.3200 -> green_primary d = Chr 0.2650 0.6900 ->
  blue_primary d = Chr 0.1500 0.0600 -> white_point d = WP_D65 ->
  derivation_invertible d.
Proof. revert d. primaries_check. Qed.

Lemma rec2020_invertible (d : ColorSpaceDescriptor) :
  red_primary d = Chr 0.708 0.292 -> green_primary d = Chr 0.170 0.797 ->
  blue_primary d = Chr 0.131 0.046 -> white_point d = WP_D65 ->
  derivation_invertible d.
Proof. revert d. primaries_check. Qed.

Lemma identity_invertible (d : ColorSpaceDescriptor) :
  red_primary d = Chr 1.0 0.0 -> green_primary d = Chr 0.0 1.0 ->
  blue_primary d = Chr 0.0 0.0 -> white_point d = Chr (1.0 / 3.0) (1.0 / 3.0) ->
  derivation_invertible d.
Proof. revert d. primaries_check. Qed.

(** ** The transfer function *)

(** The argument of the logarithm in [_initialize], and its power, for
    the biased transfer parameters of the table's kind. *)
Lemma log_argument_range (ga a : R) :
  1e-3 <= a <= 1 -> 1.5 <= ga <= 3 ->
  let q := ga * a / (ga + ga * a - 1 - a) in
  0 < q /\ 1e-10 <= Rpower q ga <= 4.
Proof.
  intros Ha Hg q.
  assert (Hden : 0 < ga + ga * a - 1 - a) by nra.
  assert (Hlo : 5e-4 <= q).
  { unfold q. apply Rmult_le_reg_r with (ga + ga * a - 1 - a); [exact Hden |].
    replace (ga * a / (ga + ga * a - 1 - a) * (ga + ga * a - 1 - a))
      with (ga * a) by (field; lra).
    nra. }
  assert (Hhi : q <= 1.5).
  { unfold q. apply Rmult_le_reg_r with (ga + ga * a - 1 - a); [exact Hden |].
    replace (ga * a / (ga + ga * a - 1 - a) * (ga + ga * a - 1 - a))
      with (ga * a) by (field; lra).
    nra. }
  split; [lra |].
  destruct (Rpower_cube_bounds q ga) as [Hl Hu]; [lra | lra |].
  assert (H2 : 5e-4 * 5e-4 <= q * q <= 1.5 * 1.5) by nra.
  assert (H3 : 5e-4 * 5e-4 * 5e-4 <= q * q * q <= 1.5 * 1.5 * 1.5) by nra.
  split.
  - eapply Rle_trans; [| exact Hl]. apply Rmin_glb; lra.
  - eapply Rle_trans; [exact Hu |]. apply Rmax_lub; lra.
Qed.

Lemma init_transfer_wf (self : ColorSpace) :
  transfer_parameters_ok (descriptor self) ->
  exists cs,
    init_transfer self = Ok cs
    /\ descriptor cs = descriptor self
    /\ rgb_to_xyz cs = rgb_to_xyz self
    /\ transfer_wf cs.
Proof.
  intros [Hg Ha]. unfold init_transfer.
  set (a := linear_bias (descriptor self)) in *.
  set (ga := gamma (descriptor self)) in *.
  destruct (Req_dec_T ga 1) as [E1 | N1].
  - assert (a = 0) as Ea by (destruct Ha as [? | [_ ?]]; [assumption | lra]).
    eexists. split; [reflexivity |]. split; [reflexivity |].
    split; [reflexivity |]. unfold transfer_wf; simpl. fold a ga.
    rewrite Ea, E1. repeat split; try lra.
    right. split; [lra |]. rewrite Rpower_1 by lra. lra.
  - destruct (Rle_dec a 0) as [L | L].
    + assert (a = 0) as Ea by (destruct Ha as [? | [? _]]; [assumption | lra]).
      eexists. split; [reflexivity |]. split; [reflexivity |].
      split; [reflexivity |]. unfold transfer_wf; simpl. fold a ga.
      rewrite Ea. repeat split; lra.
    + assert (1e-3 <= a <= 1 /\ 1.5 <= ga) as [Hap Hg1]
        by (destruct Ha as [? | ?]; [lra | assumption]).
      assert (Hden : 0 < ga + ga * a - 1 - a) by nra.
      destruct (log_argument_range ga a Hap) as [Hq Hr]; [lra |].
      rewrite (fdiv_ok a (ga - 1)) by lra. cbn [bind].
      rewrite (fdiv_ok (ga * a)) by lra. cbn [bind].
      rewrite (math_log_pos _ Hq). cbn [bind].
      set (q := ga * a / (ga + ga * a - 1 - a)) in *.
      assert (Ee : exp (ln q * ga) = Rpower q ga)
        by (unfold Rpower; now rewrite (Rmult_comm ga)).
      pose proof float_tiny_small as Ht. pose proof float_max_large as Hm.
      rewrite math_exp_in_range by (rewrite Ee; lra). cbn [bind].
      rewrite Ee.
      rewrite (fdiv_ok a (Rpower q ga)) by lra. cbn [bind].
      rewrite (fdiv_ok _ (ga - 1)) by lra. cbn [bind].
      eexists. split; [reflexivity |]. split; [reflexivity |].
      split; [reflexivity |]. unfold transfer_wf; simpl. fold a ga.
      assert (Eq : (a / (ga - 1) + a) / (1 + a) = q).
      { unfold q. field. split; lra. }
      rewrite Eq.
      assert (Hk : 0 < a / (ga - 1) <= 2).
      { split; [apply Rdiv_lt_0_compat; lra |].
        apply Rmult_le_reg_r with (ga - 1); [lra |].
        replace (a / (ga - 1) * (ga - 1)) with a by (field; lra). nra. }
      split; [lra |]. split; [lra |].
      split.
      { apply Rdiv_lt_0_compat; [| lra]. apply Rdiv_lt_0_compat; lra. }
      split; [lra |].
      right. split; [exact Hq |].
      field. repeat split; lra.
Qed.

Lemma to_linear_below (cs : ColorSpace) (t : R) :
  phi cs <> 0 -> t < k0 cs -> to_linear cs t = Ok (t / phi cs).
Proof.
  intros Hp Ht. unfold to_linear.
  destruct (Rlt_dec t (k0 cs)); [now apply fdiv_ok | contradiction].
Qed.

Lemma from_linear_below (cs : ColorSpace) (t : R) :
  phi cs <> 0 -> t < k0 cs / phi cs -> from_linear cs t = Ok (t * phi cs).
Proof.
  intros Hp Ht. unfold from_linear. rewrite fdiv_ok by assumption. simpl.
  destruct (Rlt_dec t (k0 cs / phi cs)); [reflexivity | contradiction].
Qed.

Section Transfer.
Variable cs : ColorSpace.
Hypothesis wf : transfer_wf cs.

Let a := linear_bias (descriptor cs).
Let ga := gamma (descriptor cs).

Lemma wf_facts :
  1 <= ga <= 3 /\ 0 <= a /\ 0 < phi cs /\ 0 <= k0 cs <= 1e100
  /\ 0 <= k0 cs / phi cs.
Proof.
  destruct wf as (Hg & Ha & Hp & Hk & _).
  split; [exact Hg |]. split; [exact Ha |]. split; [exact Hp |].
  split; [exact Hk |].
  apply Rmult_le_pos; [lra |]. apply Rlt_le. now apply Rinv_0_lt_compat.
Qed.

(** Above the breakpoint the base of the power is not negative. *)
Lemma to_linear_base_nonneg (t : R) :
  ~ t < k0 cs -> 0 <= (t + a) / (1 + a).
Proof.
  destruct wf_facts as (_ & Ha & _ & Hk & _). intros Ht.
  apply Rmult_le_pos; [lra |]. apply Rlt_le. apply Rinv_0_lt_compat. lra.
Qed.

(** The base is at most 1e100 when the encoded value is. *)
Lemma to_linear_base_bounded (t : R) :
  t <= 1e100 -> (t + a) / (1 + a) <= 1e100.
Proof.
  destruct wf_facts as (_ & Ha & _ & _ & _). intros Ht.
  apply Rmult_le_reg_r with (1 + a); [lra |].
  replace ((t + a) / (1 + a) * (1 + a)) with (t + a) by (field; lra).
  nra.
Qed.

Lemma from_linear_arg_nonneg (t : R) :
  ~ t < k0 cs / phi cs -> 0 <= t.
Proof.
  destruct wf_facts as (_ & _ & _ & _ & Hq). intros Ht. lra.
Qed.

Lemma to_linear_above (t : R) :
  ~ t < k0 cs ->
  to_linear cs t = math_pow ((t + a) / (1 + a)) ga.
Proof.
  destruct wf_facts as (_ & Ha & _ & _ & _). intros Ht. unfold to_linear.
  destruct (Rlt_dec t (k0 cs)); [contradiction |].
  fold a ga. rewrite fdiv_ok by lra. reflexivity.
Qed.

Lemma from_linear_above (t : R) :
  ~ t < k0 cs / phi cs ->
  from_linear cs t = (p <- math_pow t (1 / ga) ;; Ok ((1 + a) * p - a)).
Proof.
  destruct wf_facts as (Hg & _ & Hp & _ & _). intros Ht. unfold from_linear.
  rewrite fdiv_ok by lra. simpl.
  destruct (Rlt_dec t (k0 cs / phi cs)); [contradiction |].
  fold a ga. rewrite fdiv_ok by lra. reflexivity.
Qed.

Lemma root_exponent : 0 < 1 / ga <= 1.
Proof.
  destruct wf_facts as (Hg & _). split.
  - apply Rdiv_lt_0_compat; lra.
  - apply Rmult_le_reg_r with ga; [lra |].
    replace (1 / ga * ga) with 1 by (field; lra). lra.
Qed.

Lemma is_finite_gamma : is_finite ga.
Proof. destruct wf_facts as (Hg & _). apply is_finite_between. lra. Qed.

(** The power branch of [to_linear] on a base that is not negative:
    the power, or an overflow. *)
Lemma math_pow_gamma (x : R) :
  0 <= x ->
  (exists v, math_pow x ga = Ok v /\ 0 <= v /\ (0 < x -> v = Rpower x ga))
  \/ (math_pow x ga = Raise OverflowError
      /\ 0 < x /\ is_finite x /\ float_max < Rpower x ga).
Proof.
  destruct wf_facts as (Hg & _). intros [Hx | <-].
  - destruct (math_pow_pos_cases x ga Hx) as [E | (E & Fx & _ & Hn)].
    + left. exists (Rpower x ga). split; [exact E |].
      split; [apply Rlt_le, Rpower_pos | reflexivity].
    + right. split; [exact E |]. split; [exact Hx |]. split; [exact Fx |].
      apply Rnot_le_lt. intros Hle. apply Hn. unfold is_finite.
      rewrite Rabs_pos_eq; [exact Hle | apply Rlt_le, Rpower_pos].
  - left. exists 0. split; [apply math_pow_zero; lra |]. split; lra.
Qed.

Lemma math_pow_gamma_bounded (x : R) :
  0 <= x <= 1e100 ->
  exists v, math_pow x ga = Ok v /\ 0 <= v /\ (0 < x -> v = Rpower x ga).
Proof.
  destruct wf_facts as (Hg & _). intros [[Hx | <-] Hb].
  - exists (Rpower x ga). split; [apply math_pow_bounded; lra |].
    split; [apply Rlt_le, Rpower_pos | reflexivity].
  - exists 0. split; [apply math_pow_zero; lra |]. split; lra.
Qed.

Lemma math_pow_root_nonneg (x : R) :
  0 <= x ->
  exists v, math_pow x (1 / ga) = Ok v /\ 0 <= v /\ (0 < x -> v = Rpower x (1 / ga)).
Proof.
  pose proof root_exponent as Hi. intros [Hx | <-].
  - exists (Rpower x (1 / ga)). split; [apply math_pow_root; lra |].
    split; [apply Rlt_le, Rpower_pos | reflexivity].
  - exists 0. split; [apply math_pow_zero; lra |]. split; lra.
Qed.

(** [to_linear] returns on every input up to 1e100. *)
Lemma to_linear_returns (t : R) : t <= 1e100 -> succeeds (to_linear cs t).
Proof.
  destruct wf_facts as (Hg & _ & Hp & _ & _). intros Hb.
  destruct (Rlt_dec t (k0 cs)) as [Ht | Ht].
  - rewrite to_linear_below by lra. now eexists.
  - rewrite (to_linear_above t Ht).
    destruct (math_pow_gamma_bounded ((t + a) / (1 + a))) as (v & E & _).
    + split; [now apply to_linear_base_nonneg | now apply to_linear_base_bounded].
    + now exists v.
Qed.

(** What [to_linear] does on any input: it returns, or the power
    overflows. *)
Lemma to_linear_outcome (t : R) :
  succeeds (to_linear cs t)
  \/ (to_linear cs t = Raise OverflowError
      /\ k0 cs <= t
      /\ float_max < Rpower ((t + a) / (1 + a)) ga).
Proof.
  destruct wf_facts as (Hg & _ & Hp & _ & _).
  destruct (Rlt_dec t (k0 cs)) as [Ht | Ht].
  - left. rewrite to_linear_below by lra. now eexists.
  - rewrite (to_linear_above t Ht).
    destruct (math_pow_gamma _ (to_linear_base_nonneg t Ht))
      as [(v & E & _) | (E & _ & _ & Ho)].
    + left. now exists v.
    + right. split; [exact E |]. split; [lra | exact Ho].
Qed.

Lemma to_linear_overflow (t : R) :
  k0 cs <= t -> is_finite ((t + a) / (1 + a)) ->
  float_max < Rpower ((t + a) / (1 + a)) ga ->
  to_linear cs t = Raise OverflowError.
Proof.
  intros Ht Fb Ho. rewrite to_linear_above by lra.
  pose proof (to_linear_base_nonneg t (Rle_not_lt _ _ Ht)) as [Hb | Hb].
  - apply math_pow_overflow; [exact Hb | exact Fb | exact is_finite_gamma |].
    unfold is_finite. rewrite Rabs_pos_eq; [lra | apply Rlt_le, Rpower_pos].
  - exfalso. rewrite <- Hb in Ho. pose proof float_max_large.
    unfold Rpower, ln in Ho. destruct (Rlt_dec 0 0); [lra |].
    rewrite Rmult_0_r, exp_0 in Ho. lra.
Qed.

(** [from_linear] returns on every input. *)
Lemma from_linear_total (t : R) : succeeds (from_linear cs t).
Proof.
  destruct wf_facts as (Hg & _ & Hp & _ & _).
  destruct (Rlt_dec t (k0 cs / phi cs)) as [Ht | Ht].
  - rewrite from_linear_below by lra. now eexists.
  - rewrite (from_linear_above t Ht).
    destruct (math_pow_root_nonneg _ (from_linear_arg_nonneg t Ht)) as (v & E & _).
    rewrite E. simpl. now eexists.
Qed.

(** When [to_linear] returns, encoding its result gives the input
    back. *)
Lemma transfer_round_trip_value (t l : R) :
  to_linear cs t = Ok l -> from_linear cs l = Ok t.
Proof.
  destruct wf_facts as (Hg & Ha & Hp & Hk & Hq).
  pose proof root_exponent as Hi.
  destruct (Rlt_dec t (k0 cs)) as [Ht | Ht].
  - rewrite to_linear_below by lra. intros E; injection E as <-.
    rewrite from_linear_below.
    + f_equal. field. lra.
    + lra.
    + unfold Rdiv. apply Rmult_lt_compat_r; [now apply Rinv_0_lt_compat | exact Ht].
  - rewrite (to_linear_above t Ht).
    pose proof (to_linear_base_nonneg t Ht) as Hb.
    assert (Hback : (1 + a) * ((t + a) / (1 + a)) - a = t) by (field; lra).
    destruct Hb as [Hb | Hb].
    + destruct (math_pow_pos_cases _ ga Hb) as [E | (E & _)];
        rewrite E; [| discriminate].
      intros El; injection El as <-.
      assert (Hge : ~ Rpower ((t + a) / (1 + a)) ga < k0 cs / phi cs).
      { destruct wf as (_ & _ & _ & _ & [E0 | [Hb0 Ec]]).
        - rewrite E0. unfold Rdiv. rewrite Rmult_0_l.
          pose proof (Rpower_pos ((t + a) / (1 + a)) ga). lra.
        - fold a ga in Hb0, Ec. rewrite Ec. apply Rle_not_lt.
          apply Rle_Rpower_l; [lra |]. split; [exact Hb0 |].
          unfold Rdiv. apply Rmult_le_compat_r.
          + apply Rlt_le, Rinv_0_lt_compat. lra.
          + lra. }
      rewrite (from_linear_above _ Hge).
      rewrite math_pow_root by (first [apply Rpower_pos | lra]). simpl.
      rewrite Rpower_mult.
      replace (ga * (1 / ga)) with 1 by (field; lra).
      rewrite Rpower_1 by exact Hb. now rewrite Hback.
    + rewrite <- Hb. rewrite math_pow_zero by lra.
      intros El; injection El as <-.
      assert (Ht0 : t = - a).
      { assert (H0 : (t + a) / (1 + a) * (1 + a) = 0) by (rewrite <- Hb; ring).
        replace ((t + a) / (1 + a) * (1 + a)) with (t + a) in H0 by (field; lra).
        lra. }
      assert (Hk0 : k0 cs = 0) by lra.
      assert (Hge : ~ 0 < k0 cs / phi cs).
      { rewrite Hk0. unfold Rdiv. rewrite Rmult_0_l. lra. }
      rewrite (from_linear_above _ Hge).
      rewrite math_pow_zero by lra. simpl. f_equal. rewrite Ht0. ring.
Qed.

(** Decoding and encoding again gives the value back, on every input
    up to 1e100. *)
Lemma transfer_round_trip (t : R) :
  t <= 1e100 ->
  exists l, to_linear cs t = Ok l /\ from_linear cs l = Ok t.
Proof.
  intros Hb. destruct (to_linear_returns t Hb) as [l E].
  exists l. split; [exact E | now apply transfer_round_trip_value].
Qed.
End Transfer.

(** ** The built-in table *)

Ltac builtin_case :=
  split; [reflexivity |];
  split;
  [ first [ apply ap1_invertible; reflexivity
          | apply adobergb_invertible; reflexivity
          | apply rec709_invertible; reflexivity
          | apply ap0_invertible; reflexivity
          | apply displayp3_invertible; reflexivity
          | apply rec2020_invertible; reflexivity
          | apply identity_invertible; reflexivity ]
  | unfold transfer_parameters_ok; simpl; lra ].

Lemma builtin_descriptor (nm : string) (d : ColorSpaceDescriptor) :
  In (nm, d) COLOR_SPACES ->
  name d = nm /\ derivation_invertible d /\ transfer_parameters_ok d.
Proof.
  unfold COLOR_SPACES. cbn [In]. intros H.
  repeat (destruct H as [H | H]; [injection H as <- <-; builtin_case |]).
  contradiction.
Qed.

Lemma ColorSpace_init_ok (d : ColorSpaceDescriptor) :
  derivation_invertible d ->
  transfer_parameters_ok d ->
  exists cs,
    ColorSpace_init d = Ok cs
    /\ descriptor cs = d
    /\ transfer_wf cs
    /\ rgb_to_xyz cs = scaled_primaries (primaries_matrix d) (white_point d)
    /\ ~ Rabs (det (rgb_to_xyz cs)) < 1e-10.
Proof.
  intros (Hx & Hy & Hp & Hm) Ht. rewrite ColorSpace_init_unfold.
  destruct (init_transfer_wf (mkColorSpace d 0 0 M33f_zero) Ht)
    as (cs0 & E0 & Ed & _ & Hwf). simpl in Ed.
  rewrite E0; simpl.
  rewrite init_matrix_derive by (now rewrite Ed).
  rewrite derive_ok by (rewrite Ed; first [lra | exact Hp]).
  eexists. split; [reflexivity |]. rewrite Ed. simpl.
  split; [exact Ed |]. split; [| split; [reflexivity | exact Hm]].
  unfold transfer_wf in *. simpl. exact Hwf.
Qed.

Lemma builtin_constructed (nm : string) (d : ColorSpaceDescriptor) :
  In (nm, d) COLOR_SPACES ->
  exists cs,
    ColorSpace_init d = Ok cs
    /\ descriptor cs = d
    /\ transfer_wf cs
    /\ rgb_to_xyz cs = scaled_primaries (primaries_matrix d) (white_point d)
    /\ ~ Rabs (det (rgb_to_xyz cs)) < 1e-10.
Proof.
  intros H. destruct (builtin_descriptor nm d H) as (_ & Hi & Ht).
  now apply ColorSpace_init_ok.
Qed.

(** ** The registry after initialisation *)

Lemma dict_get_set {V : Type} (l : list (string * V)) (k nm : string) (v : V) :
  dict_get (dict_set l k v) nm =
  if String.eqb k nm then Some v else dict_get l nm.
Proof.
  induction l as [| [k' w] rest IH]; simpl.
  - reflexivity.
  - destruct (String.eqb k' k) eqn:Ek; simpl.
    + apply String.eqb_eq in Ek. subst k'.
      destruct (String.eqb k nm); reflexivity.
    + rewrite IH. destruct (String.eqb k' nm) eqn:En; [| reflexivity].
      apply String.eqb_eq in En. subst k'. now rewrite String.eqb_sym, Ek.
Qed.

Lemma populate_spec (items : list (string * ColorSpaceDescriptor)) :
  (forall nm d, In (nm, d) items -> succeeds (ColorSpace_init d)) ->
  forall s, exists s',
    populate items s = (Ok tt, s')
    /\ (forall nm cs,
          dict_get (_color_space_library s') nm = Some cs ->
          dict_get (_color_space_library s) nm = Some cs
          \/ exists d, In (nm, d) items /\ ColorSpace_init d = Ok cs)
    /\ (forall nm,
          dict_get (_color_space_library s) nm <> None
          \/ (exists d, In (nm, d) items) ->
          dict_get (_color_space_library s') nm <> None).
Proof.
  induction items as [| [k d] rest IH]; intros Hall s.
  - exists s. split; [reflexivity |]. split.
    + intros nm cs H. now left.
    + intros nm [H | [d []]]. exact H.
  - destruct (Hall k d (or_introl eq_refl)) as [cs0 E0].
    destruct (IH (fun nm d' H => Hall nm d' (or_intror H))
                 (mkState (dict_set (_color_space_library s) k cs0)))
      as (s' & Ep & Hsub & Hkeep).
    exists s'. split.
    + simpl. unfold mbind, lift, get_library, put_library. rewrite E0. exact Ep.
    + split.
      * intros nm cs H. destruct (Hsub nm cs H) as [H1 | (d' & Hin & Hd')].
        -- simpl in H1. rewrite dict_get_set in H1.
           destruct (String.eqb k nm) eqn:Ek; [| now left].
           apply String.eqb_eq in Ek. subst nm. injection H1 as <-.
           right. exists d. split; [now left | exact E0].
        -- right. exists d'. split; [now right | exact Hd'].
      * intros nm H. apply Hkeep. simpl. rewrite dict_get_set.
        destruct (String.eqb k nm) eqn:Ek; [left; discriminate |].
        destruct H as [H | (d' & [E | Hin])].
        -- now left.
        -- injection E as -> _. now rewrite String.eqb_refl in Ek.
        -- right. now exists d'.
Qed.

Lemma init_color_space_library_spec (s0 : State) :
  exists s1,
    init_color_space_library s0 = (Ok tt, s1)
    /\ (forall nm cs,
          dict_get (_color_space_library s1) nm = Some cs ->
          exists d, In (nm, d) COLOR_SPACES /\ ColorSpace_init d = Ok cs)
    /\ (forall nm d,
          In (nm, d) COLOR_SPACES ->
          dict_get (_color_space_library s1) nm <> None).
Proof.
  assert (Hall : forall nm d, In (nm, d) COLOR_SPACES -> succeeds (ColorSpace_init d)).
  { intros nm d H. destruct (builtin_constructed nm d H) as (cs & E & _).
    now exists cs. }
  destruct (populate_spec COLOR_SPACES Hall (mkState [])) as (s1 & E & Hsub & Hkeep).
  exists s1. split; [exact E |]. split.
  - intros nm cs H. destruct (Hsub nm cs H) as [H1 | H1]; [discriminate | exact H1].
  - intros nm d H. apply Hkeep. right. now exists d.
Qed.

Lemma registered_is_builtin (s0 : State) (nm : string) (S : ColorSpace) :
  fst (get_named_color_space nm (snd (init_color_space_library s0))) = Ok (Some S) ->
  exists d, In (nm, d) COLOR_SPACES /\ ColorSpace_init d = Ok S.
Proof.
  destruct (init_color_space_library_spec s0) as (s1 & E & Hsub & _).
  rewrite E. simpl. intros H. injection H as H. now apply Hsub.
Qed.

Lemma builtin_is_registered (s0 : State) (nm : string) (d : ColorSpaceDescriptor) :
  In (nm, d) COLOR_SPACES ->
  exists S,
    fst (get_named_color_space nm (snd (init_color_space_library s0))) = Ok (Some S).
Proof.
  intros Hin.
  destruct (init_color_space_library_spec s0) as (s1 & E & _ & Hkeep).
  rewrite E. simpl. specialize (Hkeep nm d Hin).
  destruct (dict_get (_color_space_library s1) nm) as [S |]; [| contradiction].
  now exists S.
Qed.

(** ** Invertibility of the stored matrix *)

Lemma init_transfer_linear (self : ColorSpace) :
  gamma (descriptor self) = 1 -> init_transfer self = Ok (set_transfer self 1e9 1).
Proof.
  intros H. unfold init_transfer.
  destruct (Req_dec_T _ 1); [reflexivity | contradiction].
Qed.

Lemma from_matrix_keeps_matrix (md : ColorSpaceM33Descriptor) (cs : ColorSpace) :
  from_matrix md = Ok cs -> rgb_to_xyz cs = m33_rgb_to_xyz md.
Proof.
  unfold from_matrix. destruct (ColorSpace_init _); simpl; [| discriminate].
  intros E. injection E as <-. reflexivity.
Qed.

Lemma ColorSpace_init_matrix (d : ColorSpaceDescriptor) (cs : ColorSpace) :
  ColorSpace_init d = Ok cs ->
  (cx (white_point d) = 0 -> rgb_to_xyz cs = M33f_zero)
  /\ (cx (white_point d) <> 0 ->
      cy (white_point d) <> 0
      /\ ~ Rabs (det (primaries_matrix d)) < 1e-10
      /\ rgb_to_xyz cs = scaled_primaries (primaries_matrix d) (white_point d)).
Proof.
  rewrite ColorSpace_init_unfold.
  destruct (init_transfer _) as [cs0 |] eqn:E0; simpl; [| discriminate].
  destruct (init_transfer_frame _ _ E0) as [Ed Em]; simpl in Ed, Em.
  intros E. split; intros Hx.
  - rewrite init_matrix_skip in E by (now rewrite Ed).
    injection E as <-. exact Em.
  - rewrite init_matrix_derive in E by (now rewrite Ed).
    apply derive_inv in E. rewrite Ed in E. destruct E as (Hy & Hp & ->).
    now repeat split.
Qed.

Lemma flat_m33_constructed :
  create_color_space_m33 flat_m33 =
  Ok (mkColorSpace
        (mkColorSpaceDescriptor "flat"%string (mkChromaticity 0 0)
           (mkChromaticity 0 0) (mkChromaticity 0 0) (mkChromaticity 0 0) 1 0)
        1e9 1 M33f_zero).
Proof.
  unfold create_color_space_m33, from_matrix. rewrite ColorSpace_init_unfold.
  rewrite init_transfer_linear by reflexivity. simpl.
  rewrite init_matrix_skip by reflexivity. reflexivity.
Qed.

Lemma identity_primaries_det (d : ColorSpaceDescriptor) :
  red_primary d = Chr 1 0 -> green_primary d = Chr 0 1 ->
  blue_primary d = Chr 0 0 -> det (primaries_matrix d) = 1.
Proof.
  intros Hr Hg Hb. unfold det, primaries_matrix. rewrite Hr, Hg, Hb. simpl. ring.
Qed.

Lemma collinear_white_constructed :
  create_color_space collinear_white =
  Ok (mkColorSpace collinear_white 1e9 1
        (scaled_primaries (primaries_matrix collinear_white) (Chr 0.5 0.5))).
Proof.
  unfold create_color_space. rewrite ColorSpace_init_unfold.
  rewrite init_transfer_linear by reflexivity. simpl.
  rewrite init_matrix_derive by (simpl; lra).
  rewrite derive_ok; [reflexivity | simpl; lra |].
  simpl descriptor. rewrite identity_primaries_det by reflexivity.
  apply not_small_of_le. lra.
Qed.

Lemma collinear_white_det :
  det (scaled_primaries (primaries_matrix collinear_white) (Chr 0.5 0.5)) = 0.
Proof.
  rewrite det_scaled_primaries_cleared.
  - unfold white_numerators, adjugate_over_det, det, primaries_matrix; simpl.
    lra.
  - rewrite identity_primaries_det by reflexivity. lra.
  - simpl. lra.
Qed.

(** C4, as stated, fails on both ad-hoc paths: the matrix-form
    constructor accepts the all-zero matrix, and the primaries-form
    constructor derives a matrix of determinant 0 when the white point
    lies on the line through two primaries. *)
Lemma singular_matrix_constructed :
  (exists cs,
      create_color_space_m33 flat_m33 = Ok cs
      /\ Rabs (det (rgb_to_xyz cs)) < 1e-10)
  /\ (exists cs,
         create_color_space collinear_white = Ok cs
         /\ Rabs (det (rgb_to_xyz cs)) < 1e-10).
Proof.
  split.
  - eexists. split; [apply flat_m33_constructed |]. simpl.
    replace (det M33f_zero) with 0 by (unfold det; simpl; ring).
    rewrite Rabs_R0. lra.
  - eexists. split; [apply collinear_white_constructed |]. simpl.
    rewrite collinear_white_det, Rabs_R0. lra.
Qed.

(** C4, amended.  Every entry of the built-in table constructs a color
    space whose RGB->XYZ matrix passes the determinant test of
    [invert], and so does every color space the registry holds after
    [init_color_space_library].  The ad-hoc constructors store a matrix
    without testing it: the matrix-form one stores the matrix it is
    given, the primaries-form one stores [P diag(C)] when the white
    point's x is not 0 and leaves the zero matrix when it is. *)
Theorem builtin_matrix_invertible :
  (forall nm d,
      In (nm, d) COLOR_SPACES ->
      exists cs,
        ColorSpace_init d = Ok cs
        /\ ~ Rabs (det (rgb_to_xyz cs)) < 1e-10
        /\ succeeds (get_xyz_to_rgb_matrix cs))
  /\ (forall s0 nm S,
         fst (get_named_color_space nm (snd (init_color_space_library s0)))
         = Ok (Some S) ->
         ~ Rabs (det (rgb_to_xyz S)) < 1e-10)
  /\ (forall md cs,
         create_color_space_m33 md = Ok cs ->
         rgb_to_xyz cs = m33_rgb_to_xyz md)
  /\ (forall d cs,
         create_color_space d = Ok cs ->
         (cx (white_point d) = 0 -> rgb_to_xyz cs = M33f_zero)
         /\ (cx (white_point d) <> 0 ->
             rgb_to_xyz cs = scaled_primaries (primaries_matrix d) (white_point d))).
Proof.
  split; [| split; [| split]].
  - intros nm d H.
    destruct (builtin_constructed nm d H) as (cs & E & _ & _ & _ & Hm).
    exists cs. split; [exact E |]. split; [exact Hm |].
    unfold get_xyz_to_rgb_matrix. rewrite (invert_ok _ Hm). now eexists.
  - intros s0 nm S H.
    destruct (registered_is_builtin s0 nm S H) as (d & Hin & E).
    destruct (builtin_constructed nm d Hin) as (cs & E' & _ & _ & _ & Hm).
    rewrite E in E'. injection E' as ->. exact Hm.
  - intros md cs. apply from_matrix_keeps_matrix.
  - intros d cs E. destruct (ColorSpace_init_matrix d cs E) as [H0 H1].
    split; [exact H0 |]. intros Hx. now destruct (H1 Hx) as (_ & _ & ->).
Qed.

(** ** The sentinel on the white point *)

Lemma white_on_y_axis_constructed :
  ColorSpace_init white_on_y_axis = Ok (mkColorSpace white_on_y_axis 1e9 1 M33f_zero).
Proof.
  rewrite ColorSpace_init_unfold.
  rewrite init_transfer_linear by reflexivity. simpl.
  rewrite init_matrix_skip by reflexivity. reflexivity.
Qed.

(** C5.  The code at the white point (0, 0.5): the white point is not
    all-zero, so the claim has the derivation run, yet construction
    returns with the zero matrix in place; the derivation, had it run on
    that color space, would have stored a different matrix.  The test in
    [_initialize] looks at the x coordinate alone. *)
Theorem nonzero_white_point_skips_derivation :
  white_point white_on_y_axis <> mkChromaticity 0 0
  /\ ColorSpace_init white_on_y_axis
     = Ok (mkColorSpace white_on_y_axis 1e9 1 M33f_zero)
  /\ exists cs,
       derive_rgb_to_xyz (mkColorSpace white_on_y_axis 1e9 1 M33f_zero) = Ok cs
       /\ rgb_to_xyz cs <> M33f_zero.
Proof.
  split; [| split].
  - simpl. unfold Chr. intros E. injection E as E. lra.
  - apply white_on_y_axis_constructed.
  - assert (Hd : det (primaries_matrix white_on_y_axis) = 1)
      by (now apply identity_primaries_det).
    eexists. split.
    + apply derive_ok; simpl descriptor.
      * simpl. lra.
      * rewrite Hd. apply not_small_of_le. lra.
    + simpl. apply scaled_primaries_nonzero.
      * rewrite Hd. lra.
      * simpl. lra.
Qed.

(** ** The transfer function on the built-in spaces *)

Lemma float_max_below : float_max <= 1.8e308.
Proof.
  unfold float_max.
  let v := eval vm_compute in (2 ^ 1024 - 2 ^ 971)%Z in
    change (2 ^ 1024 - 2 ^ 971)%Z with v.
  lra.
Qed.

Lemma sRGB_in_table : In ("sRGB"%string, sRGB_descriptor) COLOR_SPACES.
Proof.
  unfold COLOR_SPACES. do 14 right. left. reflexivity.
Qed.

(** The power with exponent 2.4 of a fifth power is a twelfth power. *)
Lemma Rpower_fifth_power (c : R) :
  0 < c -> Rpower (c ^ 5) 2.4 = c ^ 12.
Proof.
  intros Hc. rewrite <- (Rpower_pow 5 c Hc), Rpower_mult.
  replace (INR 5 * 2.4) with (INR 12) by (simpl; lra).
  now apply Rpower_pow.
Qed.

(** The power that [to_linear] of sRGB takes at 1e130 is beyond the
    largest finite float. *)
Lemma sRGB_power_at_1e130 :
  float_max < Rpower ((1e130 + 0.055) / (1 + 0.055)) 2.4.
Proof.
  pose proof float_max_below as Hm.
  assert (Hc : 0 < 9e25) by lra.
  assert (H5 : 9e25 ^ 5 <= (1e130 + 0.055) / (1 + 0.055)).
  { apply Rmult_le_reg_r with (1 + 0.055); [lra |].
    replace ((1e130 + 0.055) / (1 + 0.055) * (1 + 0.055)) with (1e130 + 0.055)
      by (field; lra).
    simpl. lra. }
  assert (H12 : 1.8e308 < 9e25 ^ 12) by (simpl; lra).
  assert (Hp : 0 < 9e25 ^ 5) by (apply pow_lt; exact Hc).
  apply Rlt_le_trans with (Rpower (9e25 ^ 5) 2.4).
  - rewrite (Rpower_fifth_power _ Hc). lra.
  - apply Rle_Rpower_l; [lra |]. split; [exact Hp | exact H5].
Qed.

(** C9, as stated, fails: sRGB is an entry of the table, its color
    space is constructed, and [to_linear] on it at 1e130 does not
    return: [math.pow] raises [OverflowError]. *)
Lemma to_linear_overflows_on_sRGB :
  In ("sRGB"%string, sRGB_descriptor) COLOR_SPACES
  /\ exists cs,
       ColorSpace_init sRGB_descriptor = Ok cs
       /\ to_linear cs 1e130 = Raise OverflowError
       /\ ~ succeeds (to_linear cs 1e130).
Proof.
  split; [exact sRGB_in_table |].
  destruct (builtin_constructed _ _ sRGB_in_table) as (cs & E & Ed & Hwf & _).
  destruct (wf_facts cs Hwf) as (Hg & Ha & Hp & Hk & Hq).
  assert (Eo : to_linear cs 1e130 = Raise OverflowError).
  { apply (to_linear_overflow cs Hwf); try rewrite Ed;
      unfold sRGB_descriptor; cbn [linear_bias gamma].
    - lra.
    - assert (H0 : 0 < (1e130 + 0.055) / (1 + 0.055))
        by (apply Rdiv_lt_0_compat; lra).
      assert (H1 : (1e130 + 0.055) / (1 + 0.055) <= 1e131).
      { apply Rmult_le_reg_r with (1 + 0.055); [lra |].
        replace ((1e130 + 0.055) / (1 + 0.055) * (1 + 0.055))
          with (1e130 + 0.055) by (field; lra).
        lra. }
      apply is_finite_between. lra.
    - exact sRGB_power_at_1e130. }
  exists cs. split; [exact E |]. split; [exact Eo |].
  intros [l El]. rewrite Eo in El. discriminate.
Qed.

(** C9, amended.  Every entry of the built-in table constructs a color
    space whose [phi] is not 0, on which [from_linear] returns for every
    real input and [to_linear] returns or raises [OverflowError], the
    latter only on the power branch with a power beyond the largest
    finite float, and never on an input up to 1e100.  [to_linear] takes
    its power branch only with a base [(t + a) / (1 + a)] that is not
    negative, [from_linear] takes its power branch only on [t >= 0], and
    a negative input takes the linear branch of both. *)
Theorem builtin_transfer_total (nm : string) (d : ColorSpaceDescriptor) :
  In (nm, d) COLOR_SPACES ->
  exists cs,
    ColorSpace_init d = Ok cs
    /\ phi cs <> 0
    /\ (forall t, succeeds (from_linear cs t))
    /\ (forall t,
          succeeds (to_linear cs t)
          \/ (to_linear cs t = Raise OverflowError
              /\ k0 cs <= t
              /\ float_max
                 < Rpower ((t + linear_bias d) / (1 + linear_bias d)) (gamma d)))
    /\ (forall t, t <= 1e100 -> succeeds (to_linear cs t))
    /\ (forall t,
          ~ t < k0 cs ->
          0 <= (t + linear_bias d) / (1 + linear_bias d)
          /\ to_linear cs t
             = math_pow ((t + linear_bias d) / (1 + linear_bias d)) (gamma d))
    /\ (forall t,
          ~ t < k0 cs / phi cs ->
          0 <= t
          /\ from_linear cs t
             = (p <- math_pow t (1 / gamma d) ;;
                Ok ((1 + linear_bias d) * p - linear_bias d)))
    /\ (forall t,
          t < 0 ->
          to_linear cs t = Ok (t / phi cs)
          /\ from_linear cs t = Ok (t * phi cs)).
Proof.
  intros Hin.
  destruct (builtin_constructed nm d Hin) as (cs & E & Ed & Hwf & _).
  destruct (wf_facts cs Hwf) as (Hg & Ha & Hp & Hk & Hq).
  exists cs. split; [exact E |]. split; [lra |].
  split; [| split; [| split; [| split; [| split]]]].
  - intros t. now apply from_linear_total.
  - intros t. rewrite <- Ed. now apply to_linear_outcome.
  - intros t Ht. now apply to_linear_returns.
  - intros t Ht. rewrite <- Ed. split.
    + now apply to_linear_base_nonneg.
    + now apply to_linear_above.
  - intros t Ht. rewrite <- Ed. split.
    + now apply (from_linear_arg_nonneg cs Hwf).
    + now apply from_linear_above.
  - intros t Ht. split.
    + apply to_linear_below; lra.
    + apply from_linear_below; lra.
Qed.

Lemma builtin_transfer_total_witness :
  exists cs,
    ColorSpace_init sRGB_descriptor = Ok cs
    /\ phi cs <> 0
    /\ (forall t, succeeds (from_linear cs t))
    /\ (forall t,
          succeeds (to_linear cs t)
          \/ (to_linear cs t = Raise OverflowError
              /\ k0 cs <= t
              /\ float_max < Rpower ((t + 0.055) / (1 + 0.055)) 2.4))
    /\ (forall t, t <= 1e100 -> succeeds (to_linear cs t))
    /\ (forall t,
          ~ t < k0 cs ->
          0 <= (t + 0.055) / (1 + 0.055)
          /\ to_linear cs t = math_pow ((t + 0.055) / (1 + 0.055)) 2.4)
    /\ (forall t,
          ~ t < k0 cs / phi cs ->
          0 <= t
          /\ from_linear cs t
             = (p <- math_pow t (1 / 2.4) ;; Ok ((1 + 0.055) * p - 0.055)))
    /\ (forall t,
          t < 0 ->
          to_linear cs t = Ok (t / phi cs)
          /\ from_linear cs t = Ok (t * phi cs)).
Proof.
  exact (builtin_transfer_total "sRGB"%string _ sRGB_in_table).
Defined.

(** ** The identity transform *)

Lemma transform_rgb_identity (c : RGB) : transform_rgb M33f_identity c = c.
Proof.
  destruct c as [x y z]. unfold transform_rgb; simpl. f_equal; ring.
Qed.

Lemma RGB_close_refl (eps : R) (c : RGB) : 0 <= eps -> RGB_close eps c c.
Proof.
  intros H. repeat split; now apply Rabs_self_le.
Qed.

Lemma unit_cube_bounded (c : RGB) : unit_cube c -> RGB_bounded c.
Proof.
  unfold unit_cube, RGB_bounded. intros (Hr & Hg & Hb).
  split; [lra | split; lra].
Qed.

(** With coherent transfer coefficients and a matrix that [invert]
    accepts, transforming from a space to itself returns the input. *)
Lemma transform_color_same (S : ColorSpace) (rgb : RGB) :
  transfer_wf S ->
  ~ Rabs (det (rgb_to_xyz S)) < 1e-10 ->
  RGB_bounded rgb ->
  transform_color S S rgb = Ok rgb.
Proof.
  intros Hwf Hm (Bx & By & Bz). destruct rgb as [x y z].
  unfold transform_color; cbn [r g b] in *.
  destruct (transfer_round_trip S Hwf x Bx) as (lx & Ex & Fx).
  destruct (transfer_round_trip S Hwf y By) as (ly & Ey & Fy).
  destruct (transfer_round_trip S Hwf z Bz) as (lz & Ez & Fz).
  rewrite Ex, Ey, Ez; cbn [bind].
  unfold get_xyz_to_rgb_matrix, get_rgb_to_xyz_matrix.
  rewrite (invert_ok _ Hm); cbn [bind].
  rewrite multiply_inverse_l by (now apply not_small_nonzero).
  rewrite transform_rgb_identity. cbn [r g b].
  rewrite Fx, Fy, Fz. reflexivity.
Qed.

(** C1.  After [init_color_space_library], run from any state, for any
    color space the registry returns and any RGB value in the unit
    cube, transforming from the space to itself returns a value within
    1e-6 of the input in each component. *)
Theorem transform_color_identity
  (s0 : State) (nm : string) (S : ColorSpace) (rgb : RGB) :
  fst (get_named_color_space nm (snd (init_color_space_library s0)))
  = Ok (Some S) ->
  unit_cube rgb ->
  exists out,
    transform_color S S rgb = Ok out /\ RGB_close 1e-6 out rgb.
Proof.
  intros Hreg Hcube.
  destruct (registered_is_builtin s0 nm S Hreg) as (d & Hin & E).
  destruct (builtin_constructed nm d Hin) as (cs & E' & _ & Hwf & _ & Hm).
  rewrite E in E'. injection E' as <-.
  exists rgb. split.
  - apply transform_color_same; [exact Hwf | exact Hm |].
    now apply unit_cube_bounded.
  - apply RGB_close_refl. lra.
Qed.

Lemma transform_color_identity_witness :
  exists S out,
    fst (get_named_color_space "sRGB"%string
           (snd (init_color_space_library (mkState [])))) = Ok (Some S)
    /\ transform_color S S (mkRGB 0.5 0.25 1) = Ok out
    /\ RGB_close 1e-6 out (mkRGB 0.5 0.25 1).
Proof.
  destruct (builtin_is_registered (mkState []) _ _ sRGB_in_table) as [S HS].
  assert (Hc : unit_cube (mkRGB 0.5 0.25 1)) by (unfold unit_cube; simpl; lra).
  destruct (transform_color_identity (mkState []) "sRGB"%string S _ HS Hc)
    as (out & E & Hclose).
  exists S, out. split; [exact HS | split; [exact E | exact Hclose]].
Defined.

(** ** Checks on concrete inputs *)

Lemma derived_matrix_maps_white_witness :
  (succeeds (init_transfer (mkColorSpace sRGB_descriptor 0 0 M33f_zero)) ->
   succeeds (ColorSpace_init sRGB_descriptor))
  /\ forall cs,
       ColorSpace_init sRGB_descriptor = Ok cs ->
       transform_rgb (rgb_to_xyz cs) (mkRGB 1 1 1) = white_XYZ WP_D65.
Proof.
  destruct (rec709_invertible sRGB_descriptor eq_refl eq_refl eq_refl eq_refl)
    as (Hx & Hy & Hp & _).
  apply (derived_matrix_maps_white sRGB_descriptor).
  - exact Hx.
  - simpl in *. lra.
  - exact Hp.
Defined.

Example invert_identity : invert M33f_identity = Ok M33f_identity.
Proof.
  assert (Hd : det M33f_identity = 1) by (unfold det; simpl; ring).
  rewrite invert_ok by (rewrite Hd; apply not_small_of_le; lra).
  rewrite Hd. f_equal. apply M33f_ext; simpl; field.
Qed.

Example invert_zero : invert M33f_zero = Raise SingularMatrix.
Proof.
  apply invert_singular.
  replace (det M33f_zero) with 0 by (unfold det; simpl; ring).
  rewrite Rabs_R0. lra.
Qed.

Example xyz_to_yxy_origin : xyz_to_yxy (mkXYZ 0 0 0) = Ok (mkYxy 0 0 0).
Proof.
  unfold xyz_to_yxy; simpl.
  destruct (Req_dec_T (0 + 0 + 0) 0) as [_ | N]; [reflexivity | elim N; ring].
Qed.

Example kelvin_6500 :
  exists x y,
    kelvin_to_yxy 6500 1 = Ok (mkYxy 1 x y)
    /\ Rabs (x - 0.313) <= 0.01 /\ Rabs (y - 0.329) <= 0.01.
Proof.
  assert (Hc : clamp 1000 15000 6500 = 6500).
  { unfold clamp. destruct (Rlt_dec 6500 1000), (Rlt_dec 15000 6500); lra. }
  assert (Hx : locus_x 6500
               = cubic (-3.0258469) 2.1070379 0.2226347 0.240390 (1000 / 6500)).
  { unfold locus_x. destruct (Rlt_dec 6500 4000); [lra | reflexivity]. }
  assert (Hy : forall x, locus_y 6500 x
                         = cubic 3.0817580 (-5.87338670) 3.75112997 (-0.37001483) x).
  { intros x. unfold locus_y.
    destruct (Rlt_dec 6500 2222); [lra |]. destruct (Rlt_dec 6500 4000); [lra |].
    reflexivity. }
  eexists. eexists. split.
  - rewrite kelvin_to_yxy_clamped, Hc, Hy, Hx. reflexivity.
  - unfold cubic. split; apply Rabs_le; lra.
Qed.

Ltac not_candidate :=
  let H := fresh in
  intros (H & (? & ?) & (? & ?) & (? & ?) & (? & ?));
  simpl in *; unfold WP_D65, WP_ACES, Chr in *; simpl in *;
  first [ lra
        | unfold Rabs in *;
          repeat match goal with
                 | K : context [Rcase_abs ?x] |- _ => destruct (Rcase_abs x)
                 end;
          lra ].

Ltac is_candidate :=
  unfold linear_candidate, within; simpl; unfold WP_D65, WP_ACES, Chr; simpl;
  repeat split; try lra;
  unfold Rabs; match goal with |- context [Rcase_abs ?x] => destruct (Rcase_abs x) end;
  lra.

(** The Rec.709 primaries with D65 match four entries of the table;
    the scan returns the first of them, which is not [lin_srgb]. *)
Example match_rec709_primaries :
  match_linear_color_space (Chr 0.640 0.330) (Chr 0.300 0.600) (Chr 0.150 0.060)
    WP_D65 1e-4 = Some "lin_rec709"%string.
Proof.
  unfold match_linear_color_space, COLOR_SPACES.
  do 10 (rewrite scan_step_miss by not_candidate).
  apply scan_step_hit. is_candidate.
Qed.

Example match_nothing :
  match_linear_color_space (Chr 0.5 0.5) (Chr 0.5 0.5) (Chr 0.5 0.5)
    (Chr 0.5 0.5) 1e-4 = None.
Proof.
  apply scan_none. unfold COLOR_SPACES. cbn [In]. intros e H.
  repeat (destruct H as [H | H]; [subst e; not_candidate |]).
  contradiction.
Qed.

(** * Further properties *)

(** ** Laws of the matrix operations *)

Lemma det_multiply (a c : M33f) : det (multiply a c) = det a * det c.
Proof. unfold det; simpl. ring. Qed.

Lemma multiply_assoc (a c e : M33f) :
  multiply (multiply a c) e = multiply a (multiply c e).
Proof. apply M33f_ext; simpl; ring. Qed.

Lemma multiply_identity_l (a : M33f) : multiply M33f_identity a = a.
Proof. destruct a; apply M33f_ext; simpl; ring. Qed.

Lemma multiply_identity_r (a : M33f) : multiply a M33f_identity = a.
Proof. destruct a; apply M33f_ext; simpl; ring. Qed.

(** X1.  [multiply] is associative, has the identity matrix as unit on
    both sides, and multiplies determinants. *)
Theorem multiply_monoid (a c e : M33f) :
  multiply (multiply a c) e = multiply a (multiply c e)
  /\ multiply M33f_identity a = a
  /\ multiply a M33f_identity = a
  /\ det (multiply a c) = det a * det c.
Proof.
  split; [apply multiply_assoc |].
  split; [apply multiply_identity_l |].
  split; [apply multiply_identity_r | apply det_multiply].
Qed.

Lemma transform_rgb_multiply (a c : M33f) (v : RGB) :
  transform_rgb (multiply a c) v = transform_rgb a (transform_rgb c v).
Proof.
  unfold transform_rgb; simpl. f_equal; ring.
Qed.

(** X2.  Transforming by a product is transforming by the right factor
    and then by the left one, and [transform_rgb] is linear. *)
Theorem transform_rgb_composes (a c : M33f) (u v : RGB) (k : R) :
  transform_rgb (multiply a c) v = transform_rgb a (transform_rgb c v)
  /\ transform_rgb a (mkRGB (r u + k * r v) (g u + k * g v) (b u + k * b v))
     = mkRGB (r (transform_rgb a u) + k * r (transform_rgb a v))
             (g (transform_rgb a u) + k * g (transform_rgb a v))
             (b (transform_rgb a u) + k * b (transform_rgb a v)).
Proof.
  split; [apply transform_rgb_multiply |].
  unfold transform_rgb; simpl. f_equal; ring.
Qed.

Lemma det_adjugate_over_det (s : M33f) :
  det s <> 0 -> det (adjugate_over_det s (1 / det s)) = 1 / det s.
Proof.
  intros H. unfold det in *; simpl. field. exact H.
Qed.

Lemma adjugate_over_det_involutive (s : M33f) :
  det s <> 0 ->
  adjugate_over_det (adjugate_over_det s (1 / det s)) (1 / (1 / det s)) = s.
Proof.
  intros H. destruct s. apply M33f_ext; unfold det in *; simpl in *; field; exact H.
Qed.

Lemma Rabs_inv_small (x : R) :
  x <> 0 -> (Rabs (1 / x) < 1e-10 <-> 1e10 < Rabs x).
Proof.
  intros Hx. unfold Rdiv. rewrite Rmult_1_l, Rabs_inv.
  pose proof (Rabs_pos_lt x Hx) as Hp.
  split; intros H.
  - apply (Rmult_lt_reg_r (/ Rabs x)); [now apply Rinv_0_lt_compat |].
    rewrite Rinv_r by lra.
    apply (Rmult_lt_compat_l 1e10) in H; lra.
  - apply (Rmult_lt_reg_r (Rabs x)); [exact Hp |].
    rewrite Rinv_l by lra. lra.
Qed.

Lemma invert_inv (s inv : M33f) :
  invert s = Ok inv ->
  ~ Rabs (det s) < 1e-10 /\ inv = adjugate_over_det s (1 / det s).
Proof.
  intros E. destruct (Rlt_dec (Rabs (det s)) 1e-10) as [A | A].
  - rewrite (invert_singular s A) in E. discriminate.
  - rewrite (invert_ok s A) in E. injection E as <-. now split.
Qed.

(** X3.  Inverting twice gives the matrix back exactly when its
    determinant is at most 1e10 in absolute value; a larger determinant
    makes the first inverse fail the determinant test of the second. *)
Theorem invert_twice (s inv : M33f) :
  invert s = Ok inv ->
  (Rabs (det s) <= 1e10 -> invert inv = Ok s)
  /\ (1e10 < Rabs (det s) -> invert inv = Raise SingularMatrix).
Proof.
  intros E.
  destruct (invert_inv s inv E) as [Hb Hinv]. subst inv.
  pose proof (not_small_nonzero _ Hb) as Hnz.
  pose proof (det_adjugate_over_det s Hnz) as Hd.
  split; intros H.
  - rewrite invert_ok.
    + rewrite Hd. now rewrite adjugate_over_det_involutive.
    + rewrite Hd. intros A. apply Rabs_inv_small in A; [lra | exact Hnz].
  - apply invert_singular. rewrite Hd. now apply Rabs_inv_small.
Qed.

Lemma invert_twice_witness :
  (Rabs (det M33f_identity) <= 1e10 -> invert M33f_identity = Ok M33f_identity)
  /\ (1e10 < Rabs (det M33f_identity) ->
      invert M33f_identity = Raise SingularMatrix).
Proof.
  exact (invert_twice M33f_identity M33f_identity invert_identity).
Defined.

(** A matrix of determinant 1e12 inverts once and not twice. *)
Example invert_twice_large :
  exists inv,
    invert (mkM33f 1e4 0 0 0 1e4 0 0 0 1e4) = Ok inv
    /\ invert inv = Raise SingularMatrix.
Proof.
  assert (Hd : det (mkM33f 1e4 0 0 0 1e4 0 0 0 1e4) = 1e12)
    by (unfold det; simpl; lra).
  assert (Hb : ~ Rabs (det (mkM33f 1e4 0 0 0 1e4 0 0 0 1e4)) < 1e-10)
    by (rewrite Hd; apply not_small_of_le; lra).
  eexists. split; [apply (invert_ok _ Hb) |].
  apply invert_singular. rewrite det_adjugate_over_det by (rewrite Hd; lra).
  rewrite Hd. rewrite Rabs_pos_eq; lra.
Qed.

(** ** How construction fails *)

Lemma log_argument_sign (ga a : R) :
  ga <> 1 -> 0 < a ->
  (0 < ga * a / (ga + ga * a - 1 - a) <-> ~ 0 <= ga < 1).
Proof.
  intros Hg Ha.
  assert (Hden : ga + ga * a - 1 - a = (ga - 1) * (1 + a)) by ring.
  rewrite Hden.
  destruct (Rlt_dec 1 ga) as [H1 | H1].
  - split; [lra |]. intros _. apply Rdiv_lt_0_compat; nra.
  - assert (Hlt : ga < 1) by lra.
    assert (Hneg : (ga - 1) * (1 + a) < 0) by nra.
    assert (Hinv : / ((ga - 1) * (1 + a)) < 0) by now apply Rinv_lt_0_compat.
    unfold Rdiv. split.
    + intros Hpos [H0 _]. assert (0 <= ga * a) by nra. nra.
    + intros Hn. assert (ga < 0) by lra. assert (ga * a < 0) by nra. nra.
Qed.

Lemma log_defined_positive (ga a : R) :
  log_defined ga a -> 0 < log_argument ga a.
Proof.
  intros [Ha Hg]. unfold log_argument.
  apply (log_argument_sign ga a); lra.
Qed.

Lemma init_transfer_outcome (self : ColorSpace) :
  let ga := gamma (descriptor self) in
  let a := linear_bias (descriptor self) in
  (transfer_undefined ga a /\ init_transfer self = Raise MathDomainError)
  \/ (transfer_overflows ga a /\ init_transfer self = Raise OverflowError)
  \/ (transfer_underflows ga a /\ init_transfer self = Raise ZeroDivisionError)
  \/ (transfer_computes ga a /\ succeeds (init_transfer self)).
Proof.
  intros ga a. pose proof float_tiny_small as Ht. pose proof float_max_large as Hm.
  unfold init_transfer, transfer_computes, transfer_overflows,
    transfer_underflows, transfer_undefined, log_defined.
  fold ga a.
  destruct (Req_dec_T ga 1) as [E1 | N1].
  - do 3 right. split; [| now eexists].
    split; [lra |]. split; [intros [[_ H] _] | intros [[_ H] _]]; lra.
  - destruct (Rle_dec a 0) as [L | L].
    + do 3 right. split; [| now eexists].
      split; [lra |]. split; [intros [[H _] _] | intros [[H _] _]]; lra.
    + assert (Ha : 0 < a) by lra.
      assert (Hden : ga + ga * a - 1 - a <> 0).
      { replace (ga + ga * a - 1 - a) with ((ga - 1) * (1 + a)) by ring.
        apply Rmult_integral_contrapositive_currified; lra. }
      rewrite (fdiv_ok a (ga - 1)) by lra. cbn [bind].
      rewrite (fdiv_ok (ga * a)) by exact Hden. cbn [bind].
      fold (log_argument ga a). set (q := log_argument ga a).
      unfold math_log.
      destruct (Rlt_dec 0 q) as [Hq | Hq].
      * assert (Hdef : ga < 0 \/ 1 < ga).
        { apply (log_argument_sign ga a N1 Ha) in Hq. lra. }
        assert (Ee : exp (ln q * ga) = transfer_power ga a).
        { unfold transfer_power, Rpower. fold q. now rewrite (Rmult_comm ga). }
        cbn [bind]. unfold math_exp. rewrite Ee.
        pose proof (Rpower_pos q ga) as Hpos. fold (transfer_power ga a) in Hpos.
        destruct (Rle_dec (transfer_power ga a) float_tiny) as [Hu | Hu].
        -- right. right. left. cbn [bind]. rewrite fdiv_zero.
           split; [| reflexivity]. split; [split; assumption | exact Hu].
        -- destruct (is_finite_dec (ln q * ga)) as [Fx | Fx].
           ++ destruct (is_finite_dec (transfer_power ga a)) as [Fp | Fp].
              ** do 3 right. cbn [bind].
                 rewrite (fdiv_ok a) by lra. cbn [bind].
                 rewrite fdiv_ok by lra.
                 split; [| now eexists].
                 split; [lra |]. split.
                 --- intros (_ & _ & Ho). unfold is_finite in Fp.
                     rewrite Rabs_pos_eq in Fp by lra. lra.
                 --- intros [_ H]. contradiction.
              ** right. left. cbn [bind]. split; [| reflexivity].
                 split; [split; assumption |]. split; [exact Fx |].
                 apply Rnot_le_lt. intros Hle. apply Fp. unfold is_finite.
                 rewrite Rabs_pos_eq by lra. exact Hle.
           ++ do 3 right. cbn [bind].
              rewrite (fdiv_ok a) by lra. cbn [bind].
              rewrite fdiv_ok by lra.
              split; [| now eexists].
              split; [lra |]. split.
              ** intros (_ & F & _). contradiction.
              ** intros [_ H]. contradiction.
      * left. split; [| reflexivity]. split; [exact Ha |].
        destruct (Rle_dec 0 ga) as [H0 | H0]; [| exfalso].
        -- destruct (Rlt_dec ga 1) as [Hlt | Hge]; [lra | exfalso].
           apply Hq. apply (log_argument_sign ga a N1 Ha). lra.
        -- apply Hq. apply (log_argument_sign ga a N1 Ha). lra.
Qed.

(** The ways the transfer initialisation fails exclude one another. *)
Lemma transfer_failures_exclusive (ga a : R) :
  (transfer_undefined ga a -> ~ transfer_overflows ga a /\ ~ transfer_underflows ga a)
  /\ (transfer_overflows ga a -> ~ transfer_underflows ga a).
Proof.
  pose proof float_tiny_small as Ht. pose proof float_max_large as Hm.
  unfold transfer_undefined, transfer_overflows, transfer_underflows, log_defined.
  split.
  - intros [_ Hg]. split; intros [[_ H] _]; lra.
  - intros (_ & _ & Ho) [_ Hu]. lra.
Qed.

(** What the transfer initialisation raises, and when. *)
Lemma init_transfer_raises (self : ColorSpace) (e : exn) :
  let ga := gamma (descriptor self) in
  let a := linear_bias (descriptor self) in
  init_transfer self = Raise e <->
  (e = MathDomainError /\ transfer_undefined ga a)
  \/ (e = OverflowError /\ transfer_overflows ga a)
  \/ (e = ZeroDivisionError /\ transfer_underflows ga a).
Proof.
  cbv zeta.
  destruct (transfer_failures_exclusive (gamma (descriptor self))
              (linear_bias (descriptor self))) as [X1 X2].
  pose proof (init_transfer_outcome self) as H. cbv zeta in H.
  destruct H as [[Hu E] | [[Ho E] | [[Hz E] | [(N1 & N2 & N3) [cs E]]]]];
    rewrite E.
  - destruct (X1 Hu) as [No Nz]. split.
    + intros H; injection H as <-. left. now split.
    + intros [[-> _] | [[_ H] | [_ H]]]; [reflexivity | contradiction | contradiction].
  - split.
    + intros H; injection H as <-. right. left. now split.
    + intros [[_ H] | [[-> _] | [_ H]]]; [| reflexivity |].
      * destruct (X1 H) as [No _]. contradiction.
      * destruct (X2 Ho H).
  - split.
    + intros H; injection H as <-. right. right. now split.
    + intros [[_ H] | [[_ H] | [-> _]]]; [| | reflexivity].
      * destruct (X1 H) as [_ Nz]. contradiction.
      * destruct (X2 H Hz).
  - split; [discriminate |].
    intros [[_ H] | [[_ H] | [_ H]]]; contradiction.
Qed.



(** Both of the range failures happen.  With gamma -3 and bias 1e-120
    the power is above 1e360, and [math.exp] overflows. *)
Example construction_exp_overflow :
  ColorSpace_init exp_overflow_descriptor = Raise OverflowError.
Proof.
  pose proof float_max_below as Hm.
  assert (Eq : log_argument (-3) 1e-120 = 3e-120 / (4 + 4e-120))
    by (unfold log_argument; field; lra).
  assert (Hq : 5e-121 <= log_argument (-3) 1e-120 <= 1e-120).
  { rewrite Eq. split.
    - apply Rmult_le_reg_r with (4 + 4e-120); [lra |].
      replace (3e-120 / (4 + 4e-120) * (4 + 4e-120)) with 3e-120 by (field; lra).
      lra.
    - apply Rmult_le_reg_r with (4 + 4e-120); [lra |].
      replace (3e-120 / (4 + 4e-120) * (4 + 4e-120)) with 3e-120 by (field; lra).
      lra. }
  set (q := log_argument (-3) 1e-120) in *.
  assert (Hov : transfer_overflows (-3) 1e-120).
  { split; [split; lra |]. fold q. split.
    - assert (Hl : - 2e120 <= ln q <= 0).
      { split.
        - pose proof (exp_ineq1_le (- ln q)) as He.
          rewrite exp_Ropp, exp_ln in He by lra.
          assert (/ q <= / 5e-121) by (apply Rinv_le_contravar; lra).
          assert (/ 5e-121 = 2e120) by lra.
          lra.
        - rewrite <- ln_1. destruct (Rle_lt_or_eq_dec q 1) as [H | H]; [lra | |].
          + left. apply ln_increasing; lra.
          + lra. }
      apply is_finite_between. nra.
    - unfold transfer_power. fold q.
      replace (-3) with (Ropp 3) by lra. rewrite Rpower_Ropp, Rpower_cube by lra.
      assert (H3 : q * q * q <= 1e-120 * 1e-120 * 1e-120).
      { assert (H2 : q * q <= 1e-120 * 1e-120)
          by (apply Rmult_le_compat; lra).
        apply Rmult_le_compat; try lra. apply Rmult_le_pos; lra. }
      assert (Hp2 : 0 < q * q) by (apply Rmult_lt_0_compat; lra).
      assert (Hp : 0 < q * q * q) by (apply Rmult_lt_0_compat; lra).
      assert (/ (1e-120 * 1e-120 * 1e-120) <= / (q * q * q))
        by (apply Rinv_le_contravar; lra).
      assert (/ (1e-120 * 1e-120 * 1e-120) = 1e360) by lra.
      lra. }
  rewrite ColorSpace_init_unfold.
  pose proof (init_transfer_raises
                (mkColorSpace exp_overflow_descriptor 0 0 M33f_zero)
                OverflowError) as Hr.
  cbv zeta in Hr. cbn [descriptor exp_overflow_descriptor gamma linear_bias] in Hr.
  rewrite (proj2 Hr) by (right; left; split; [reflexivity | exact Hov]).
  reflexivity.
Qed.

(** With gamma 300 and bias 0.055 the power is below 1e-360, [math.exp]
    returns 0.0, and the bias is divided by it, with a white point
    whose y is not 0. *)
Example construction_exp_underflow :
  ColorSpace_init exp_underflow_descriptor = Raise ZeroDivisionError
  /\ cy (white_point exp_underflow_descriptor) <> 0.
Proof.
  split; [| simpl; lra].
  assert (Ht : 1e-330 <= float_tiny).
  { unfold float_tiny.
    let v := eval vm_compute in (2 ^ 1075)%Z in change (2 ^ 1075)%Z with v.
    lra. }
  assert (Hq : 0 < log_argument 300 0.055 <= 0.06).
  { unfold log_argument. split.
    - apply Rdiv_lt_0_compat; lra.
    - apply Rmult_le_reg_r with (300 + 300 * 0.055 - 1 - 0.055); [lra |].
      replace (300 * 0.055 / (300 + 300 * 0.055 - 1 - 0.055)
               * (300 + 300 * 0.055 - 1 - 0.055))
        with (300 * 0.055) by (field; lra).
      lra. }
  set (q := log_argument 300 0.055) in *.
  assert (Hun : transfer_underflows 300 0.055).
  { split; [split; lra |]. unfold transfer_power. fold q.
    apply Rle_trans with (Rpower 0.06 300).
    - apply Rle_Rpower_l; lra.
    - replace 300 with (INR 300) by (rewrite INR_IZR_INZ; reflexivity).
      rewrite Rpower_pow by lra.
      change 300%nat with (10 * 30)%nat. rewrite pow_mult.
      apply Rle_trans with (1e-12 ^ 30).
      + apply pow_incr. split; [apply pow_le; lra | simpl; lra].
      + simpl. lra. }
  rewrite ColorSpace_init_unfold.
  pose proof (init_transfer_raises
                (mkColorSpace exp_underflow_descriptor 0 0 M33f_zero)
                ZeroDivisionError) as Hr.
  cbv zeta in Hr. cbn [descriptor exp_underflow_descriptor gamma linear_bias] in Hr.
  rewrite (proj2 Hr) by (right; right; split; [reflexivity | exact Hun]).
  reflexivity.
Qed.

(** ** More on the transfer function *)

Lemma init_transfer_bias (self cs : ColorSpace) :
  transfer_parameters_ok (descriptor self) ->
  init_transfer self = Ok cs ->
  k0 cs = 0 -> linear_bias (descriptor self) = 0.
Proof.
  intros [Hg Ha]. unfold init_transfer.
  set (a := linear_bias (descriptor self)) in *.
  set (ga := gamma (descriptor self)) in *.
  destruct (Req_dec_T ga 1) as [E1 | N1].
  - intros E. injection E as <-. simpl. lra.
  - destruct (Rle_dec a 0) as [L | L].
    + intros _ _. destruct Ha as [? | [? _]]; lra.
    + assert (0 < a /\ 1 < ga) as [Hap Hg1] by (destruct Ha as [? | ?]; lra).
      rewrite (fdiv_ok a (ga - 1)) by lra. cbn [bind].
      destruct (fdiv _ _); cbn [bind]; [| discriminate].
      destruct (math_log _); cbn [bind]; [| discriminate].
      destruct (math_exp _); cbn [bind]; [| discriminate].
      destruct (fdiv _ _); cbn [bind]; [| discriminate].
      destruct (fdiv _ _); cbn [bind]; [| discriminate].
      intros E. injection E as <-. cbn [k0 set_transfer]. intros Hk. exfalso.
      assert (0 < a / (ga - 1)) by (apply Rdiv_lt_0_compat; lra). lra.
Qed.

Lemma builtin_constructed_bias (nm : string) (d : ColorSpaceDescriptor) :
  In (nm, d) COLOR_SPACES ->
  exists cs,
    ColorSpace_init d = Ok cs
    /\ descriptor cs = d
    /\ transfer_wf cs
    /\ (k0 cs = 0 -> linear_bias (descriptor cs) = 0)
    /\ ~ Rabs (det (rgb_to_xyz cs)) < 1e-10.
Proof.
  intros Hin.
  destruct (builtin_constructed nm d Hin) as (cs & E & Ed & Hwf & _ & Hm).
  destruct (builtin_descriptor nm d Hin) as (_ & _ & Hp).
  exists cs. split; [exact E |]. split; [exact Ed |]. split; [exact Hwf |].
  split; [| exact Hm].
  rewrite ColorSpace_init_unfold in E.
  destruct (init_transfer _) as [cs0 |] eqn:E0; simpl in E; [| discriminate].
  pose proof (init_transfer_bias (mkColorSpace d 0 0 M33f_zero) cs0 Hp E0) as Hb.
  simpl in Hb.
  destruct (init_transfer_frame _ _ E0) as [Ed0 _]. simpl in Ed0.
  assert (Hk : k0 cs = k0 cs0).
  { unfold init_matrix in E. destruct (Req_dec_T _ 0).
    - now injection E as <-.
    - apply derive_inv in E. destruct E as (_ & _ & ->). reflexivity. }
  rewrite Hk, Ed. exact Hb.
Qed.

Section TransferInverse.
Variable cs : ColorSpace.
Hypothesis wf : transfer_wf cs.
Hypothesis bias : k0 cs = 0 -> linear_bias (descriptor cs) = 0.

Let a := linear_bias (descriptor cs).
Let ga := gamma (descriptor cs).

Lemma breakpoint_power :
  math_pow ((k0 cs + a) / (1 + a)) ga = Ok (k0 cs / phi cs).
Proof.
  destruct (wf_facts cs wf) as (Hg & Ha & Hp & Hk & Hq).
  fold ga in Hg. fold a in Ha.
  destruct wf as (_ & _ & _ & _ & [E0 | [Hb0 Ec]]).
  - rewrite E0. fold a in bias. rewrite (bias E0).
    replace ((0 + 0) / (1 + 0)) with 0 by (field; lra).
    rewrite math_pow_zero by lra. f_equal. unfold Rdiv. ring.
  - fold a ga in Hb0, Ec.
    pose proof (to_linear_base_bounded cs wf (k0 cs) (proj2 Hk)) as Hbb.
    fold a in Hbb.
    rewrite math_pow_bounded by lra. now rewrite Ec.
Qed.

(** At the breakpoint the power branch returns what the linear formula
    gives there. *)
Lemma to_linear_at_breakpoint : to_linear cs (k0 cs) = Ok (k0 cs / phi cs).
Proof.
  rewrite (to_linear_above cs wf) by lra. apply breakpoint_power.
Qed.

Lemma from_linear_encoded_ge (u : R) :
  ~ u < k0 cs / phi cs -> 0 < u ->
  ~ (1 + a) * Rpower u (1 / ga) - a < k0 cs.
Proof.
  destruct (wf_facts cs wf) as (Hg & Ha & Hp & Hk & Hq).
  fold ga in Hg. fold a in Ha. intros Hu Hpos.
  pose proof (Rpower_pos u (1 / ga)) as Hpp.
  destruct wf as (_ & _ & _ & _ & [E0 | [Hb0 Ec]]).
  - pose proof (bias E0) as Ha0. fold a in Ha0. rewrite E0, Ha0.
    intros A. lra.
  - fold a ga in Hb0, Ec.
    assert (Hi : 0 <= 1 / ga) by (apply Rlt_le, Rdiv_lt_0_compat; lra).
    assert (Hle : Rpower (Rpower ((k0 cs + a) / (1 + a)) ga) (1 / ga)
                  <= Rpower u (1 / ga)).
    { apply Rle_Rpower_l; [exact Hi |]. split; [apply Rpower_pos | lra]. }
    rewrite Rpower_mult in Hle.
    replace (ga * (1 / ga)) with 1 in Hle by (field; lra).
    rewrite Rpower_1 in Hle by exact Hb0.
    assert (Hk0 : (1 + a) * ((k0 cs + a) / (1 + a)) - a = k0 cs) by (field; lra).
    assert ((1 + a) * ((k0 cs + a) / (1 + a)) <= (1 + a) * Rpower u (1 / ga)).
    { apply Rmult_le_compat_l; lra. }
    lra.
Qed.

(** What [from_linear] returns, branch by branch. *)
Lemma from_linear_value (u : R) :
  (u < k0 cs / phi cs /\ from_linear cs u = Ok (u * phi cs))
  \/ (~ u < k0 cs / phi cs /\ 0 < u
      /\ from_linear cs u = Ok ((1 + a) * Rpower u (1 / ga) - a))
  \/ (u = 0 /\ k0 cs = 0 /\ a = 0 /\ from_linear cs u = Ok 0).
Proof.
  destruct (wf_facts cs wf) as (Hg & Ha & Hp & Hk & Hq).
  fold ga in Hg. fold a in Ha.
  pose proof (root_exponent cs wf) as Hi. fold ga in Hi.
  destruct (Rlt_dec u (k0 cs / phi cs)) as [Hu | Hu].
  - left. split; [exact Hu | apply from_linear_below; lra].
  - right. rewrite (from_linear_above cs wf u Hu). fold a ga.
    destruct (from_linear_arg_nonneg cs wf u Hu) as [Hpos | Hz].
    + left. split; [exact Hu |]. split; [exact Hpos |].
      rewrite math_pow_root by lra. reflexivity.
    + right. subst u.
      assert (Hk0 : k0 cs = 0).
      { assert (k0 cs / phi cs <= 0) by lra.
        assert (k0 cs / phi cs * phi cs <= 0 * phi cs)
          by (apply Rmult_le_compat_r; lra).
        replace (k0 cs / phi cs * phi cs) with (k0 cs) in * by (field; lra).
        lra. }
      fold a in bias. pose proof (bias Hk0) as Ha0.
      split; [reflexivity |]. split; [exact Hk0 |]. split; [exact Ha0 |].
      rewrite math_pow_zero by lra. cbn [bind]. f_equal. rewrite Ha0. ring.
Qed.

(** Encoding and decoding again gives the value back, on every linear
    value that is not beyond the largest finite float. *)
Lemma transfer_round_trip_encoded (u : R) :
  u <= float_max ->
  exists v, from_linear cs u = Ok v /\ to_linear cs v = Ok u.
Proof.
  destruct (wf_facts cs wf) as (Hg & Ha & Hp & Hk & Hq).
  fold ga in Hg. fold a in Ha. intros Hfin.
  destruct (from_linear_value u) as [[Hu E] | [(Hu & Hpos & E) | (-> & Hk0 & Ha0 & E)]].
  - exists (u * phi cs). split; [exact E |].
    rewrite to_linear_below.
    + f_equal. field. lra.
    + lra.
    + apply (Rmult_lt_compat_r (phi cs)) in Hu; [| exact Hp].
      replace (k0 cs / phi cs * phi cs) with (k0 cs) in Hu by (field; lra).
      exact Hu.
  - eexists. split; [exact E |].
    rewrite (to_linear_above cs wf) by (now apply from_linear_encoded_ge).
    fold a ga.
    replace (((1 + a) * Rpower u (1 / ga) - a + a) / (1 + a))
      with (Rpower u (1 / ga)) by (field; lra).
    assert (Eu : Rpower (Rpower u (1 / ga)) ga = u).
    { rewrite Rpower_mult.
      replace (1 / ga * ga) with 1 by (field; lra).
      now rewrite Rpower_1. }
    rewrite math_pow_finite; [now rewrite Eu | apply Rpower_pos |].
    rewrite Eu. unfold is_finite. rewrite Rabs_pos_eq by lra. exact Hfin.
  - exists 0. split; [exact E |].
    rewrite (to_linear_above cs wf) by (rewrite Hk0; lra).
    fold a ga. rewrite Ha0.
    replace ((0 + 0) / (1 + 0)) with 0 by (field; lra).
    apply math_pow_zero. lra.
Qed.

(** A linear value whose encoding is at most 1e100 is a finite float. *)
Lemma encoded_bounded_finite (u v : R) :
  from_linear cs u = Ok v -> v <= 1e100 -> u <= float_max.
Proof.
  destruct (wf_facts cs wf) as (Hg & Ha & Hp & Hk & Hq).
  fold ga in Hg. fold a in Ha. intros E Hv.
  pose proof float_max_large as Hm.
  destruct (from_linear_value u) as [[Hu E'] | [(Hu & Hpos & E') | (-> & _)]];
    [| | lra]; rewrite E' in E; injection E as <-.
  - assert (u * phi cs < k0 cs).
    { apply (Rmult_lt_compat_r (phi cs)) in Hu; [| exact Hp].
      replace (k0 cs / phi cs * phi cs) with (k0 cs) in Hu by (field; lra).
      exact Hu. }
    destruct wf as (_ & _ & _ & _ & [E0 | [Hb0 Ec]]).
    + rewrite E0 in Hu. unfold Rdiv in Hu. rewrite Rmult_0_l in Hu. lra.
    + fold a ga in Hb0, Ec. rewrite Ec in Hu.
      pose proof (to_linear_base_bounded cs wf (k0 cs) (proj2 Hk)) as Hbb.
      fold a in Hbb.
      pose proof (Rpower_finite ((k0 cs + a) / (1 + a)) ga) as Hf.
      unfold is_finite in Hf. rewrite Rabs_pos_eq in Hf
        by apply Rlt_le, Rpower_pos.
      assert (Rpower ((k0 cs + a) / (1 + a)) ga <= float_max)
        by (apply Hf; lra).
      lra.
  - set (w := Rpower u (1 / ga)) in *.
    assert (Hw : 0 < w) by apply Rpower_pos.
    assert (Eu : Rpower w ga = u).
    { unfold w. rewrite Rpower_mult.
      replace (1 / ga * ga) with 1 by (field; lra).
      now rewrite Rpower_1. }
    assert (Hwb : w <= 1e100) by nra.
    pose proof (Rpower_finite w ga) as Hf.
    unfold is_finite in Hf. rewrite Rabs_pos_eq in Hf
      by apply Rlt_le, Rpower_pos.
    rewrite <- Eu. apply Hf; lra.
Qed.

(** Decoding an encoded value that is at most 1e100 gives the linear
    value back. *)
Lemma transfer_round_trip_bounded (u v : R) :
  from_linear cs u = Ok v -> v <= 1e100 -> to_linear cs v = Ok u.
Proof.
  intros E Hv.
  destruct (transfer_round_trip_encoded u (encoded_bounded_finite u v E Hv))
    as (v' & E' & T).
  rewrite E in E'. injection E' as <-. exact T.
Qed.

Lemma to_linear_value (t l : R) :
  to_linear cs t = Ok l ->
  (t < k0 cs -> l = t / phi cs)
  /\ (~ t < k0 cs -> k0 cs / phi cs <= l).
Proof.
  destruct (wf_facts cs wf) as (Hg & Ha & Hp & Hk & Hq).
  fold ga in Hg. fold a in Ha.
  destruct (Rlt_dec t (k0 cs)) as [Ht | Ht].
  - rewrite to_linear_below by lra. intros E; injection E as <-.
    split; [reflexivity | contradiction].
  - rewrite (to_linear_above cs wf t Ht). fold a ga.
    pose proof (to_linear_base_nonneg cs wf t Ht) as Hb. fold a in Hb.
    intros E. split; [contradiction |]. intros _.
    destruct Hb as [Hb | Hb].
    + destruct (math_pow_pos_cases _ ga Hb) as [E' | (E' & _)];
        rewrite E' in E; [| discriminate].
      injection E as <-.
      destruct wf as (_ & _ & _ & _ & [E0 | [Hb0 Ec]]).
      * rewrite E0. unfold Rdiv at 1. rewrite Rmult_0_l.
        apply Rlt_le, Rpower_pos.
      * fold a ga in Hb0, Ec. rewrite Ec.
        apply Rle_Rpower_l; [lra |]. split; [exact Hb0 |].
        unfold Rdiv. apply Rmult_le_compat_r.
        -- apply Rlt_le, Rinv_0_lt_compat. lra.
        -- lra.
    + rewrite <- Hb in E. rewrite math_pow_zero in E by lra.
      injection E as <-.
      assert (Ht0 : t + a = 0).
      { assert (H0 : (t + a) / (1 + a) * (1 + a) = 0) by (rewrite <- Hb; ring).
        replace ((t + a) / (1 + a) * (1 + a)) with (t + a) in H0 by (field; lra).
        exact H0. }
      assert (Hk0 : k0 cs = 0) by lra.
      rewrite Hk0. unfold Rdiv. rewrite Rmult_0_l. lra.
Qed.

(** [to_linear] is strictly increasing where it returns. *)
Lemma to_linear_increasing (t1 t2 l1 l2 : R) :
  t1 < t2 -> to_linear cs t1 = Ok l1 -> to_linear cs t2 = Ok l2 -> l1 < l2.
Proof.
  destruct (wf_facts cs wf) as (Hg & Ha & Hp & Hk & Hq).
  fold ga in Hg. fold a in Ha. intros Hlt E1 E2.
  assert (Hdiv : forall x y, x < y -> x / phi cs < y / phi cs).
  { intros x y H. unfold Rdiv. apply Rmult_lt_compat_r;
      [now apply Rinv_0_lt_compat | exact H]. }
  destruct (Rlt_dec t2 (k0 cs)) as [H2 | H2].
  - rewrite to_linear_below in E1, E2 by lra.
    injection E1 as <-. injection E2 as <-. now apply Hdiv.
  - destruct (Rlt_dec t1 (k0 cs)) as [H1 | H1].
    + rewrite to_linear_below in E1 by lra. injection E1 as <-.
      destruct (to_linear_value t2 l2 E2) as (_ & Hge).
      specialize (Hge H2). pose proof (Hdiv _ _ H1). lra.
    + rewrite (to_linear_above cs wf) in E1, E2 by assumption.
      fold a ga in E1, E2.
      pose proof (to_linear_base_nonneg cs wf t1 H1) as Hb1. fold a in Hb1.
      assert (Hb : (t1 + a) / (1 + a) < (t2 + a) / (1 + a)).
      { unfold Rdiv. apply Rmult_lt_compat_r;
          [apply Rinv_0_lt_compat; lra | lra]. }
      assert (Hb2 : 0 < (t2 + a) / (1 + a)) by lra.
      destruct (math_pow_pos_cases _ ga Hb2) as [E' | (E' & _)];
        rewrite E' in E2; [| discriminate].
      injection E2 as <-.
      destruct Hb1 as [Hb1 | Hb1].
      * destruct (math_pow_pos_cases _ ga Hb1) as [E'' | (E'' & _)];
          rewrite E'' in E1; [| discriminate].
        injection E1 as <-.
        apply Rlt_Rpower_l; [lra | lra].
      * rewrite <- Hb1 in E1. rewrite math_pow_zero in E1 by lra.
        injection E1 as <-. apply Rpower_pos.
Qed.

(** So is [from_linear], on the whole real line. *)
Lemma from_linear_increasing (u1 u2 v1 v2 : R) :
  u1 < u2 -> from_linear cs u1 = Ok v1 -> from_linear cs u2 = Ok v2 -> v1 < v2.
Proof.
  destruct (wf_facts cs wf) as (Hg & Ha & Hp & Hk & Hq).
  fold ga in Hg. fold a in Ha.
  pose proof (root_exponent cs wf) as Hi. fold ga in Hi.
  intros Hlt E1 E2.
  assert (Hkq : k0 cs / phi cs * phi cs = k0 cs) by (field; lra).
  destruct (from_linear_value u2)
    as [[H2 F2] | [(H2 & P2 & F2) | (Z2 & K2 & A2 & F2)]];
    rewrite F2 in E2; injection E2 as <-;
    (destruct (from_linear_value u1)
      as [[H1 F1] | [(H1 & P1 & F1) | (Z1 & K1 & A1 & F1)]];
     rewrite F1 in E1; injection E1 as <-).
  - apply Rmult_lt_compat_r; lra.
  - lra.
  - rewrite K1 in H2. unfold Rdiv in H2. rewrite Rmult_0_l in H2. lra.
  - pose proof (from_linear_encoded_ge u2 H2 P2) as Hge.
    assert (u1 * phi cs < k0 cs / phi cs * phi cs)
      by (apply Rmult_lt_compat_r; lra).
    lra.
  - assert (Rpower u1 (1 / ga) < Rpower u2 (1 / ga))
      by (apply Rlt_Rpower_l; lra).
    nra.
  - rewrite A1. pose proof (Rpower_pos u2 (1 / ga)). lra.
  - rewrite K2 in H1. unfold Rdiv in H1. rewrite Rmult_0_l in H1.
    rewrite Z2 in Hlt. assert (u1 * phi cs < 0) by nra. lra.
  - lra.
  - lra.
Qed.
End TransferInverse.

(** ** Conversions through XYZ *)

Lemma bind_assoc {A B C : Type} (x : result A) (f : A -> result B)
  (k : B -> result C) :
  bind (bind x f) k = bind x (fun a => bind (f a) k).
Proof. destruct x; reflexivity. Qed.

Lemma transform_color_decode_encode (dst src : ColorSpace) (c : RGB) :
  transform_color dst src c =
  (l <- decode src c ;;
   inv <- get_xyz_to_rgb_matrix dst ;;
   encode dst (transform_rgb (multiply inv (rgb_to_xyz src)) l)).
Proof.
  unfold transform_color, decode, get_rgb_to_xyz_matrix.
  destruct (to_linear src (r c)); [| reflexivity].
  destruct (to_linear src (g c)); [| reflexivity].
  destruct (to_linear src (b c)); reflexivity.
Qed.

Lemma rgb_to_xyz_of_decode (cs : ColorSpace) (c : RGB) :
  rgb_to_xyz_of cs c =
  (l <- decode cs c ;; Ok (XYZ_of_RGB (transform_rgb (rgb_to_xyz cs) l))).
Proof.
  unfold rgb_to_xyz_of, decode, get_rgb_to_xyz_matrix.
  destruct (to_linear cs (r c)); [| reflexivity].
  destruct (to_linear cs (g c)); [| reflexivity].
  destruct (to_linear cs (b c)); reflexivity.
Qed.

Lemma xyz_to_rgb_encode (cs : ColorSpace) (v : XYZ) :
  xyz_to_rgb cs v =
  (inv <- get_xyz_to_rgb_matrix cs ;; encode cs (transform_rgb inv (RGB_of_XYZ v))).
Proof. reflexivity. Qed.

(** X10.  For any two color spaces and any input, failing ones included,
    [transform_color] is [rgb_to_xyz] into XYZ followed by [xyz_to_rgb]
    out of it. *)
Theorem transform_color_through_xyz (dst src : ColorSpace) (c : RGB) :
  transform_color dst src c =
  (xyz <- rgb_to_xyz_of src c ;; xyz_to_rgb dst xyz).
Proof.
  rewrite transform_color_decode_encode, rgb_to_xyz_of_decode, bind_assoc.
  destruct (decode src c) as [l |]; [| reflexivity]. cbn [bind].
  rewrite xyz_to_rgb_encode.
  destruct (get_xyz_to_rgb_matrix dst) as [inv |]; [| reflexivity]. cbn [bind].
  now rewrite transform_rgb_multiply.
Qed.

Section WellFormed.
Variable cs : ColorSpace.
Hypothesis Hwf : well_formed cs.

Lemma decode_encode (c : RGB) :
  RGB_bounded c ->
  exists l, decode cs c = Ok l /\ encode cs l = Ok c.
Proof.
  destruct Hwf as (wf & _ & _). destruct c as [x y z].
  intros (Bx & By & Bz). cbn [r g b] in *.
  destruct (transfer_round_trip cs wf x Bx) as (lx & Ex & Fx).
  destruct (transfer_round_trip cs wf y By) as (ly & Ey & Fy).
  destruct (transfer_round_trip cs wf z Bz) as (lz & Ez & Fz).
  exists (mkRGB lx ly lz). unfold decode, encode; cbn [r g b].
  rewrite Ex, Ey, Ez, Fx, Fy, Fz. now split.
Qed.

Lemma decode_value (c l : RGB) :
  decode cs c = Ok l -> encode cs l = Ok c.
Proof.
  destruct Hwf as (wf & _ & _). destruct c as [x y z].
  unfold decode, encode; cbn [r g b].
  destruct (to_linear cs x) as [lx |] eqn:Ex; cbn [bind]; [| discriminate].
  destruct (to_linear cs y) as [ly |] eqn:Ey; cbn [bind]; [| discriminate].
  destruct (to_linear cs z) as [lz |] eqn:Ez; cbn [bind]; [| discriminate].
  intros E. injection E as <-. cbn [r g b].
  rewrite (transfer_round_trip_value cs wf x lx Ex),
    (transfer_round_trip_value cs wf y ly Ey),
    (transfer_round_trip_value cs wf z lz Ez).
  reflexivity.
Qed.

Lemma encode_total (l : RGB) : succeeds (encode cs l).
Proof.
  destruct Hwf as (wf & _ & _). unfold encode.
  destruct (from_linear_total cs wf (r l)) as [x Ex].
  destruct (from_linear_total cs wf (g l)) as [y Ey].
  destruct (from_linear_total cs wf (b l)) as [z Ez].
  rewrite Ex, Ey, Ez. now eexists.
Qed.

Lemma encode_decode (l c : RGB) :
  encode cs l = Ok c -> RGB_bounded c -> decode cs c = Ok l.
Proof.
  destruct Hwf as (wf & bias & _). destruct l as [x y z].
  unfold decode, encode; cbn [r g b].
  destruct (from_linear cs x) as [ex |] eqn:Ex; cbn [bind]; [| discriminate].
  destruct (from_linear cs y) as [ey |] eqn:Ey; cbn [bind]; [| discriminate].
  destruct (from_linear cs z) as [ez |] eqn:Ez; cbn [bind]; [| discriminate].
  intros E. injection E as <-. intros (Bx & By & Bz). cbn [r g b] in *.
  rewrite (transfer_round_trip_bounded cs wf bias x ex Ex Bx),
    (transfer_round_trip_bounded cs wf bias y ey Ey By),
    (transfer_round_trip_bounded cs wf bias z ez Ez Bz).
  reflexivity.
Qed.

Lemma get_xyz_to_rgb_matrix_ok :
  get_xyz_to_rgb_matrix cs
  = Ok (adjugate_over_det (rgb_to_xyz cs) (1 / det (rgb_to_xyz cs))).
Proof.
  destruct Hwf as (_ & _ & Hm). unfold get_xyz_to_rgb_matrix. now apply invert_ok.
Qed.

Lemma inverse_then_matrix (v : RGB) :
  transform_rgb (rgb_to_xyz cs)
    (transform_rgb (adjugate_over_det (rgb_to_xyz cs) (1 / det (rgb_to_xyz cs))) v)
  = v.
Proof.
  destruct Hwf as (_ & _ & Hm).
  rewrite <- transform_rgb_multiply, multiply_inverse_r
    by (now apply not_small_nonzero).
  apply transform_rgb_identity.
Qed.

Lemma matrix_then_inverse (v : RGB) :
  transform_rgb (adjugate_over_det (rgb_to_xyz cs) (1 / det (rgb_to_xyz cs)))
    (transform_rgb (rgb_to_xyz cs) v)
  = v.
Proof.
  destruct Hwf as (_ & _ & Hm).
  rewrite <- transform_rgb_multiply, multiply_inverse_l
    by (now apply not_small_nonzero).
  apply transform_rgb_identity.
Qed.
End WellFormed.

Lemma registered_well_formed (s0 : State) (nm : string) (S : ColorSpace) :
  registered (initialised s0) nm S ->
  well_formed S
  /\ exists d, In (nm, d) COLOR_SPACES /\ ColorSpace_init d = Ok S /\ descriptor S = d.
Proof.
  intros H. destruct (registered_is_builtin s0 nm S H) as (d & Hin & E).
  destruct (builtin_constructed_bias nm d Hin) as (cs & E' & Ed & Hwf & Hb & Hm).
  rewrite E in E'. injection E' as <-.
  split; [exact (conj Hwf (conj Hb Hm)) |]. now exists d.
Qed.

Lemma XYZ_RGB_XYZ (v : XYZ) : XYZ_of_RGB (RGB_of_XYZ v) = v.
Proof. now destruct v. Qed.

Lemma RGB_XYZ_RGB (c : RGB) : RGB_of_XYZ (XYZ_of_RGB c) = c.
Proof. now destruct c. Qed.

(** X11.  On a registered color space [rgb_to_xyz] returns on every
    RGB value with no component above 1e100, and [xyz_to_rgb] takes the
    result back to it; [xyz_to_rgb] returns on every XYZ value, and
    [rgb_to_xyz] takes the result back to it when that result has no
    component above 1e100. *)
Theorem rgb_xyz_round_trip (s0 : State) (nm : string) (S : ColorSpace) :
  registered (initialised s0) nm S ->
  (forall c,
      RGB_bounded c ->
      exists v, rgb_to_xyz_of S c = Ok v /\ xyz_to_rgb S v = Ok c)
  /\ (forall v,
        exists c,
          xyz_to_rgb S v = Ok c
          /\ (RGB_bounded c -> rgb_to_xyz_of S c = Ok v)).
Proof.
  intros H. destruct (registered_well_formed s0 nm S H) as [Hwf _]. split.
  - intros c Hc. destruct (decode_encode S Hwf c Hc) as (l & Ed & Ee).
    exists (XYZ_of_RGB (transform_rgb (rgb_to_xyz S) l)). split.
    + rewrite rgb_to_xyz_of_decode, Ed. reflexivity.
    + rewrite xyz_to_rgb_encode, (get_xyz_to_rgb_matrix_ok S Hwf). cbn [bind].
      rewrite RGB_XYZ_RGB, (matrix_then_inverse S Hwf). exact Ee.
  - intros v.
    destruct (encode_total S Hwf
                (transform_rgb
                   (adjugate_over_det (rgb_to_xyz S) (1 / det (rgb_to_xyz S)))
                   (RGB_of_XYZ v))) as (c & Ee).
    exists c. split.
    + rewrite xyz_to_rgb_encode, (get_xyz_to_rgb_matrix_ok S Hwf). exact Ee.
    + intros Hc. rewrite rgb_to_xyz_of_decode.
      rewrite (encode_decode S Hwf _ _ Ee Hc). cbn [bind].
      now rewrite (inverse_then_matrix S Hwf), XYZ_RGB_XYZ.
Qed.

(** The linear image of a color in another space. *)
Lemma transform_color_value (dst src : ColorSpace) (c l : RGB) :
  well_formed dst -> well_formed src ->
  decode src c = Ok l ->
  exists out,
    encode dst
      (transform_rgb
         (adjugate_over_det (rgb_to_xyz dst) (1 / det (rgb_to_xyz dst)))
         (transform_rgb (rgb_to_xyz src) l)) = Ok out
    /\ transform_color dst src c = Ok out.
Proof.
  intros Hd Hs Ed.
  destruct (encode_total dst Hd
              (transform_rgb
                 (adjugate_over_det (rgb_to_xyz dst) (1 / det (rgb_to_xyz dst)))
                 (transform_rgb (rgb_to_xyz src) l))) as (out & Ee).
  exists out. split; [exact Ee |].
  rewrite transform_color_decode_encode, Ed. cbn [bind].
  rewrite (get_xyz_to_rgb_matrix_ok dst Hd). cbn [bind].
  now rewrite transform_rgb_multiply.
Qed.

(** Between well-formed spaces [transform_color] returns on every
    color with no component above 1e100. *)
Lemma transform_color_returns (dst src : ColorSpace) (c : RGB) :
  well_formed dst -> well_formed src -> RGB_bounded c ->
  succeeds (transform_color dst src c).
Proof.
  intros Hd Hs Hc. destruct (decode_encode src Hs c Hc) as (l & Ed & _).
  destruct (transform_color_value dst src c l Hd Hs Ed) as (out & _ & E).
  now exists out.
Qed.

(** Two legs make one: when the first leg returns [mid] and [mid] has
    no component above 1e100, the second leg from [mid] is the direct
    conversion. *)
Lemma transform_color_compose (A B C : ColorSpace) (c mid : RGB) :
  well_formed A -> well_formed B -> well_formed C ->
  transform_color B A c = Ok mid ->
  RGB_bounded mid ->
  transform_color C B mid = transform_color C A c.
Proof.
  intros WA WB WC Et Hm.
  rewrite transform_color_decode_encode in Et.
  destruct (decode A c) as [l |] eqn:Ed; cbn [bind] in Et; [| discriminate].
  rewrite (get_xyz_to_rgb_matrix_ok B WB) in Et. cbn [bind] in Et.
  rewrite transform_rgb_multiply in Et.
  rewrite !transform_color_decode_encode, Ed.
  rewrite (encode_decode B WB _ _ Et Hm). cbn [bind].
  rewrite (get_xyz_to_rgb_matrix_ok C WC). cbn [bind].
  now rewrite !transform_rgb_multiply, (inverse_then_matrix B WB).
Qed.

(** A well-formed space to itself, on any input [to_linear] accepts. *)
Lemma transform_color_self (A : ColorSpace) (c l : RGB) :
  well_formed A -> decode A c = Ok l -> transform_color A A c = Ok c.
Proof.
  intros WA Ed. rewrite transform_color_decode_encode, Ed. cbn [bind].
  rewrite (get_xyz_to_rgb_matrix_ok A WA). cbn [bind].
  rewrite transform_rgb_multiply, (matrix_then_inverse A WA).
  exact (decode_value A WA c l Ed).
Qed.

(** X12.  Between registered color spaces [transform_color] returns on
    every color with no component above 1e100, and when the color [mid]
    it returns in B has none either, going on from [mid] to C is going
    from A to C, and going back from [mid] to A returns the input. *)
Theorem transform_color_transitive
  (s0 : State) (na nb nc : string) (A B C : ColorSpace) (c : RGB) :
  registered (initialised s0) na A ->
  registered (initialised s0) nb B ->
  registered (initialised s0) nc C ->
  RGB_bounded c ->
  exists mid out,
    transform_color B A c = Ok mid
    /\ transform_color C A c = Ok out
    /\ (RGB_bounded mid ->
        transform_color C B mid = Ok out
        /\ transform_color A B mid = Ok c).
Proof.
  intros HA HB HC Hc.
  destruct (registered_well_formed s0 na A HA) as [WA _].
  destruct (registered_well_formed s0 nb B HB) as [WB _].
  destruct (registered_well_formed s0 nc C HC) as [WC _].
  destruct (decode_encode A WA c Hc) as (l & Ed & _).
  destruct (transform_color_returns B A c WB WA Hc) as [mid Et].
  destruct (transform_color_returns C A c WC WA Hc) as [out Et'].
  exists mid, out. split; [exact Et |]. split; [exact Et' |].
  intros Hm. split.
  - now rewrite (transform_color_compose A B C c mid WA WB WC Et Hm).
  - rewrite (transform_color_compose A B A c mid WA WB WA Et Hm).
    exact (transform_color_self A c l WA Ed).
Qed.

(** ** The transfer function on registered color spaces *)

Lemma init_matrix_frame (self cs : ColorSpace) :
  init_matrix self = Ok cs ->
  descriptor cs = descriptor self /\ k0 cs = k0 self /\ phi cs = phi self.
Proof.
  unfold init_matrix. destruct (Req_dec_T _ 0).
  - intros E. injection E as <-. now repeat split.
  - intros E. apply derive_inv in E. destruct E as (_ & _ & ->). now repeat split.
Qed.

Lemma init_transfer_cases (self cs : ColorSpace) :
  init_transfer self = Ok cs ->
  (gamma (descriptor self) = 1 /\ k0 cs = 1e9 /\ phi cs = 1)
  \/ (gamma (descriptor self) <> 1 /\ linear_bias (descriptor self) <= 0
      /\ k0 cs = 0 /\ phi cs = 1)
  \/ (gamma (descriptor self) <> 1 /\ 0 < linear_bias (descriptor self)
      /\ k0 cs = linear_bias (descriptor self) / (gamma (descriptor self) - 1)).
Proof.
  unfold init_transfer.
  destruct (Req_dec_T _ 1) as [E1 | N1].
  - intros E. injection E as <-. left. now repeat split.
  - destruct (Rle_dec _ 0) as [L | L].
    + intros E. injection E as <-. right. left. now repeat split.
    + rewrite (fdiv_ok (linear_bias (descriptor self))
                 (gamma (descriptor self) - 1)) by lra. cbn [bind].
      destruct (fdiv _ _); cbn [bind]; [| discriminate].
      destruct (math_log _); cbn [bind]; [| discriminate].
      destruct (math_exp _); cbn [bind]; [| discriminate].
      destruct (fdiv _ _); cbn [bind]; [| discriminate].
      destruct (fdiv _ _); cbn [bind]; [| discriminate].
      intros E. injection E as <-. right. right. cbn [k0 set_transfer].
      split; [exact N1 |]. split; [lra | reflexivity].
Qed.

Lemma ColorSpace_init_cases (d : ColorSpaceDescriptor) (cs : ColorSpace) :
  ColorSpace_init d = Ok cs ->
  descriptor cs = d
  /\ ((gamma d = 1 /\ k0 cs = 1e9 /\ phi cs = 1)
      \/ (gamma d <> 1 /\ linear_bias d <= 0 /\ k0 cs = 0 /\ phi cs = 1)
      \/ (gamma d <> 1 /\ 0 < linear_bias d
          /\ k0 cs = linear_bias d / (gamma d - 1))).
Proof.
  rewrite ColorSpace_init_unfold.
  destruct (init_transfer _) as [cs0 |] eqn:E0; simpl; [| discriminate].
  intros E. destruct (init_matrix_frame _ _ E) as (Ed & Ek & Ep).
  destruct (init_transfer_frame _ _ E0) as [Ed0 _]. simpl in Ed0.
  rewrite Ed, Ek, Ep. split; [exact Ed0 |].
  exact (init_transfer_cases _ _ E0).
Qed.

Lemma builtin_bias_small (nm : string) (d : ColorSpaceDescriptor) :
  In (nm, d) COLOR_SPACES -> linear_bias d <= gamma d - 1.
Proof.
  unfold COLOR_SPACES. cbn [In]. intros H.
  repeat (destruct H as [H | H]; [injection H as <- <-; simpl; lra |]).
  contradiction.
Qed.

Lemma Rpower_one (y : R) : Rpower 1 y = 1.
Proof. unfold Rpower. now rewrite ln_1, Rmult_0_r, exp_0. Qed.

Lemma registered_decodes_one (s0 : State) (nm : string) (S : ColorSpace) :
  registered (initialised s0) nm S -> to_linear S 1 = Ok 1.
Proof.
  intros H. destruct (registered_well_formed s0 nm S H)
    as ((wf & _ & _) & d & Hin & E & Ed).
  destruct (wf_facts S wf) as (Hg & Ha & Hp & Hk & Hq).
  pose proof (builtin_bias_small nm d Hin) as Hs.
  rewrite Ed in Hg, Ha.
  destruct (ColorSpace_init_cases d S E) as (_ & [(Hg1 & Ek & Ep) | [(Hg1 & Hb & Ek & Ep) | (Hg1 & Hb & Ek)]]).
  - rewrite to_linear_below by lra. rewrite Ep. f_equal. field.
  - rewrite (to_linear_above S wf) by lra. rewrite Ed.
    replace ((1 + linear_bias d) / (1 + linear_bias d)) with 1
      by (field; lra).
    rewrite math_pow_bounded by lra. now rewrite Rpower_one.
  - assert (Hk1 : k0 S <= 1).
    { rewrite Ek. apply (Rmult_le_reg_r (gamma d - 1)); [lra |].
      replace (linear_bias d / (gamma d - 1) * (gamma d - 1)) with (linear_bias d)
        by (field; lra). lra. }
    rewrite (to_linear_above S wf) by lra. rewrite Ed.
    replace ((1 + linear_bias d) / (1 + linear_bias d)) with 1 by (field; lra).
    rewrite math_pow_bounded by lra. now rewrite Rpower_one.
Qed.

(** X6.  On a registered color space [to_linear] returns on every
    input up to 1e100, and whenever it returns [from_linear] takes its
    result back to the input; [from_linear] returns on every input, and
    [to_linear] takes its result back to the input when the input is
    not beyond the largest finite float. *)
Theorem registered_transfer_inverse (s0 : State) (nm : string) (S : ColorSpace) :
  registered (initialised s0) nm S ->
  (forall t, t <= 1e100 -> exists l, to_linear S t = Ok l /\ from_linear S l = Ok t)
  /\ (forall t l, to_linear S t = Ok l -> from_linear S l = Ok t)
  /\ (forall u, succeeds (from_linear S u))
  /\ (forall u,
        u <= float_max -> exists v, from_linear S u = Ok v /\ to_linear S v = Ok u).
Proof.
  intros H. destruct (registered_well_formed s0 nm S H) as ((wf & bias & _) & _).
  split; [| split; [| split]].
  - intros t Ht. now apply transfer_round_trip.
  - intros t l. now apply transfer_round_trip_value.
  - intros u. now apply from_linear_total.
  - intros u Hu. now apply transfer_round_trip_encoded.
Qed.

(** X7.  On a registered color space the two segments of the transfer
    function meet at the breakpoint: below [k0] [to_linear] is [t / phi],
    and at [k0] its power branch returns [k0 / phi]; [from_linear] sends
    that value back to [k0]. *)
Theorem registered_transfer_continuous (s0 : State) (nm : string) (S : ColorSpace) :
  registered (initialised s0) nm S ->
  (forall t, t < k0 S -> to_linear S t = Ok (t / phi S))
  /\ to_linear S (k0 S) = Ok (k0 S / phi S)
  /\ (forall u, u < k0 S / phi S -> from_linear S u = Ok (u * phi S))
  /\ from_linear S (k0 S / phi S) = Ok (k0 S).
Proof.
  intros H. destruct (registered_well_formed s0 nm S H) as ((wf & bias & _) & _).
  destruct (wf_facts S wf) as (Hg & Ha & Hp & Hk & Hq).
  pose proof (to_linear_at_breakpoint S wf bias) as Hb.
  split; [intros t Ht; apply to_linear_below; lra |].
  split; [exact Hb |].
  split; [intros u Hu; apply from_linear_below; lra |].
  exact (transfer_round_trip_value S wf (k0 S) _ Hb).
Qed.

(** X8.  On a registered color space [to_linear] is strictly
    increasing on the inputs up to 1e100, where it returns, and
    [from_linear] is strictly increasing on the whole real line. *)
Theorem registered_transfer_increasing (s0 : State) (nm : string) (S : ColorSpace) :
  registered (initialised s0) nm S ->
  forall t1 t2, t1 < t2 ->
    (t2 <= 1e100 ->
     exists l1 l2, to_linear S t1 = Ok l1 /\ to_linear S t2 = Ok l2 /\ l1 < l2)
    /\ (exists v1 v2, from_linear S t1 = Ok v1 /\ from_linear S t2 = Ok v2 /\ v1 < v2).
Proof.
  intros H t1 t2 Hlt.
  destruct (registered_well_formed s0 nm S H) as ((wf & bias & _) & _).
  split.
  - intros Hb.
    destruct (to_linear_returns S wf t1) as [l1 E1]; [lra |].
    destruct (to_linear_returns S wf t2 Hb) as [l2 E2].
    exists l1, l2. split; [exact E1 |]. split; [exact E2 |].
    exact (to_linear_increasing S wf t1 t2 l1 l2 Hlt E1 E2).
  - destruct (from_linear_total S wf t1) as [v1 E1].
    destruct (from_linear_total S wf t2) as [v2 E2].
    exists v1, v2. split; [exact E1 |]. split; [exact E2 |].
    exact (from_linear_increasing S wf bias t1 t2 v1 v2 Hlt E1 E2).
Qed.

(** X9.  On a registered color space of gamma 1 both transfer functions
    are the identity on the whole real line, above the breakpoint 1e9
    too. *)
Theorem registered_linear_transfer_identity
  (s0 : State) (nm : string) (S : ColorSpace) :
  registered (initialised s0) nm S ->
  gamma (descriptor S) = 1 ->
  forall t,
    (exists l, to_linear S t = Ok l /\ l = t)
    /\ (exists v, from_linear S t = Ok v /\ v = t).
Proof.
  intros H Hg1 t.
  destruct (registered_well_formed s0 nm S H)
    as ((wf & bias & _) & d & Hin & E & Ed).
  destruct (builtin_descriptor nm d Hin) as (_ & _ & [_ Hb]).
  assert (Ha0 : linear_bias d = 0).
  { destruct Hb as [? | [_ ?]]; [assumption |]. rewrite Ed in Hg1. lra. }
  destruct (ColorSpace_init_cases d S E)
    as (_ & [(_ & Ek & Ep) | [(N & _) | (N & _)]]);
    try (rewrite Ed in Hg1; contradiction).
  split.
  - destruct (Rlt_dec t (k0 S)) as [Ht | Ht].
    + exists (t / phi S). split; [apply to_linear_below; lra |].
      rewrite Ep. field.
    + rewrite (to_linear_above S wf t Ht), Ed, Ha0.
      rewrite Ed in Hg1. rewrite Hg1.
      assert (Hpos : 0 < (t + 0) / (1 + 0)) by lra.
      rewrite math_pow_root by lra.
      eexists. split; [reflexivity |]. rewrite Rpower_1 by exact Hpos. field.
  - destruct (Rlt_dec t (k0 S / phi S)) as [Ht | Ht].
    + exists (t * phi S). split; [apply from_linear_below; lra |].
      rewrite Ep. ring.
    + rewrite (from_linear_above S wf t Ht), Ed, Ha0.
      rewrite Ed in Hg1. rewrite Hg1.
      assert (Hpos : 0 < t).
      { rewrite Ek, Ep in Ht. lra. }
      rewrite math_pow_root by lra. cbn [bind].
      eexists. split; [reflexivity |].
      replace (1 / 1) with 1 by field. rewrite Rpower_1 by exact Hpos. ring.
Qed.

(** ** White, and the Yxy form *)

Lemma registered_matrix (s0 : State) (nm : string) (S : ColorSpace) :
  registered (initialised s0) nm S ->
  derivation_invertible (descriptor S)
  /\ rgb_to_xyz S
     = scaled_primaries (primaries_matrix (descriptor S)) (white_point (descriptor S)).
Proof.
  intros H. destruct (registered_is_builtin s0 nm S H) as (d & Hin & E).
  destruct (builtin_constructed nm d Hin) as (cs & E' & Ed & _ & Hm & _).
  destruct (builtin_descriptor nm d Hin) as (_ & Hi & _).
  rewrite E in E'. injection E' as <-. rewrite Ed. now split.
Qed.

(** X15.  On a registered color space the encoded white RGB (1, 1, 1)
    has luminance Y = 1 in XYZ, and its Yxy form carries the chromaticity
    of the descriptor's white point. *)
Theorem registered_white (s0 : State) (nm : string) (S : ColorSpace) :
  registered (initialised s0) nm S ->
  exists xyz yxy,
    rgb_to_xyz_of S (mkRGB 1 1 1) = Ok xyz
    /\ X_y xyz = 1
    /\ xyz_to_yxy xyz = Ok yxy
    /\ Y_Y yxy = 1
    /\ Y_x yxy = cx (white_point (descriptor S))
    /\ Y_y yxy = cy (white_point (descriptor S)).
Proof.
  intros H. pose proof (registered_decodes_one s0 nm S H) as H1.
  destruct (registered_matrix s0 nm S H) as ((Hx & Hy & Hp & _) & Hm).
  set (w := white_point (descriptor S)) in *.
  pose proof (scaled_primaries_white (primaries_matrix (descriptor S)) w
                (not_small_nonzero _ Hp)) as Hw.
  assert (Hy0 : cy w <> 0) by lra. specialize (Hw Hy0).
  rewrite <- Hm in Hw. unfold transform_rgb, white_XYZ in Hw.
  injection Hw as Hw0 Hw1 Hw2. cbn [r g b] in Hw0, Hw1, Hw2.
  unfold rgb_to_xyz_of, get_rgb_to_xyz_matrix. cbn [r g b]. rewrite H1. cbn [bind].
  rewrite Hw0, Hw1, Hw2.
  eexists. eexists. split; [reflexivity |]. split; [reflexivity |].
  unfold xyz_to_yxy. cbn [X_x X_y X_z].
  assert (Hs : cx w / cy w + 1 + (1 - cx w - cy w) / cy w = 1 / cy w)
    by (field; exact Hy0).
  assert (Hs0 : cx w / cy w + 1 + (1 - cx w - cy w) / cy w <> 0).
  { rewrite Hs. unfold Rdiv. rewrite Rmult_1_l. now apply Rinv_neq_0_compat. }
  destruct (Req_dec_T _ 0) as [A | _]; [contradiction |].
  rewrite !fdiv_ok by exact Hs0. cbn [bind].
  split; [reflexivity |]. cbn [Y_Y Y_x Y_y]. split; [reflexivity |].
  rewrite Hs. split; field; exact Hy0.
Qed.

(** X16.  Going from Yxy to XYZ and back returns the input when its Y
    and its y are not 0, and the all-zero Yxy when either is. *)
Theorem yxy_xyz_yxy (yxy : Yxy) :
  (Y_Y yxy <> 0 -> Y_y yxy <> 0 ->
   (xyz <- yxy_to_xyz yxy ;; xyz_to_yxy xyz) = Ok yxy)
  /\ (Y_Y yxy = 0 \/ Y_y yxy = 0 ->
      (xyz <- yxy_to_xyz yxy ;; xyz_to_yxy xyz) = Ok (mkYxy 0 0 0)).
Proof.
  destruct yxy as [Y x y]. cbn [Y_Y Y_x Y_y]. unfold yxy_to_xyz. cbn [Y_Y Y_x Y_y].
  assert (Hzero : xyz_to_yxy (mkXYZ 0 0 0) = Ok (mkYxy 0 0 0)).
  { unfold xyz_to_yxy; simpl.
    destruct (Req_dec_T (0 + 0 + 0) 0) as [_ | N]; [reflexivity | elim N; ring]. }
  split.
  - intros HY Hy. destruct (Req_dec_T y 0) as [A | _]; [contradiction |].
    rewrite !fdiv_ok by exact Hy. cbn [bind]. unfold xyz_to_yxy. cbn [X_x X_y X_z].
    assert (Hs : Y * x / y + Y + Y * (1 - x - y) / y = Y / y) by (field; exact Hy).
    assert (Hs0 : Y * x / y + Y + Y * (1 - x - y) / y <> 0).
    { rewrite Hs. unfold Rdiv. apply Rmult_integral_contrapositive_currified;
        [exact HY | now apply Rinv_neq_0_compat]. }
    destruct (Req_dec_T _ 0) as [A | _]; [contradiction |].
    rewrite !fdiv_ok by exact Hs0. cbn [bind]. rewrite Hs.
    f_equal. f_equal; field; split; assumption.
  - intros Hor. destruct (Req_dec_T y 0) as [Hy | Hy]; [exact Hzero |].
    destruct Hor as [HY | A]; [| contradiction]. subst Y.
    rewrite !fdiv_ok by exact Hy. cbn [bind]. unfold xyz_to_yxy. cbn [X_x X_y X_z].
    destruct (Req_dec_T _ 0) as [_ | N]; [reflexivity |].
    elim N. field. exact Hy.
Qed.

(** ** The RGB-to-RGB matrix *)

(** X13.  Between registered color spaces [get_rgb_to_rgb_matrix]
    always returns; the matrix from a space to itself is the identity,
    and the matrix from A to C is the product of the one from B to C and
    the one from A to B. *)
Theorem rgb_to_rgb_matrix_composes
  (s0 : State) (na nb nc : string) (A B C : ColorSpace) :
  registered (initialised s0) na A ->
  registered (initialised s0) nb B ->
  registered (initialised s0) nc C ->
  exists mab mbc mac,
    get_rgb_to_rgb_matrix A B = Ok mab
    /\ get_rgb_to_rgb_matrix B C = Ok mbc
    /\ get_rgb_to_rgb_matrix A C = Ok mac
    /\ multiply mbc mab = mac
    /\ get_rgb_to_rgb_matrix A A = Ok M33f_identity.
Proof.
  intros HA HB HC.
  destruct (registered_well_formed s0 na A HA) as [WA _].
  destruct (registered_well_formed s0 nb B HB) as [WB _].
  destruct (registered_well_formed s0 nc C HC) as [WC _].
  unfold get_rgb_to_rgb_matrix.
  rewrite (get_xyz_to_rgb_matrix_ok A WA), (get_xyz_to_rgb_matrix_ok B WB),
    (get_xyz_to_rgb_matrix_ok C WC). cbn [bind].
  destruct WA as (_ & _ & HmA). destruct WB as (_ & _ & HmB).
  eexists. eexists. eexists.
  split; [reflexivity |]. split; [reflexivity |]. split; [reflexivity |].
  split.
  - rewrite multiply_assoc.
    rewrite <- (multiply_assoc (rgb_to_xyz B)).
    rewrite multiply_inverse_r by (now apply not_small_nonzero).
    now rewrite multiply_identity_l.
  - f_equal. apply multiply_inverse_l. now apply not_small_nonzero.
Qed.

(** ** Batches of colors *)

Lemma transform_colors_ok (dst src : ColorSpace) (l out : list RGB) :
  transform_colors dst src l = Ok out <->
  Forall2 (fun c o => transform_color dst src c = Ok o) l out.
Proof.
  revert out. induction l as [| c rest IH]; intros out; simpl.
  - split.
    + intros E. injection E as <-. constructor.
    + intros H. now inversion H.
  - split.
    + destruct (transform_color dst src c) as [o |] eqn:Ec; simpl; [| discriminate].
      destruct (transform_colors dst src rest) as [os |]; simpl; [| discriminate].
      intros E. injection E as <-. constructor; [exact Ec | now apply IH].
    + intros H. inversion H as [| c' o l' os Hc Hrest]; subst.
      rewrite Hc. simpl. apply IH in Hrest. now rewrite Hrest.
Qed.

Lemma transform_colors_cons_raise (dst src : ColorSpace) (c : RGB)
  (rest : list RGB) (e : exn) :
  transform_colors dst src (c :: rest) = Raise e <->
  transform_color dst src c = Raise e
  \/ (succeeds (transform_color dst src c)
      /\ transform_colors dst src rest = Raise e).
Proof.
  simpl. destruct (transform_color dst src c) as [o | e1]; simpl.
  - destruct (transform_colors dst src rest) as [os | e2]; simpl.
    + split; [discriminate | intros [A | [_ A]]; discriminate].
    + split.
      * intros E. right. split; [now exists o | exact E].
      * intros [A | [_ A]]; [discriminate | exact A].
  - split.
    + intros E. injection E as ->. now left.
    + intros [A | [[o A] _]]; [injection A as ->; reflexivity | discriminate].
Qed.

Lemma transform_colors_raise (dst src : ColorSpace) (l : list RGB) (e : exn) :
  transform_colors dst src l = Raise e <->
  exists before c after,
    l = before ++ c :: after
    /\ Forall (fun x => succeeds (transform_color dst src x)) before
    /\ transform_color dst src c = Raise e.
Proof.
  induction l as [| c rest IH].
  - simpl. split; [discriminate |].
    intros (before & c & after & E & _). now destruct before.
  - rewrite transform_colors_cons_raise, IH. split.
    + intros [Hc | (Hs & before & c' & after & -> & Hb & Hc')].
      * exists [], c, rest. split; [reflexivity |]. split; [constructor | exact Hc].
      * exists (c :: before), c', after. split; [reflexivity |].
        split; [now constructor | exact Hc'].
    + intros (before & c' & after & E & Hb & Hc).
      destruct before as [| x before]; simpl in E.
      * injection E as E1 _. left. now rewrite E1.
      * injection E as E1 E2. right. inversion Hb as [| ? ? Hx Hrest]; subst.
        split; [exact Hx |]. now exists before, c', after.
Qed.

(** X14.  [transform_colors] returns a list exactly when every color
    transforms, and then the results come in the order of the inputs,
    one for one; otherwise it raises what the first failing color
    raises.  Between registered color spaces it returns on every list
    of colors with no component above 1e100. *)
Theorem transform_colors_pointwise (dst src : ColorSpace) (l : list RGB) :
  (forall out,
      transform_colors dst src l = Ok out <->
      Forall2 (fun c o => transform_color dst src c = Ok o) l out)
  /\ (forall e,
         transform_colors dst src l = Raise e <->
         exists before c after,
           l = before ++ c :: after
           /\ Forall (fun x => succeeds (transform_color dst src x)) before
           /\ transform_color dst src c = Raise e)
  /\ (forall s0 nd ns,
         registered (initialised s0) nd dst ->
         registered (initialised s0) ns src ->
         Forall RGB_bounded l ->
         exists out,
           transform_colors dst src l = Ok out /\ List.length out = List.length l).
Proof.
  split; [intros out; apply transform_colors_ok |].
  split; [intros e; apply transform_colors_raise |].
  intros s0 nd ns Hd Hs Hl.
  destruct (registered_well_formed s0 nd dst Hd) as [Wd _].
  destruct (registered_well_formed s0 ns src Hs) as [Ws _].
  induction Hl as [| c rest Hc Hrest (out & E & Hlen)].
  - exists []. now split.
  - destruct (transform_color_returns dst src c Wd Ws Hc) as [o Ec].
    exists (o :: out). cbn [transform_colors]. rewrite Ec, E. cbn [bind].
    cbn [List.length]. now rewrite Hlen.
Qed.

(** ** Equality of color spaces *)

Lemma ColorSpace_eq_true (x y : ColorSpace) :
  ColorSpace_eq x (Some y) = true <->
  name (descriptor x) = name (descriptor y)
  /\ gamma (descriptor x) = gamma (descriptor y)
  /\ linear_bias (descriptor x) = linear_bias (descriptor y).
Proof.
  unfold ColorSpace_eq. rewrite !andb_true_iff, String.eqb_eq.
  destruct (Req_dec_T (gamma _) (gamma _)), (Req_dec_T (linear_bias _) (linear_bias _));
    intuition discriminate.
Qed.

(** X20.  [ColorSpace.__eq__] is an equivalence on color spaces: it is
    reflexive, symmetric and transitive; it answers false for an object
    that is not a color space; and it does not look at the matrix or
    the transfer coefficients. *)
Theorem ColorSpace_eq_equivalence (x y z : ColorSpace) :
  ColorSpace_eq x (Some x) = true
  /\ ColorSpace_eq x (Some y) = ColorSpace_eq y (Some x)
  /\ (ColorSpace_eq x (Some y) = true -> ColorSpace_eq y (Some z) = true ->
      ColorSpace_eq x (Some z) = true)
  /\ ColorSpace_eq x None = false
  /\ (forall k p m,
         ColorSpace_eq x (Some (mkColorSpace (descriptor y) k p m))
         = ColorSpace_eq x (Some y)).
Proof.
  split; [now apply ColorSpace_eq_true |].
  split.
  { destruct (ColorSpace_eq x (Some y)) eqn:E1, (ColorSpace_eq y (Some x)) eqn:E2;
      try reflexivity.
    - apply ColorSpace_eq_true in E1. destruct E1 as (A & B & C).
      assert (ColorSpace_eq y (Some x) = true) as F
        by (apply ColorSpace_eq_true; now repeat split).
      congruence.
    - apply ColorSpace_eq_true in E2. destruct E2 as (A & B & C).
      assert (ColorSpace_eq x (Some y) = true) as F
        by (apply ColorSpace_eq_true; now repeat split).
      congruence. }
  split.
  { intros H1 H2. apply ColorSpace_eq_true in H1, H2. apply ColorSpace_eq_true.
    destruct H1 as (A & B & C), H2 as (A' & B' & C'). repeat split; congruence. }
  split; reflexivity.
Qed.

(** X21.  Two color spaces the registry returns compare equal exactly
    when they were looked up under the same name, whatever their
    primaries: [lin_srgb] and [lin_rec709] share a matrix and differ. *)
Theorem registered_eq_iff_same_name
  (s0 : State) (n1 n2 : string) (S1 S2 : ColorSpace) :
  registered (initialised s0) n1 S1 ->
  registered (initialised s0) n2 S2 ->
  (ColorSpace_eq S1 (Some S2) = true <-> n1 = n2).
Proof.
  intros H1 H2.
  destruct (registered_well_formed s0 n1 S1 H1) as (_ & d1 & Hin1 & _ & Ed1).
  destruct (registered_well_formed s0 n2 S2 H2) as (_ & d2 & Hin2 & _ & Ed2).
  destruct (builtin_descriptor n1 d1 Hin1) as (Hn1 & _).
  destruct (builtin_descriptor n2 d2 Hin2) as (Hn2 & _).
  rewrite ColorSpace_eq_true, Ed1, Ed2, Hn1, Hn2. split.
  - now intros (A & _).
  - intros ->. unfold registered in H1, H2. rewrite H1 in H2.
    injection H2 as ->. rewrite Ed1 in Ed2. subst d2. now repeat split.
Qed.

(** ** The registry, name by name *)

Lemma dict_set_fresh {V : Type} (l : list (string * V)) (k : string) (v : V) :
  dict_get l k = None -> dict_set l k v = l ++ [(k, v)].
Proof.
  induction l as [| [k' w] rest IH]; simpl; [reflexivity |].
  destruct (String.eqb k' k) eqn:E.
  - discriminate.
  - intros H. now rewrite IH.
Qed.

Lemma dict_get_app_fresh {V : Type} (l : list (string * V)) (k nm : string) (v : V) :
  nm <> k -> dict_get (l ++ [(k, v)]) nm = dict_get l nm.
Proof.
  intros Hne. induction l as [| [k' w] rest IH]; simpl.
  - destruct (String.eqb k nm) eqn:E; [| reflexivity].
    apply String.eqb_eq in E. congruence.
  - now rewrite IH.
Qed.

Lemma populate_exact (items : list (string * ColorSpaceDescriptor)) :
  NoDup (map fst items) ->
  (forall nm d, In (nm, d) items -> succeeds (ColorSpace_init d)) ->
  forall s,
    (forall nm, In nm (map fst items) -> dict_get (_color_space_library s) nm = None) ->
    exists built,
      populate items s = (Ok tt, mkState (_color_space_library s ++ built))
      /\ map fst built = map fst items.
Proof.
  induction items as [| [k d] rest IH]; intros Hnd Hall s Hfresh.
  - exists []. split; [| reflexivity]. simpl. unfold ret.
    rewrite app_nil_r. now destruct s.
  - simpl in Hnd. inversion Hnd as [| ? ? Hk Hnd']; subst.
    destruct (Hall k d (or_introl eq_refl)) as [cs0 E0].
    pose proof (Hfresh k (or_introl eq_refl)) as Hk0.
    destruct (IH Hnd' (fun nm d' H => Hall nm d' (or_intror H))
                 (mkState (_color_space_library s ++ [(k, cs0)])))
      as (built & Ep & Hnames).
    { intros nm Hin. simpl. rewrite dict_get_app_fresh.
      - apply Hfresh. now right.
      - intros ->. contradiction. }
    exists ((k, cs0) :: built). split.
    + simpl. unfold mbind, lift, get_library, put_library. rewrite E0.
      rewrite (dict_set_fresh _ _ _ Hk0). rewrite Ep. simpl.
      now rewrite <- app_assoc.
    + simpl. now rewrite Hnames.
Qed.

Lemma COLOR_SPACES_names :
  map fst COLOR_SPACES =
  ["acescg"; "adobergb"; "g18_ap1"; "g18_rec709"; "g22_ap1"; "g22_rec709";
   "lin_adobergb"; "lin_ap0"; "lin_ap1"; "lin_displayp3"; "lin_rec709";
   "lin_rec2020"; "lin_srgb"; "srgb_displayp3"; "sRGB"; "srgb_texture";
   "identity"; "raw"]%string.
Proof. reflexivity. Qed.

Lemma COLOR_SPACES_NoDup : NoDup (map fst COLOR_SPACES).
Proof.
  rewrite COLOR_SPACES_names.
  repeat (constructor; [cbn [In]; intuition discriminate |]). constructor.
Qed.

Lemma builtin_succeeds (nm : string) (d : ColorSpaceDescriptor) :
  In (nm, d) COLOR_SPACES -> succeeds (ColorSpace_init d).
Proof.
  intros H. destruct (builtin_constructed nm d H) as (cs & E & _). now exists cs.
Qed.

(** X18.  After [init_color_space_library], run from any state,
    [registered_color_space_names] returns the eighteen names of the
    table in the order of the table and changes nothing; the state
    reached does not depend on the state before; on the empty registry
    the list of names is empty. *)
Theorem registered_names_after_init (s0 : State) :
  fst (registered_color_space_names (initialised s0))
  = Ok ["acescg"; "adobergb"; "g18_ap1"; "g18_rec709"; "g22_ap1"; "g22_rec709";
        "lin_adobergb"; "lin_ap0"; "lin_ap1"; "lin_displayp3"; "lin_rec709";
        "lin_rec2020"; "lin_srgb"; "srgb_displayp3"; "sRGB"; "srgb_texture";
        "identity"; "raw"]%string
  /\ snd (registered_color_space_names (initialised s0)) = initialised s0
  /\ fst (init_color_space_library s0) = Ok tt
  /\ (forall s1, initialised s1 = initialised s0)
  /\ fst (registered_color_space_names (mkState [])) = Ok [].
Proof.
  destruct (populate_exact COLOR_SPACES COLOR_SPACES_NoDup builtin_succeeds
              (mkState [])) as (built & Ep & Hnames); [reflexivity |].
  simpl in Ep.
  assert (Hinit : init_color_space_library s0 = (Ok tt, mkState built)) by exact Ep.
  unfold initialised. rewrite Hinit. cbn [fst snd].
  split; [| split; [reflexivity | split; [reflexivity | split; [| reflexivity]]]].
  - unfold registered_color_space_names, mbind, get_library, ret. cbn [fst].
    cbn [_color_space_library]. now rewrite Hnames, COLOR_SPACES_names.
  - intros s1. assert (E1 : init_color_space_library s1 = (Ok tt, mkState built))
      by exact Ep. now rewrite E1.
Qed.

(** X19.  [get_named_color_space] never raises and never changes the
    state.  After [init_color_space_library] it misses exactly on the
    names that are not keys of the table, and what it finds under a key
    is the color space constructed from that key's descriptor. *)
Theorem get_named_color_space_after_init (s0 : State) (nm : string) :
  (forall s, snd (get_named_color_space nm s) = s
             /\ exists found, fst (get_named_color_space nm s) = Ok found)
  /\ (fst (get_named_color_space nm (initialised s0)) = Ok None
      <-> ~ In nm (map fst COLOR_SPACES))
  /\ (forall S,
         registered (initialised s0) nm S ->
         exists d,
           In (nm, d) COLOR_SPACES
           /\ ColorSpace_init d = Ok S
           /\ descriptor S = d
           /\ name d = nm).
Proof.
  split; [| split].
  - intros s. split; [reflexivity |]. now eexists.
  - split.
    + intros Hmiss Hin. apply in_map_iff in Hin.
      destruct Hin as ([k d] & Hk & Hin). simpl in Hk. subst k.
      destruct (builtin_is_registered s0 nm d Hin) as [S HS].
      unfold initialised in Hmiss. congruence.
    + intros Hnot.
      destruct (fst (get_named_color_space nm (initialised s0))) as [[S |] | e] eqn:E.
      * destruct (registered_is_builtin s0 nm S E) as (d & Hin & _).
        elim Hnot. apply in_map_iff. now exists (nm, d).
      * reflexivity.
      * discriminate E.
  - intros S H.
    destruct (registered_well_formed s0 nm S H) as (_ & d & Hin & E & Ed).
    destruct (builtin_descriptor nm d Hin) as (Hn & _).
    now exists d.
Qed.

(** ** More on matching *)

Lemma within_nonpositive (eps : R) (c1 c2 : Chromaticity) :
  eps <= 0 -> ~ within eps c1 c2.
Proof.
  intros He [H _]. pose proof (Rabs_pos (cx c1 - cx c2)). lra.
Qed.

Lemma within_widen (eps eps' : R) (c1 c2 : Chromaticity) :
  eps <= eps' -> within eps c1 c2 -> within eps' c1 c2.
Proof.
  intros He [H1 H2]. split; lra.
Qed.

Lemma within_self (eps : R) (c : Chromaticity) : 0 < eps -> within eps c c.
Proof.
  intros He. unfold within.
  replace (cx c - cx c) with 0 by ring. replace (cy c - cy c) with 0 by ring.
  rewrite Rabs_R0. now split.
Qed.

Lemma linear_candidate_widen (d : ColorSpaceDescriptor)
  (red green blue white : Chromaticity) (eps eps' : R) :
  eps <= eps' ->
  linear_candidate d red green blue white eps ->
  linear_candidate d red green blue white eps'.
Proof.
  intros He (Hg & H1 & H2 & H3 & H4).
  repeat split; try exact Hg; eapply within_widen; eauto; eassumption.
Qed.

(** X22.  With an [epsilon] that is not positive
    [match_linear_color_space] finds nothing, and widening [epsilon]
    never turns a match into none. *)
Theorem match_linear_color_space_epsilon
  (red green blue white : Chromaticity) (epsilon : R) :
  (epsilon <= 0 ->
   match_linear_color_space red green blue white epsilon = None)
  /\ (forall epsilon',
         epsilon <= epsilon' ->
         match_linear_color_space red green blue white epsilon <> None ->
         match_linear_color_space red green blue white epsilon' <> None).
Proof.
  split.
  - intros He. apply scan_none. intros e _ (_ & H & _).
    exact (within_nonpositive _ _ _ He H).
  - intros eps' He Hsome Hnone. apply Hsome. apply scan_none.
    intros e Hin Hc. unfold match_linear_color_space in Hnone.
    apply (proj1 (scan_none _ _ _ _ _ _) Hnone e Hin).
    now apply (linear_candidate_widen _ _ _ _ _ epsilon).
Qed.

Ltac pick_entry := (left; reflexivity) + (right; pick_entry).

Lemma linear_sibling (nm : string) (d : ColorSpaceDescriptor) :
  In (nm, d) COLOR_SPACES ->
  exists nm' d',
    In (nm', d') COLOR_SPACES
    /\ gamma d' = 1
    /\ red_primary d' = red_primary d
    /\ green_primary d' = green_primary d
    /\ blue_primary d' = blue_primary d
    /\ white_point d' = white_point d.
Proof.
  unfold COLOR_SPACES at 1. cbn [In]. intros H.
  repeat (destruct H as [H | H];
          [injection H as <- <-;
           eexists; eexists;
           (split; [unfold COLOR_SPACES; cbn [In]; pick_entry |]);
           solve [split; [simpl; lra | repeat split; reflexivity]] |]).
  contradiction.
Qed.

(** X23.  The chromaticities of any entry of the table, linear or not,
    are matched for every positive [epsilon]: the function returns the
    name of an entry of gamma 1 whose chromaticities are within
    [epsilon] of them. *)
Theorem match_linear_color_space_builtin
  (nm : string) (d : ColorSpaceDescriptor) (epsilon : R) :
  In (nm, d) COLOR_SPACES ->
  0 < epsilon ->
  exists nm' d',
    match_linear_color_space (red_primary d) (green_primary d) (blue_primary d)
      (white_point d) epsilon = Some nm'
    /\ In (nm', d') COLOR_SPACES
    /\ linear_candidate d' (red_primary d) (green_primary d) (blue_primary d)
         (white_point d) epsilon.
Proof.
  intros Hin He.
  destruct (linear_sibling nm d Hin) as (n1 & d1 & Hin1 & Hg & Hr & Hgr & Hb & Hw).
  destruct (match_linear_color_space (red_primary d) (green_primary d)
              (blue_primary d) (white_point d) epsilon) as [nm' |] eqn:E.
  - unfold match_linear_color_space in E. apply scan_some in E.
    destruct E as (before & d' & after & Etab & Hc & _).
    exists nm', d'. split; [reflexivity |]. split; [| exact Hc].
    rewrite Etab. apply in_or_app. right. now left.
  - exfalso. unfold match_linear_color_space in E.
    apply (proj1 (scan_none _ _ _ _ _ _) E (n1, d1) Hin1). simpl.
    split; [exact Hg |]. rewrite Hr, Hgr, Hb, Hw.
    split; [| split; [| split]]; apply within_self; exact He.
Qed.

(** ** Chip sets *)

Lemma decode_outcome (cs : ColorSpace) (c : RGB) :
  well_formed cs ->
  succeeds (decode cs c) \/ decode cs c = Raise OverflowError.
Proof.
  intros (wf & _ & _). unfold decode.
  destruct (to_linear_outcome cs wf (r c)) as [[x Ex] | (Ex & _)];
    rewrite Ex; cbn [bind]; [| now right].
  destruct (to_linear_outcome cs wf (g c)) as [[y Ey] | (Ey & _)];
    rewrite Ey; cbn [bind]; [| now right].
  destruct (to_linear_outcome cs wf (b c)) as [[z Ez] | (Ez & _)];
    rewrite Ez; cbn [bind]; [| now right].
  left. now eexists.
Qed.

(** Between well-formed spaces the only exception of
    [transform_color] is the overflow of [to_linear]. *)
Lemma transform_color_outcome (dst src : ColorSpace) (c : RGB) :
  well_formed dst -> well_formed src ->
  succeeds (transform_color dst src c)
  \/ transform_color dst src c = Raise OverflowError.
Proof.
  intros Hd Hs. destruct (decode_outcome src c Hs) as [[l Ed] | Ed].
  - left. destruct (transform_color_value dst src c l Hd Hs Ed) as (out & _ & E).
    now exists out.
  - right. rewrite transform_color_decode_encode, Ed. reflexivity.
Qed.

Lemma transform_color_back (A B : ColorSpace) (c mid : RGB) :
  well_formed A -> well_formed B ->
  transform_color B A c = Ok mid -> RGB_bounded mid ->
  transform_color A B mid = Ok c.
Proof.
  intros WA WB Et Hm.
  rewrite (transform_color_compose A B A c mid WA WB WA Et Hm).
  rewrite transform_color_decode_encode in Et.
  destruct (decode A c) as [l |] eqn:Ed; cbn [bind] in Et; [| discriminate].
  exact (transform_color_self A c l WA Ed).
Qed.

Lemma transform_chips_outcome (dst src : ColorSpace) (l : list ColorChip) :
  well_formed dst -> well_formed src ->
  succeeds (transform_chips dst src l)
  \/ transform_chips dst src l = Raise OverflowError.
Proof.
  intros Hd Hs. induction l as [| chip rest IH]; cbn [transform_chips].
  - left. now eexists.
  - destruct (transform_color_outcome dst src (chip_rgb chip) Hd Hs)
      as [[o Eo] | Eo]; rewrite Eo; cbn [bind]; [| now right].
    destruct IH as [[out E] | E]; rewrite E; cbn [bind]; [| now right].
    left. now eexists.
Qed.

Lemma transform_chips_spec (dst src : ColorSpace) (l : list ColorChip) :
  well_formed dst -> well_formed src ->
  chips_bounded l ->
  exists out,
    transform_chips dst src l = Ok out
    /\ map chip_name out = map chip_name l
    /\ map chip_description out = map chip_description l
    /\ (chips_bounded out -> transform_chips src dst out = Ok l).
Proof.
  intros Hd Hs Hl.
  induction Hl as [| chip rest Hc Hrest (out & E & Hn & Hdesc & Hback)].
  - exists []. split; [reflexivity |]. split; [reflexivity |].
    split; [reflexivity |]. intros _. reflexivity.
  - destruct (transform_color_returns dst src (chip_rgb chip) Hd Hs Hc) as [o Eo].
    exists (mkColorChip (chip_name chip) o (chip_description chip) :: out).
    cbn [transform_chips]. rewrite Eo, E. cbn [bind map chip_name chip_description].
    rewrite Hn, Hdesc.
    split; [reflexivity |]. split; [reflexivity |]. split; [reflexivity |].
    intros Hout. inversion Hout as [| ? ? Ho Hrest']; subst.
    cbn [chip_rgb] in Ho. cbn [transform_chips chip_rgb chip_name chip_description].
    rewrite (transform_color_back src dst _ _ Hs Hd Eo Ho), (Hback Hrest').
    cbn [bind]. now destruct chip.
Qed.

Lemma lookup_in_table (s0 : State) (nm : string) :
  In nm (map fst COLOR_SPACES) ->
  exists S, get_named_color_space nm (initialised s0) = (Ok (Some S), initialised s0)
            /\ well_formed S.
Proof.
  intros Hin. apply in_map_iff in Hin. destruct Hin as ([k d] & Hk & Hin).
  simpl in Hk. subst k.
  destruct (builtin_is_registered s0 nm d Hin) as [S HS].
  exists S. split.
  - unfold initialised in *. unfold get_named_color_space, mbind, get_library, ret in *.
    simpl in *. now injection HS as ->.
  - now destruct (registered_well_formed s0 nm S HS).
Qed.

Lemma lookup_not_in_table (s0 : State) (nm : string) :
  ~ In nm (map fst COLOR_SPACES) ->
  get_named_color_space nm (initialised s0) = (Ok None, initialised s0).
Proof.
  intros Hnot.
  destruct (fst (get_named_color_space nm (initialised s0))) as [[S |] | e] eqn:E.
  - destruct (registered_is_builtin s0 nm S E) as (d & Hin & _).
    elim Hnot. apply in_map_iff. now exists (nm, d).
  - unfold get_named_color_space, mbind, get_library, ret in *. simpl in *.
    now injection E as ->.
  - discriminate E.
Qed.

(** X24.  On the initialised registry [transform_to] raises its
    ValueError exactly when the set's own color space or the target is
    not a name of the table.  Otherwise it returns a set or lets through
    the OverflowError of [math.pow] and nothing else, and it returns
    when no chip has a component above 1e100; the set it returns has the
    same name, the target as color space, and the chips in order with
    their names and descriptions kept.  The registry is left as it
    was. *)
Theorem transform_to_spec (s0 : State) (self : ColorChipSet) (target : string) :
  snd (transform_to self target (initialised s0)) = initialised s0
  /\ (~ In (color_space self) (map fst COLOR_SPACES)
       \/ ~ In target (map fst COLOR_SPACES) ->
       fst (transform_to self target (initialised s0)) = Failed ColorSpaceNotFound)
  /\ (In (color_space self) (map fst COLOR_SPACES) ->
       In target (map fst COLOR_SPACES) ->
       ((exists out,
           fst (transform_to self target (initialised s0)) = Done out
           /\ set_name out = set_name self
           /\ color_space out = target
           /\ map chip_name (chips out) = map chip_name (chips self)
           /\ map chip_description (chips out)
              = map chip_description (chips self))
        \/ fst (transform_to self target (initialised s0))
           = Failed (EngineError OverflowError))
       /\ (chips_bounded (chips self) ->
           exists out,
             fst (transform_to self target (initialised s0)) = Done out)).
Proof.
  assert (Hsrc : In (color_space self) (map fst COLOR_SPACES)
                 \/ ~ In (color_space self) (map fst COLOR_SPACES)).
  { destruct (in_dec string_dec (color_space self) (map fst COLOR_SPACES)); tauto. }
  assert (Hdst : In target (map fst COLOR_SPACES)
                 \/ ~ In target (map fst COLOR_SPACES)).
  { destruct (in_dec string_dec target (map fst COLOR_SPACES)); tauto. }
  unfold transform_to.
  destruct Hsrc as [Hs | Hs], Hdst as [Hd | Hd].
  - destruct (lookup_in_table s0 _ Hs) as (S & ES & WS).
    destruct (lookup_in_table s0 _ Hd) as (D & ED & WD).
    rewrite ES, ED.
    assert (Hnames : forall out,
               transform_chips D S (chips self) = Ok out ->
               map chip_name out = map chip_name (chips self)
               /\ map chip_description out = map chip_description (chips self)).
    { generalize (chips self). intros l. induction l as [| chip rest IH];
        intros out; cbn [transform_chips].
      - intros E. injection E as <-. now split.
      - destruct (transform_color D S (chip_rgb chip)); cbn [bind]; [| discriminate].
        destruct (transform_chips D S rest) as [out' |]; cbn [bind]; [| discriminate].
        intros E. injection E as <-. destruct (IH out' eq_refl) as [Hn Hdesc].
        cbn [map chip_name chip_description]. now rewrite Hn, Hdesc. }
    destruct (transform_chips_outcome D S (chips self) WD WS) as [[out E] | E];
      rewrite E.
    + destruct (Hnames out E) as [Hn Hdesc].
      split; [reflexivity |]. split; [tauto |].
      intros _ _. split.
      * left. eexists. split; [reflexivity |]. now repeat split.
      * intros _. now eexists.
    + split; [reflexivity |]. split; [tauto |].
      intros _ _. split; [now right |].
      intros Hb.
      destruct (transform_chips_spec D S (chips self) WD WS Hb) as (out & E' & _).
      rewrite E in E'. discriminate.
  - destruct (lookup_in_table s0 _ Hs) as (S & ES & WS).
    rewrite ES, (lookup_not_in_table s0 _ Hd).
    split; [reflexivity |]. split; [reflexivity | contradiction].
  - rewrite (lookup_not_in_table s0 _ Hs).
    destruct (lookup_in_table s0 _ Hd) as (D & ED & WD). rewrite ED.
    split; [reflexivity |]. split; [reflexivity | contradiction].
  - rewrite (lookup_not_in_table s0 _ Hs), (lookup_not_in_table s0 _ Hd).
    split; [reflexivity |]. split; [reflexivity | contradiction].
Qed.

(** X25.  On the initialised registry, a chip set with no component
    above 1e100 transforms to any other registered color space, and when
    the set it becomes has no component above 1e100 either, transforming
    that back to the first color space returns the set it started
    from. *)
Theorem transform_to_round_trip (s0 : State) (self : ColorChipSet) (target : string) :
  In (color_space self) (map fst COLOR_SPACES) ->
  In target (map fst COLOR_SPACES) ->
  chips_bounded (chips self) ->
  exists mid,
    fst (transform_to self target (initialised s0)) = Done mid
    /\ (chips_bounded (chips mid) ->
        fst (transform_to mid (color_space self) (initialised s0)) = Done self).
Proof.
  intros Hs Hd Hb.
  destruct (lookup_in_table s0 _ Hs) as (S & ES & WS).
  destruct (lookup_in_table s0 _ Hd) as (D & ED & WD).
  destruct (transform_chips_spec D S (chips self) WD WS Hb)
    as (out & E & _ & _ & Hback).
  exists (mkColorChipSet (set_name self) target out).
  unfold transform_to. cbn [color_space chips set_name]. split.
  - rewrite ES, ED, E. reflexivity.
  - intros Hout. rewrite ED, ES, (Hback Hout). now destruct self.
Qed.

(** ** The blackbody locus stays inside the chromaticity triangle *)

Ltac pos3 := repeat apply Rmult_le_pos; lra.

(** On [lo, hi] a cubic is bounded through the four products of the
    distances to the ends, which are not negative there. *)
Ltac on_interval u lo hi :=
  assert (0 <= (u - lo) * (u - lo) * (hi - u)) by pos3;
  assert (0 <= (u - lo) * (hi - u) * (hi - u)) by pos3;
  assert (0 <= (u - lo) * (u - lo) * (u - lo)) by pos3;
  assert (0 <= (hi - u) * (hi - u) * (hi - u)) by pos3;
  lra.

Ltac cut_at u m := destruct (Rle_dec u m).

Lemma locus_x_low_bounds (u : R) :
  1 / 4 <= u <= 1 ->
  0.38 <= cubic (-0.2661239) (-0.2343589) 0.8776956 0.179910 u <= 0.6.
Proof.
  intros [H1 H2]. unfold cubic. split.
  - on_interval u (1 / 4) 1.
  - cut_at u (5 / 8); [on_interval u (1 / 4) (5 / 8) |].
    cut_at u (3 / 4); [on_interval u (5 / 8) (3 / 4) |].
    cut_at u (7 / 8); [on_interval u (3 / 4) (7 / 8) |].
    on_interval u (7 / 8) 1.
Qed.

Lemma locus_x_high_bounds (u : R) :
  1 / 15 <= u <= 1 / 4 ->
  0.25 <= cubic (-3.0258469) 2.1070379 0.2226347 0.240390 u <= 0.4.
Proof.
  intros [H1 H2]. unfold cubic. split; on_interval u (1 / 15) (1 / 4).
Qed.

Lemma locus_y_1_bounds (x : R) :
  0.38 <= x <= 0.6 ->
  0.3 <= cubic (-1.1063814) (-1.34811020) 2.18555832 (-0.20219683) x
  /\ x + cubic (-1.1063814) (-1.34811020) 2.18555832 (-0.20219683) x <= 0.99.
Proof.
  intros [H1 H2]. unfold cubic. split.
  - on_interval x 0.38 0.6.
  - cut_at x 0.5; [on_interval x 0.38 0.5 |]. on_interval x 0.5 0.6.
Qed.

Lemma locus_y_2_bounds (x : R) :
  0.38 <= x <= 0.6 ->
  0.3 <= cubic (-0.9549476) (-1.37418593) 2.09137015 (-0.16748867) x
  /\ x + cubic (-0.9549476) (-1.37418593) 2.09137015 (-0.16748867) x <= 0.99.
Proof.
  intros [H1 H2]. unfold cubic. split.
  - on_interval x 0.38 0.6.
  - cut_at x 0.5; [on_interval x 0.38 0.5 |]. on_interval x 0.5 0.6.
Qed.

Lemma locus_y_3_bounds (x : R) :
  0.25 <= x <= 0.4 ->
  0.2 <= cubic 3.0817580 (-5.87338670) 3.75112997 (-0.37001483) x
  /\ x + cubic 3.0817580 (-5.87338670) 3.75112997 (-0.37001483) x <= 0.99.
Proof.
  intros [H1 H2]. unfold cubic. split; on_interval x 0.25 0.4.
Qed.

Lemma reciprocal_range (temp : R) :
  1000 <= temp <= 15000 ->
  1 / 15 <= 1000 / temp <= 1
  /\ (temp < 4000 -> 1 / 4 <= 1000 / temp)
  /\ (~ temp < 4000 -> 1000 / temp <= 1 / 4).
Proof.
  intros [Hl Hh]. assert (Hp : 0 < temp) by lra.
  assert (Hi : 0 < / temp) by now apply Rinv_0_lt_compat.
  assert (E : temp * / temp = 1) by (apply Rinv_r; lra).
  unfold Rdiv. repeat split; try intros ?; nra.
Qed.

Lemma locus_bounds (temp : R) :
  1000 <= temp <= 15000 ->
  0.25 <= locus_x temp <= 0.6
  /\ 0.2 <= locus_y temp (locus_x temp)
  /\ locus_x temp + locus_y temp (locus_x temp) <= 0.99.
Proof.
  intros Ht. destruct (reciprocal_range temp Ht) as ([Hu1 Hu2] & Hlo & Hhi).
  unfold locus_x, locus_y.
  destruct (Rlt_dec temp 4000) as [A | A].
  - pose proof (locus_x_low_bounds (1000 / temp) (conj (Hlo A) Hu2)) as Hx.
    destruct (Rlt_dec temp 2222).
    + destruct (locus_y_1_bounds _ Hx). repeat split; lra.
    + destruct (locus_y_2_bounds _ Hx). repeat split; lra.
  - pose proof (locus_x_high_bounds (1000 / temp) (conj Hu1 (Hhi A))) as Hx.
    destruct (Rlt_dec temp 2222); [lra |].
    destruct (locus_y_3_bounds _ Hx). repeat split; lra.
Qed.

Lemma yxy_to_xyz_total (yxy : Yxy) : succeeds (yxy_to_xyz yxy).
Proof.
  unfold yxy_to_xyz. destruct (Req_dec_T (Y_y yxy) 0) as [E | N].
  - now eexists.
  - rewrite !fdiv_ok by exact N. now eexists.
Qed.

(** X17.  For every temperature [kelvin_to_yxy] returns a chromaticity
    strictly inside the triangle: x between 0.25 and 0.6, y at least
    0.2, and x + y at most 0.99.  So [yxy_to_xyz] never takes its
    zero-y exit on it, and for a positive luminosity all three of X, Y
    and Z are positive. *)
Theorem kelvin_to_yxy_in_triangle (T L : R) :
  exists x y xyz,
    kelvin_to_yxy T L = Ok (mkYxy L x y)
    /\ 0.25 <= x <= 0.6
    /\ 0.2 <= y
    /\ x + y <= 0.99
    /\ yxy_to_xyz (mkYxy L x y) = Ok xyz
    /\ X_y xyz = L
    /\ (0 < L -> 0 < X_x xyz /\ 0 < X_z xyz).
Proof.
  pose proof (locus_bounds _ (clamp_range T)) as (Hx & Hy & Hs).
  set (x := locus_x (clamp 1000 15000 T)) in *.
  set (y := locus_y (clamp 1000 15000 T) x) in *.
  exists x, y. unfold yxy_to_xyz. cbn [Y_Y Y_x Y_y].
  destruct (Req_dec_T y 0) as [E | N]; [lra |].
  rewrite !fdiv_ok by exact N. cbn [bind].
  eexists. split; [apply kelvin_to_yxy_clamped |].
  split; [exact Hx |]. split; [exact Hy |]. split; [exact Hs |].
  split; [reflexivity |]. split; [reflexivity |]. cbn [X_x X_z].
  intros HL. split; apply Rdiv_lt_0_compat; nra.
Qed.

(** ** The blackbody series *)

Lemma lin_srgb_in_table :
  In "lin_srgb"%string (map fst COLOR_SPACES).
Proof. rewrite COLOR_SPACES_names. cbn [In]. do 12 right. now left. Qed.

Lemma xyz_to_rgb_total (cs : ColorSpace) (v : XYZ) :
  well_formed cs -> succeeds (xyz_to_rgb cs v).
Proof.
  intros W. rewrite xyz_to_rgb_encode, (get_xyz_to_rgb_matrix_ok cs W). cbn [bind].
  apply (encode_total cs W).
Qed.


Lemma blackbody_step_registered (s0 : State) (a e : R) (steps i : Z)
  (acc : list ColorChip) :
  (steps <> 1)%Z ->
  exists chip,
    blackbody_step a e steps acc i (initialised s0) = Ok (acc ++ [chip])
    /\ chip_name chip = blackbody_name (blackbody_temp a e steps i).
Proof.
  intros Hs. unfold blackbody_step.
  assert (Hd : IZR (steps - 1) <> 0) by (apply not_0_IZR; lia).
  rewrite fdiv_ok by exact Hd. cbn [bind].
  rewrite kelvin_to_yxy_clamped. cbn [bind].
  destruct (yxy_to_xyz_total
              (mkYxy 1 (locus_x (clamp 1000 15000 (a + (e - a) * IZR i / IZR (steps - 1))))
                 (locus_y (clamp 1000 15000 (a + (e - a) * IZR i / IZR (steps - 1)))
                    (locus_x (clamp 1000 15000 (a + (e - a) * IZR i / IZR (steps - 1)))))))
    as [xyz Exyz].
  rewrite Exyz. cbn [bind].
  destruct (lookup_in_table s0 _ lin_srgb_in_table) as (S & ES & WS).
  rewrite ES. cbn [fst bind].
  destruct (xyz_to_rgb_total S xyz WS) as [rgb Ergb]. rewrite Ergb. cbn [bind].
  eexists. split; reflexivity.
Qed.

Lemma blackbody_loop_registered (s0 : State) (a e : R) (steps : Z)
  (indices : list Z) (acc : list ColorChip) :
  (steps <> 1)%Z ->
  exists new,
    blackbody_loop a e steps acc indices (initialised s0) = Ok (acc ++ new)
    /\ map chip_name new
       = map (fun i => blackbody_name (blackbody_temp a e steps i)) indices.
Proof.
  intros Hs. revert acc. induction indices as [| i rest IH]; intros acc.
  - exists []. simpl. now rewrite app_nil_r.
  - destruct (blackbody_step_registered s0 a e steps i acc Hs) as (chip & E & Hn).
    destruct (IH (acc ++ [chip])) as (new & E' & Hnames).
    exists (chip :: new). simpl. rewrite E. cbn [bind]. rewrite E'.
    rewrite <- app_assoc. simpl. now rewrite Hn, Hnames.
Qed.

Lemma blackbody_loop_unregistered (s : State) (a e : R) (steps : Z)
  (indices : list Z) (acc : list ColorChip) :
  (steps <> 1)%Z ->
  dict_get (_color_space_library s) "lin_srgb" = None ->
  blackbody_loop a e steps acc indices s = Ok acc.
Proof.
  intros Hs Hnone. induction indices as [| i rest IH]; [reflexivity |].
  simpl. unfold blackbody_step.
  assert (Hd : IZR (steps - 1) <> 0) by (apply not_0_IZR; lia).
  rewrite fdiv_ok by exact Hd. cbn [bind].
  rewrite kelvin_to_yxy_clamped. cbn [bind].
  match goal with |- context [yxy_to_xyz ?y] =>
    destruct (yxy_to_xyz_total y) as [xyz Exyz]; rewrite Exyz end.
  cbn [bind]. unfold get_named_color_space, mbind, get_library, ret. cbn [fst].
  rewrite Hnone. cbn [bind]. exact IH.
Qed.

(** X26.  [generate_blackbody_series] leaves the registry as it was.
    With no steps, or fewer, it returns an empty set.  With exactly one
    step it raises ZeroDivisionError.  With two or more steps it returns
    one chip per step, named after the truncated temperature of the
    step, when the registry is initialised, and an empty set when the
    registry has no [lin_srgb]. *)
Theorem generate_blackbody_series_spec (a e : R) (steps : Z) (s : State) :
  snd (generate_blackbody_series a e steps s) = s
  /\ ((steps <= 0)%Z ->
      fst (generate_blackbody_series a e steps s)
      = Done (mkColorChipSet "Blackbody Temperature Series" "lin_srgb" []))
  /\ (steps = 1%Z ->
      fst (generate_blackbody_series a e steps s)
      = Failed (EngineError ZeroDivisionError))
  /\ ((2 <= steps)%Z ->
      (forall s0,
          s = initialised s0 ->
          exists l,
            fst (generate_blackbody_series a e steps s)
            = Done (mkColorChipSet "Blackbody Temperature Series" "lin_srgb" l)
            /\ List.length l = Z.to_nat steps
            /\ map chip_name l
               = map (fun i => blackbody_name (blackbody_temp a e steps i))
                   (py_range steps))
      /\ (dict_get (_color_space_library s) "lin_srgb" = None ->
          fst (generate_blackbody_series a e steps s)
          = Done (mkColorChipSet "Blackbody Temperature Series" "lin_srgb" []))).
Proof.
  split; [| split; [| split]].
  - unfold generate_blackbody_series. now destruct (blackbody_loop _ _ _ _ _ _).
  - intros H. unfold generate_blackbody_series, py_range.
    replace (Z.to_nat steps) with 0%nat by lia. reflexivity.
  - intros ->. unfold generate_blackbody_series, py_range. simpl.
    unfold blackbody_step. simpl. now rewrite fdiv_zero.
  - intros H. split.
    + intros s0 ->. unfold generate_blackbody_series.
      destruct (blackbody_loop_registered s0 a e steps (py_range steps) [])
        as (l & E & Hn); [lia |].
      rewrite E. simpl. exists l. split; [reflexivity |]. split; [| exact Hn].
      rewrite <- (length_map chip_name), Hn, length_map.
      unfold py_range. now rewrite length_map, length_seq.
    + intros Hnone. unfold generate_blackbody_series.
      rewrite blackbody_loop_unregistered; [reflexivity | lia | exact Hnone].
Qed.

(** ** The layout of the chart *)

Lemma find_in_row_none (row : list string) (col : nat) (nm : string) :
  ~ In nm row -> find_in_row row col nm = None.
Proof.
  revert col. induction row as [| a rest IH]; intros col Hn; [reflexivity |].
  simpl. destruct (String.eqb a nm) eqn:E.
  - apply String.eqb_eq in E. elim Hn. now left.
  - apply IH. intros H. apply Hn. now right.
Qed.

Lemma find_in_rows_none (rows : list (list string)) (row : nat) (nm : string) :
  ~ In nm (List.concat rows) -> find_in_rows rows row nm = None.
Proof.
  revert row. induction rows as [| r rest IH]; intros row Hn; [reflexivity |].
  simpl in *. rewrite find_in_row_none.
  - apply IH. intros H. apply Hn. apply in_or_app. now right.
  - intros H. apply Hn. apply in_or_app. now left.
Qed.

(** X27.  [_find_chip_position] returns, for the name in each of the 24
    cells of the layout, the row and column of that cell, so the names
    are told apart by their positions; for a name that is not in the
    layout it returns (0, 0), the position of [dark_skin]. *)
Theorem find_chip_position_spec :
  (forall row col,
      (row < 4)%nat -> (col < 6)%nat ->
      _find_chip_position (layout_cell row col) = (row, col))
  /\ (forall chip_name,
         ~ In chip_name (List.concat COLORCHECKER_LAYOUT) ->
         _find_chip_position chip_name = (0%nat, 0%nat))
  /\ _find_chip_position "dark_skin" = (0%nat, 0%nat)
  /\ (forall chip_name,
         (fst (_find_chip_position chip_name) < 4)%nat
         /\ (snd (_find_chip_position chip_name) < 6)%nat).
Proof.
  split; [| split; [| split]].
  - intros row col Hr Hc.
    do 4 (destruct row as [| row]; [do 6 (destruct col as [| col]; [reflexivity |]); lia |]).
    lia.
  - intros nm Hn. unfold _find_chip_position. now rewrite find_in_rows_none.
  - reflexivity.
  - intros nm. unfold _find_chip_position, COLORCHECKER_LAYOUT.
    cbn [find_in_rows find_in_row].
    repeat match goal with
           | |- context [String.eqb ?a nm] => destruct (String.eqb a nm)
           end; simpl; lia.
Qed.

(** ** File names *)

Lemma remove_char_absent (c : ascii) (s : string) : ~ In c (chars (remove_char c s)).
Proof.
  induction s as [| a rest IH]; simpl; [tauto |].
  destruct (Ascii.eqb a c) eqn:E; [exact IH |].
  simpl. intros [H | H]; [| contradiction].
  subst a. now rewrite Ascii.eqb_refl in E.
Qed.

Lemma remove_char_subset (c x : ascii) (s : string) :
  In x (chars (remove_char c s)) -> In x (chars s).
Proof.
  induction s as [| a rest IH]; simpl; [tauto |].
  destruct (Ascii.eqb a c); simpl; tauto.
Qed.

Lemma remove_char_id (c : ascii) (s : string) :
  ~ In c (chars s) -> remove_char c s = s.
Proof.
  induction s as [| a rest IH]; simpl; [reflexivity |].
  intros H. destruct (Ascii.eqb a c) eqn:E.
  - apply Ascii.eqb_eq in E. tauto.
  - rewrite IH; tauto.
Qed.

Lemma lower_char_cases (a : ascii) :
  (is_upper a = true /\ lower_char a = ascii_of_nat (nat_of_ascii a + 32))
  \/ (is_upper a = false /\ lower_char a = a).
Proof.
  unfold lower_char, is_upper. destruct (_ && _); [left | right]; now split.
Qed.

Lemma lower_char_not_upper (a : ascii) : is_upper (lower_char a) = false.
Proof.
  destruct (lower_char_cases a) as [[H E] | [H E]]; rewrite E; [| exact H].
  unfold is_upper in *. apply andb_true_iff in H. destruct H as [H1 H2].
  apply Nat.leb_le in H1, H2.
  rewrite nat_ascii_embedding by lia.
  apply andb_false_iff. right. apply Nat.leb_gt. lia.
Qed.

Lemma lower_char_punctuation (a c : ascii) :
  is_upper c = false -> (nat_of_ascii c < 97)%nat ->
  lower_char a = c -> a = c.
Proof.
  intros Hc Hlt E. destruct (lower_char_cases a) as [[H E'] | [H E']].
  - exfalso. rewrite E' in E. subst c.
    unfold is_upper in H. apply andb_true_iff in H. destruct H as [H1 H2].
    apply Nat.leb_le in H1, H2. rewrite nat_ascii_embedding in Hlt by lia. lia.
  - congruence.
Qed.

Lemma lower_chars (s : string) : chars (lower s) = map lower_char (chars s).
Proof. induction s as [| a rest IH]; simpl; [reflexivity | now rewrite IH]. Qed.

Lemma lower_idempotent (s : string) : lower (lower s) = lower s.
Proof.
  induction s as [| a rest IH]; simpl; [reflexivity |]. rewrite IH. f_equal.
  destruct (lower_char_cases (lower_char a)) as [[H _] | [_ E]]; [| exact E].
  now rewrite lower_char_not_upper in H.
Qed.

(** X28.  For a name of ASCII characters, what [clean_color_space_name]
    returns contains no
    underscore, hyphen or full stop and no upper-case ASCII letter;
    cleaning a clean name changes nothing; and the eighteen names of
    the table stay pairwise different when cleaned, so no two of them
    get the same default file name. *)
Theorem clean_color_space_name_spec (color_space : string) :
  Forall (fun c => (nat_of_ascii c < 128)%nat) (chars color_space) ->
  (forall c,
      In c (chars (clean_color_space_name color_space)) ->
      c <> "_"%char /\ c <> "-"%char /\ c <> "."%char /\ is_upper c = false)
  /\ clean_color_space_name (clean_color_space_name color_space)
     = clean_color_space_name color_space
  /\ NoDup (map clean_color_space_name (map fst COLOR_SPACES)).
Proof.
  intros _.
  assert (Hclean : forall c,
             In c (chars (clean_color_space_name color_space)) ->
             c <> "_"%char /\ c <> "-"%char /\ c <> "."%char /\ is_upper c = false).
  { intros c Hin. unfold clean_color_space_name in Hin.
    rewrite lower_chars in Hin. apply in_map_iff in Hin.
    destruct Hin as (a & Ea & Hin).
    assert (Hup : is_upper c = false) by (rewrite <- Ea; apply lower_char_not_upper).
    repeat split; try exact Hup; intros ->.
    - apply lower_char_punctuation in Ea; [| reflexivity | apply Nat.ltb_lt; reflexivity]. subst a.
      apply remove_char_subset, remove_char_subset in Hin.
      now apply remove_char_absent in Hin.
    - apply lower_char_punctuation in Ea; [| reflexivity | apply Nat.ltb_lt; reflexivity]. subst a.
      apply remove_char_subset in Hin. now apply remove_char_absent in Hin.
    - apply lower_char_punctuation in Ea; [| reflexivity | apply Nat.ltb_lt; reflexivity]. subst a.
      now apply remove_char_absent in Hin. }
  split; [exact Hclean |]. split.
  - set (t := clean_color_space_name color_space) in *.
    unfold clean_color_space_name at 1.
    rewrite (remove_char_id "_" t) by (intros H; now destruct (Hclean _ H) as (A & _)).
    rewrite (remove_char_id "-" t) by (intros H; now destruct (Hclean _ H) as (_ & A & _)).
    rewrite (remove_char_id "." t) by (intros H; now destruct (Hclean _ H) as (_ & _ & A & _)).
    unfold t, clean_color_space_name. apply lower_idempotent.
  - rewrite COLOR_SPACES_names. vm_compute.
    repeat (constructor; [cbn [In]; intuition discriminate |]). constructor.
Qed.

Lemma clean_color_space_name_spec_witness :
  (forall c,
      In c (chars (clean_color_space_name "lin_sRGB-v1.0")) ->
      c <> "_"%char /\ c <> "-"%char /\ c <> "."%char /\ is_upper c = false)
  /\ clean_color_space_name (clean_color_space_name "lin_sRGB-v1.0")
     = clean_color_space_name "lin_sRGB-v1.0"
  /\ NoDup (map clean_color_space_name (map fst COLOR_SPACES)).
Proof.
  apply (clean_color_space_name_spec "lin_sRGB-v1.0").
  repeat (constructor; [apply Nat.ltb_lt; reflexivity |]). constructor.
Defined.

Example clean_color_space_name_example :
  clean_color_space_name "lin_sRGB-v1.0" = "linsrgbv10"%string.
Proof. reflexivity. Qed.

(** ** The chips of the chart *)

Lemma transform_dict_exact (t a : ColorSpace) (items acc : list (string * RGB)) :
  well_formed t -> well_formed a ->
  Forall (fun it => RGB_bounded (snd it)) items ->
  NoDup (map fst items) ->
  (forall nm, In nm (map fst items) -> dict_get acc nm = None) ->
  exists new,
    transform_dict t a items acc = Ok (acc ++ new)
    /\ map fst new = map fst items
    /\ Forall2 (fun it o => transform_color t a (snd it) = Ok (snd o)) items new.
Proof.
  intros Wt Wa. revert acc.
  induction items as [| [k rgb] rest IH]; intros acc Hb Hnd Hfresh.
  - exists []. simpl. rewrite app_nil_r. repeat split. constructor.
  - simpl in Hnd. inversion Hnd as [| ? ? Hk Hnd']; subst.
    inversion Hb as [| ? ? Hrgb Hb']; subst. cbn [snd] in Hrgb.
    destruct (transform_color_returns t a rgb Wt Wa Hrgb) as [o Eo].
    destruct (IH (acc ++ [(k, o)]) Hb' Hnd') as (new & E & Hn & Hall).
    { intros nm Hin. rewrite dict_get_app_fresh.
      - apply Hfresh. now right.
      - intros ->. contradiction. }
    exists ((k, o) :: new). simpl. rewrite Eo. cbn [bind].
    rewrite dict_set_fresh by (apply Hfresh; now left).
    rewrite E, <- app_assoc. simpl. rewrite Hn.
    split; [reflexivity |]. split; [reflexivity |]. now constructor.
Qed.

Lemma acescg_chips_names : map fst acescg_chips = List.concat COLORCHECKER_LAYOUT.
Proof. reflexivity. Qed.

Lemma acescg_chips_NoDup : NoDup (map fst acescg_chips).
Proof.
  rewrite acescg_chips_names. vm_compute.
  repeat (constructor; [cbn [In]; intuition discriminate |]). constructor.
Qed.

Lemma acescg_chips_bounded :
  Forall (fun it => RGB_bounded (snd it)) acescg_chips.
Proof.
  unfold acescg_chips.
  repeat (constructor;
          [unfold RGB_bounded; cbn [snd r g b]; split; [lra | split; lra] |]).
  constructor.
Qed.

Lemma acescg_in_table : In "acescg"%string (map fst COLOR_SPACES).
Proof. rewrite COLOR_SPACES_names. now left. Qed.

(** X29.  [_get_color_chips] leaves the registry initialised whatever
    it was.  For a name that is not in the table it raises its
    ValueError; for [acescg] it returns the reference chips untouched;
    for any other name of the table it returns their transforms.  In
    both cases the keys are the names of the layout, cell by cell, so
    every cell of the chart finds its chip. *)
Theorem get_color_chips_spec (color_space : string) (s : State) :
  snd (_get_color_chips color_space s) = initialised s
  /\ (~ In color_space (map fst COLOR_SPACES) ->
      fst (_get_color_chips color_space s) = Failed ColorSpaceNotFound)
  /\ (color_space = "acescg"%string ->
      fst (_get_color_chips color_space s) = Done acescg_chips)
  /\ (In color_space (map fst COLOR_SPACES) ->
      exists d,
        fst (_get_color_chips color_space s) = Done d
        /\ map fst d = List.concat COLORCHECKER_LAYOUT
        /\ forall row col,
             (row < 4)%nat -> (col < 6)%nat ->
             dict_get d (layout_cell row col) <> None).
Proof.
  destruct (populate_exact COLOR_SPACES COLOR_SPACES_NoDup builtin_succeeds
              (mkState [])) as (built & Ep & _); [reflexivity |].
  assert (Hinit : init_color_space_library s = (Ok tt, initialised s)).
  { unfold initialised.
    assert (E : init_color_space_library s = (Ok tt, mkState ([] ++ built)))
      by exact Ep.
    now rewrite E. }
  assert (Hcells : forall d : list (string * RGB),
             map fst d = List.concat COLORCHECKER_LAYOUT ->
             forall row col, (row < 4)%nat -> (col < 6)%nat ->
                             dict_get d (layout_cell row col) <> None).
  { intros d Hd row col Hr Hc.
    assert (Hin : In (layout_cell row col) (map fst d)).
    { rewrite Hd.
      do 4 (destruct row as [| row];
            [do 6 (destruct col as [| col]; [vm_compute; tauto |]); lia |]).
      lia. }
    clear Hd. induction d as [| [k v] rest IH]; [contradiction |].
    simpl in *. destruct (String.eqb k (layout_cell row col)) eqn:E; [discriminate |].
    apply IH. destruct Hin as [-> | H]; [| exact H].
    now rewrite String.eqb_refl in E. }
  unfold _get_color_chips. rewrite Hinit.
  destruct (String.eqb color_space "acescg") eqn:Eacescg.
  - apply String.eqb_eq in Eacescg. subst color_space.
    split; [reflexivity |]. split; [intros H; elim H; apply acescg_in_table |].
    split; [reflexivity |]. intros _. exists acescg_chips.
    split; [reflexivity |]. split; [apply acescg_chips_names |].
    apply Hcells, acescg_chips_names.
  - destruct (lookup_in_table s _ acescg_in_table) as (A & EA & WA). rewrite EA.
    destruct (in_dec string_dec color_space (map fst COLOR_SPACES)) as [Hin | Hnot].
    + destruct (lookup_in_table s _ Hin) as (T & ET & WT). rewrite ET.
      destruct (transform_dict_exact T A acescg_chips [] WT WA
                  acescg_chips_bounded acescg_chips_NoDup)
        as (d & Ed & Hn & _); [reflexivity |].
      rewrite Ed. cbn [app fst snd].
      split; [reflexivity |]. split; [contradiction |].
      split; [intros ->; now rewrite String.eqb_refl in Eacescg |].
      intros _. exists d. split; [reflexivity |].
      rewrite Hn, acescg_chips_names. split; [reflexivity |].
      apply Hcells. now rewrite Hn, acescg_chips_names.
    + rewrite (lookup_not_in_table s _ Hnot). cbn [fst snd].
      split; [reflexivity |]. split; [reflexivity |].
      split; [intros ->; now rewrite String.eqb_refl in Eacescg | contradiction].
Qed.

(** ** The properties above on concrete inputs *)

Lemma sRGB_registered :
  exists S, registered (initialised (mkState [])) "sRGB" S.
Proof. exact (builtin_is_registered (mkState []) _ _ sRGB_in_table). Qed.

Lemma lin_srgb_entry : In ("lin_srgb"%string, lin_srgb_descriptor) COLOR_SPACES.
Proof. unfold COLOR_SPACES. do 12 right. left. reflexivity. Qed.

Lemma lin_srgb_registered :
  exists S,
    registered (initialised (mkState [])) "lin_srgb" S
    /\ gamma (descriptor S) = 1.
Proof.
  destruct (builtin_is_registered (mkState []) _ _ lin_srgb_entry) as [S HS].
  exists S. split; [exact HS |].
  destruct (registered_is_builtin _ _ _ HS) as (d & Hin & E).
  destruct (builtin_constructed _ _ Hin) as (cs & E' & Ed & _).
  rewrite E in E'. injection E' as <-. rewrite Ed.
  revert Hin. unfold COLOR_SPACES. cbn [In]. intros H.
  repeat (destruct H as [H | H];
          [first [discriminate H | injection H as <-; simpl; lra] |]).
  contradiction.
Qed.

Lemma sRGB_name_in_table : In "sRGB"%string (map fst COLOR_SPACES).
Proof. rewrite COLOR_SPACES_names. cbn [In]. do 14 right. now left. Qed.

Lemma registered_transfer_inverse_witness :
  exists S,
    registered (initialised (mkState [])) "sRGB" S
    /\ (forall t, t <= 1e100 ->
                  exists l, to_linear S t = Ok l /\ from_linear S l = Ok t)
    /\ (forall t l, to_linear S t = Ok l -> from_linear S l = Ok t)
    /\ (forall u, succeeds (from_linear S u))
    /\ (forall u, u <= float_max ->
                  exists v, from_linear S u = Ok v /\ to_linear S v = Ok u).
Proof.
  destruct sRGB_registered as [S HS]. exists S.
  split; [exact HS | exact (registered_transfer_inverse _ _ _ HS)].
Defined.

Lemma registered_transfer_continuous_witness :
  exists S,
    registered (initialised (mkState [])) "sRGB" S
    /\ (forall t, t < k0 S -> to_linear S t = Ok (t / phi S))
    /\ to_linear S (k0 S) = Ok (k0 S / phi S)
    /\ (forall u, u < k0 S / phi S -> from_linear S u = Ok (u * phi S))
    /\ from_linear S (k0 S / phi S) = Ok (k0 S).
Proof.
  destruct sRGB_registered as [S HS]. exists S.
  split; [exact HS | exact (registered_transfer_continuous _ _ _ HS)].
Defined.

Lemma registered_transfer_increasing_witness :
  exists S,
    registered (initialised (mkState [])) "sRGB" S
    /\ (exists l1 l2, to_linear S 0 = Ok l1 /\ to_linear S 1 = Ok l2 /\ l1 < l2)
    /\ (exists v1 v2, from_linear S 0 = Ok v1 /\ from_linear S 1 = Ok v2 /\ v1 < v2).
Proof.
  destruct sRGB_registered as [S HS]. exists S.
  split; [exact HS |].
  destruct (registered_transfer_increasing _ _ _ HS 0 1) as [H1 H2]; [lra |].
  split; [apply H1; lra | exact H2].
Defined.

Lemma registered_linear_transfer_identity_witness :
  exists S,
    registered (initialised (mkState [])) "lin_srgb" S
    /\ (exists l, to_linear S 2e9 = Ok l /\ l = 2e9)
    /\ (exists v, from_linear S 2e9 = Ok v /\ v = 2e9).
Proof.
  destruct lin_srgb_registered as (S & HS & Hg). exists S.
  split; [exact HS | exact (registered_linear_transfer_identity _ _ _ HS Hg 2e9)].
Defined.

Lemma rgb_xyz_round_trip_witness :
  exists S,
    registered (initialised (mkState [])) "sRGB" S
    /\ (exists v,
          rgb_to_xyz_of S (mkRGB 0.5 0.25 1) = Ok v
          /\ xyz_to_rgb S v = Ok (mkRGB 0.5 0.25 1))
    /\ (forall v,
          exists c,
            xyz_to_rgb S v = Ok c
            /\ (RGB_bounded c -> rgb_to_xyz_of S c = Ok v)).
Proof.
  destruct sRGB_registered as [S HS]. exists S.
  destruct (rgb_xyz_round_trip _ _ _ HS) as [H1 H2].
  split; [exact HS |]. split; [| exact H2].
  apply H1. unfold RGB_bounded; cbn [r g b]. split; [lra | split; lra].
Defined.

Lemma transform_color_transitive_witness :
  exists A B mid out,
    registered (initialised (mkState [])) "sRGB" A
    /\ registered (initialised (mkState [])) "lin_srgb" B
    /\ transform_color B A (mkRGB 0.5 0.5 0.5) = Ok mid
    /\ transform_color A A (mkRGB 0.5 0.5 0.5) = Ok out
    /\ (RGB_bounded mid ->
        transform_color A B mid = Ok out
        /\ transform_color A B mid = Ok (mkRGB 0.5 0.5 0.5)).
Proof.
  destruct sRGB_registered as [A HA].
  destruct lin_srgb_registered as (B & HB & _).
  assert (Hc : RGB_bounded (mkRGB 0.5 0.5 0.5))
    by (unfold RGB_bounded; cbn [r g b]; split; [lra | split; lra]).
  destruct (transform_color_transitive _ _ _ _ A B A (mkRGB 0.5 0.5 0.5)
              HA HB HA Hc) as (mid & out & H).
  exists A, B, mid, out. split; [exact HA |]. split; [exact HB | exact H].
Defined.

Lemma rgb_to_rgb_matrix_composes_witness :
  exists A B mab mba maa,
    registered (initialised (mkState [])) "sRGB" A
    /\ registered (initialised (mkState [])) "lin_srgb" B
    /\ get_rgb_to_rgb_matrix A B = Ok mab
    /\ get_rgb_to_rgb_matrix B A = Ok mba
    /\ get_rgb_to_rgb_matrix A A = Ok maa
    /\ multiply mba mab = maa
    /\ get_rgb_to_rgb_matrix A A = Ok M33f_identity.
Proof.
  destruct sRGB_registered as [A HA].
  destruct lin_srgb_registered as (B & HB & _).
  destruct (rgb_to_rgb_matrix_composes _ _ _ _ A B A HA HB HA)
    as (mab & mba & maa & H).
  exists A, B, mab, mba, maa. split; [exact HA |]. split; [exact HB | exact H].
Defined.

Lemma registered_white_witness :
  exists S xyz yxy,
    registered (initialised (mkState [])) "sRGB" S
    /\ rgb_to_xyz_of S (mkRGB 1 1 1) = Ok xyz
    /\ X_y xyz = 1
    /\ xyz_to_yxy xyz = Ok yxy
    /\ Y_Y yxy = 1
    /\ Y_x yxy = cx (white_point (descriptor S))
    /\ Y_y yxy = cy (white_point (descriptor S)).
Proof.
  destruct sRGB_registered as [S HS].
  destruct (registered_white _ _ _ HS) as (xyz & yxy & H).
  exists S, xyz, yxy. split; [exact HS | exact H].
Defined.

Lemma registered_eq_iff_same_name_witness :
  exists S1 S2,
    registered (initialised (mkState [])) "sRGB" S1
    /\ registered (initialised (mkState [])) "lin_srgb" S2
    /\ (ColorSpace_eq S1 (Some S2) = true <-> "sRGB"%string = "lin_srgb"%string).
Proof.
  destruct sRGB_registered as [S1 H1].
  destruct lin_srgb_registered as (S2 & H2 & _).
  exists S1, S2. split; [exact H1 |]. split; [exact H2 |].
  exact (registered_eq_iff_same_name _ _ _ _ _ H1 H2).
Defined.

Lemma match_linear_color_space_builtin_witness :
  exists nm' d',
    match_linear_color_space (red_primary sRGB_descriptor)
      (green_primary sRGB_descriptor) (blue_primary sRGB_descriptor)
      (white_point sRGB_descriptor) 1e-4 = Some nm'
    /\ In (nm', d') COLOR_SPACES
    /\ linear_candidate d' (red_primary sRGB_descriptor)
         (green_primary sRGB_descriptor) (blue_primary sRGB_descriptor)
         (white_point sRGB_descriptor) 1e-4.
Proof.
  apply (match_linear_color_space_builtin "sRGB" sRGB_descriptor 1e-4 sRGB_in_table).
  lra.
Defined.

Lemma transform_to_round_trip_witness :
  exists mid,
    fst (transform_to one_white_chip "sRGB" (initialised (mkState []))) = Done mid
    /\ (chips_bounded (chips mid) ->
        fst (transform_to mid "lin_srgb" (initialised (mkState [])))
        = Done one_white_chip).
Proof.
  apply (transform_to_round_trip (mkState []) one_white_chip "sRGB"
           lin_srgb_in_table sRGB_name_in_table).
  unfold chips_bounded, one_white_chip; cbn [chips].
  constructor; [| constructor].
  unfold RGB_bounded; cbn [chip_rgb r g b]. split; [lra | split; lra].
Defined.
